(** * The request scheduler (rate limiter) and the entity URL navigator

    A shallow embedding of the two utilities of the front-end that carry
    behaviour of their own:

    - [Scheduler]: the [RateLimiter] class (queue, dispatch loop,
      [executeRequest], [clearQueue], [updateSettings], [getStatus]), run on
      an explicit model of the JavaScript event loop;
    - [Navigator]: the effect body of [useEntityUrlNavigation], together with
      the two platform functions it calls ([URLSearchParams.get] and
      [parseInt]).

    Definitions come first, the theorems follow. *)

From Stdlib Require Import String Ascii.
From Stdlib Require Import List ZArith QArith Bool Lia Lqa Arith.
From Stdlib Require Import Sorted Permutation.
Import ListNotations.

Close Scope Q_scope.
Open Scope nat_scope.

(** JavaScript values that travel through the scheduler untouched: results
    of operations, thrown errors.  [Error m] is [new Error(m)]. *)
Inductive any : Type :=
| Undefined
| Num (z : Z)
| Str (s : string)
| Error (message : string).

(* ===================================================================== *)
(** * Part I.  The rate limiter *)
(* ===================================================================== *)

Module Scheduler.

(** A promise created by [new Promise(...)] in [addRequest] is named by its
    allocation number: the n-th call of [addRequest] creates promise n. *)
Definition PromiseId := nat.

(** What [item.request()] does when it is called.  Either the call throws
    before returning ([Throws e]), or it returns a promise ([Awaits]) whose
    settling is an event of the environment (see [Settle] below); that promise
    may also stay pending for ever.  Operations do not call back into the
    limiter while they are being invoked. *)
Inductive Operation : Type :=
| Throws (error : any)
| Awaits.

(** [interface RequestQueue].  The two callbacks [resolve] and [reject] are
    the settling functions of one promise, the one [addRequest] returns; the
    field [promise] names it. *)
Record RequestQueue : Type := mkItem {
  id : string;
  request : Operation;
  promise : PromiseId
}.

(** The private fields of [class RateLimiter].  [requestDelay] and
    [maxConcurrent] are numbers that [updateSettings] assigns as they come,
    whole or not, so they are rationals; [activeRequests] starts at 0 and
    moves by one, so it is an integer.  ([NaN] and the infinities are left
    out.  Every comparison with [NaN] is false, so that under a ceiling of
    [NaN] the loop launches nothing, as under [-Infinity]; [+Infinity] is no
    ceiling at all.) *)
Record RateLimiter : Type := mkLimiter {
  queue : list RequestQueue;
  isProcessing : bool;
  requestDelay : Q;
  maxConcurrent : Q;
  activeRequests : Z
}.

(** [x < y] on numbers; [x >= y] is [Qle_bool y x]. *)
Definition Qlt_bool (x y : Q) : bool := negb (Qle_bool y x).

(** Callbacks handed to [setTimeout]: the resolver of the promise built by
    [delay] (the dispatch loop is suspended on it), and
    [() => this.processQueue()]. *)
Inductive TimerCallback : Type :=
| ResumeLoop
| CallProcessQueue.

Record Timer : Type := mkTimer {
  ms : Q;
  callback : TimerCallback
}.

(** Calls that leave the class: the console, the operation of an item, and
    the two settling functions of an item. *)
Inductive Effect : Type :=
| ConsoleLog (text : string)
| ConsoleError (text : string) (error : any)
| Invoke (p : PromiseId)
| Resolve (p : PromiseId) (value : any)
| Reject (p : PromiseId) (error : any).

(** The limiter inside its event loop: the object itself, the activations of
    [executeRequest] suspended at [await item.request()], the timers that are
    armed, the calls made so far (oldest first) and the number of the next
    promise. *)
Record World : Type := mkWorld {
  self : RateLimiter;
  awaiting : list RequestQueue;
  timers : list Timer;
  trace : list Effect;
  nextPromise : PromiseId
}.

(** [private queue = []; isProcessing = false; requestDelay = 200;
    maxConcurrent = 3; activeRequests = 0]. *)
Definition newRateLimiter : RateLimiter :=
  {| queue := [];
     isProcessing := false;
     requestDelay := 200%Q;
     maxConcurrent := 3%Q;
     activeRequests := 0%Z |}.

Definition init : World :=
  {| self := newRateLimiter;
     awaiting := [];
     timers := [];
     trace := [];
     nextPromise := 0 |}.

(** ** Field assignments *)

Definition set_queue (q : list RequestQueue) (r : RateLimiter) : RateLimiter :=
  {| queue := q;
     isProcessing := isProcessing r;
     requestDelay := requestDelay r;
     maxConcurrent := maxConcurrent r;
     activeRequests := activeRequests r |}.

Definition set_isProcessing (b : bool) (r : RateLimiter) : RateLimiter :=
  {| queue := queue r;
     isProcessing := b;
     requestDelay := requestDelay r;
     maxConcurrent := maxConcurrent r;
     activeRequests := activeRequests r |}.

Definition set_requestDelay (d : Q) (r : RateLimiter) : RateLimiter :=
  {| queue := queue r;
     isProcessing := isProcessing r;
     requestDelay := d;
     maxConcurrent := maxConcurrent r;
     activeRequests := activeRequests r |}.

Definition set_maxConcurrent (m : Q) (r : RateLimiter) : RateLimiter :=
  {| queue := queue r;
     isProcessing := isProcessing r;
     requestDelay := requestDelay r;
     maxConcurrent := m;
     activeRequests := activeRequests r |}.

Definition set_activeRequests (a : Z) (r : RateLimiter) : RateLimiter :=
  {| queue := queue r;
     isProcessing := isProcessing r;
     requestDelay := requestDelay r;
     maxConcurrent := maxConcurrent r;
     activeRequests := a |}.

(** [this.f = ...] seen from the event loop. *)
Definition on_self (f : RateLimiter -> RateLimiter) (w : World) : World :=
  {| self := f (self w);
     awaiting := awaiting w;
     timers := timers w;
     trace := trace w;
     nextPromise := nextPromise w |}.

Definition emit (e : Effect) (w : World) : World :=
  {| self := self w;
     awaiting := awaiting w;
     timers := timers w;
     trace := trace w ++ [e];
     nextPromise := nextPromise w |}.

(** [setTimeout(cb, d)]. *)
Definition setTimeout (cb : TimerCallback) (d : Q) (w : World) : World :=
  {| self := self w;
     awaiting := awaiting w;
     timers := timers w ++ [mkTimer d cb];
     trace := trace w;
     nextPromise := nextPromise w |}.

Definition set_awaiting (l : list RequestQueue) (w : World) : World :=
  {| self := self w;
     awaiting := l;
     timers := timers w;
     trace := trace w;
     nextPromise := nextPromise w |}.

Definition set_timers (l : list Timer) (w : World) : World :=
  {| self := self w;
     awaiting := awaiting w;
     timers := l;
     trace := trace w;
     nextPromise := nextPromise w |}.

Definition set_nextPromise (n : PromiseId) (w : World) : World :=
  {| self := self w;
     awaiting := awaiting w;
     timers := timers w;
     trace := trace w;
     nextPromise := n |}.

(** ** [executeRequest] *)

(** The [finally] block: [this.activeRequests--] and then
    [setTimeout(() => this.processQueue(), this.requestDelay / 2)]. *)
Definition executeRequest_finally (w : World) : World :=
  let w1 := on_self (fun r => set_activeRequests (activeRequests r - 1)%Z r) w in
  setTimeout CallProcessQueue (requestDelay (self w1) / 2)%Q w1.

(** The [catch] block: [console.error(...)] and [item.reject(error)]. *)
Definition executeRequest_catch (item : RequestQueue) (error : any) (w : World) : World :=
  emit (Reject (promise item) error)
    (emit (ConsoleError (String.append "[RateLimiter] Request failed: " (id item)) error) w).

(** How the promise returned by an operation settles. *)
Inductive Outcome : Type :=
| Fulfils (value : any)
| Rejects (error : any).

(** The part of [executeRequest] after [await item.request()]:
    [item.resolve(result)] when the awaited promise fulfils, the [catch] block
    when it rejects, and the [finally] block in both cases. *)
Definition executeRequest_resume (item : RequestQueue) (o : Outcome) (w : World) : World :=
  match o with
  | Fulfils v => executeRequest_finally (emit (Resolve (promise item) v) w)
  | Rejects e => executeRequest_finally (executeRequest_catch item e w)
  end.

(** The part of [executeRequest] that runs inside the caller's turn:
    [console.log], the call [item.request()], and then either the [catch] and
    [finally] blocks (the call threw) or the suspension at [await]. *)
Definition executeRequest (item : RequestQueue) (w : World) : World :=
  let w1 := emit (ConsoleLog (String.append "[RateLimiter] Executing request: " (id item))) w in
  let w2 := emit (Invoke (promise item)) w1 in
  match request item with
  | Throws e => executeRequest_finally (executeRequest_catch item e w2)
  | Awaits => set_awaiting (awaiting w2 ++ [item]) w2
  end.

(** ** [processQueue] *)

(** [await this.delay(d)]: [delay] arms a timer whose callback resolves the
    promise the loop then waits for. *)
Definition delay (d : Q) (w : World) : World :=
  setTimeout ResumeLoop d w.

(** One iteration of the loop body up to [if (this.queue.length > 0)]:
    [this.queue.shift()], [this.activeRequests++] and
    [this.executeRequest(item)]. *)
Definition shift_and_launch (item : RequestQueue) (rest : list RequestQueue)
           (w : World) : World :=
  let w1 := on_self (set_queue rest) w in
  let w2 := on_self (fun r => set_activeRequests (activeRequests r + 1)%Z r) w1 in
  executeRequest item w2.

(** The [while] loop of [processQueue], from its test up to the next
    suspension or to the assignment [this.isProcessing = false] after it.
    [fuel] bounds the number of times the test is evaluated; the loop shifts
    one item per iteration, so [S (length queue)] tests are enough
    ([while_loop_total]).  [queue.shift()] of a non-empty array is an object,
    so [if (!item) break] never fires. *)
Fixpoint while_loop (fuel : nat) (w : World) : option World :=
  match fuel with
  | O => None
  | S fuel' =>
      match queue (self w) with
      | item :: rest =>
          if Qlt_bool (inject_Z (activeRequests (self w))) (maxConcurrent (self w)) then
            let w1 := shift_and_launch item rest w in
            match queue (self w1) with
            | _ :: _ => Some (delay (requestDelay (self w1)) w1)
            | [] => while_loop fuel' w1
            end
          else Some (on_self (set_isProcessing false) w)
      | [] => Some (on_self (set_isProcessing false) w)
      end
  end.

(** The loop read without fuel ([while_loop_total] proves it is the same):
    the loop either leaves at once, or launches the first item and then
    suspends (more items are queued) or leaves (none is). *)
Definition loop_result (w : World) : World :=
  match queue (self w) with
  | item :: rest =>
      if Qlt_bool (inject_Z (activeRequests (self w))) (maxConcurrent (self w)) then
        let w1 := shift_and_launch item rest w in
        match rest with
        | _ :: _ => delay (requestDelay (self w1)) w1
        | [] => on_self (set_isProcessing false) w1
        end
      else on_self (set_isProcessing false) w
  | [] => on_self (set_isProcessing false) w
  end.

Definition loop_fuel (w : World) : nat := S (length (queue (self w))).

(** [processQueue()] up to its first suspension or its return. *)
Definition processQueue (w : World) : option World :=
  if isProcessing (self w)
     || (length (queue (self w)) =? 0)%nat
     || Qle_bool (maxConcurrent (self w)) (inject_Z (activeRequests (self w)))
  then Some w
  else
    let w1 := on_self (set_isProcessing true) w in
    while_loop (loop_fuel w1) w1.

(** The loop continuing after [await this.delay(...)]. *)
Definition resume_loop (w : World) : option World :=
  while_loop (loop_fuel w) w.

(** ** The public methods *)

(** [addRequest(id, request)]: the executor of the new promise pushes the
    item and calls [processQueue()] at once. *)
Definition addRequest (i : string) (r : Operation) (w : World) : option World :=
  let item := mkItem i r (nextPromise w) in
  let w1 := set_nextPromise (S (nextPromise w)) w in
  let w2 := on_self (fun l => set_queue (queue l ++ [item]) l) w1 in
  processQueue w2.

Record Status : Type := mkStatus {
  queueLength : nat;
  status_activeRequests : Z;
  status_isProcessing : bool
}.

Definition getStatus (r : RateLimiter) : Status :=
  {| queueLength := length (queue r);
     status_activeRequests := activeRequests r;
     status_isProcessing := isProcessing r |}.

Definition cancelled : any := Error "Request cancelled".

(** [clearQueue()]: [forEach] over the queue, then [this.queue = []]. *)
Definition clearQueue (w : World) : World :=
  let w1 := fold_left (fun acc item => emit (Reject (promise item) cancelled) acc)
                      (queue (self w)) w in
  on_self (set_queue []) w1.

(** The argument of [updateSettings]; [None] is an absent ([undefined])
    field. *)
Record Settings : Type := mkSettings {
  settings_requestDelay : option Q;
  settings_maxConcurrent : option Q
}.

Definition updateSettings (s : Settings) (r : RateLimiter) : RateLimiter :=
  let r1 := match settings_requestDelay s with
            | Some d => set_requestDelay d r
            | None => r
            end in
  match settings_maxConcurrent s with
  | Some m => set_maxConcurrent m r1
  | None => r1
  end.

(** ** The event loop *)

(** Removes the activation of [executeRequest] that awaits the operation of
    promise [p]. *)
Fixpoint take_awaiting (p : PromiseId) (l : list RequestQueue)
  : option (RequestQueue * list RequestQueue) :=
  match l with
  | [] => None
  | item :: rest =>
      if (promise item =? p)%nat then Some (item, rest)
      else match take_awaiting p rest with
           | Some (found, rest') => Some (found, item :: rest')
           | None => None
           end
  end.

Fixpoint remove_nth {A : Type} (n : nat) (l : list A) : list A :=
  match l, n with
  | [], _ => []
  | _ :: rest, O => rest
  | x :: rest, S n' => x :: remove_nth n' rest
  end.

(** One turn of the event loop.  The first four events are calls of the
    public methods; [Settle p o] is the promise returned by the operation of
    [p] settling, which resumes the activation that awaits it; [Expire n] is
    the n-th armed timer going off.  Timers may go off in any order, so every
    real schedule is one of the runs below. *)
Inductive Event : Type :=
| AddRequest (i : string) (r : Operation)
| GetStatus
| ClearQueue
| UpdateSettings (s : Settings)
| Settle (p : PromiseId) (o : Outcome)
| Expire (n : nat).

Definition step (e : Event) (w : World) : option World :=
  match e with
  | AddRequest i r => addRequest i r w
  | GetStatus => Some w
  | ClearQueue => Some (clearQueue w)
  | UpdateSettings s => Some (on_self (updateSettings s) w)
  | Settle p o =>
      match take_awaiting p (awaiting w) with
      | Some (item, rest) => Some (executeRequest_resume item o (set_awaiting rest w))
      | None => None
      end
  | Expire n =>
      match nth_error (timers w) n with
      | Some t =>
          let w1 := set_timers (remove_nth n (timers w)) w in
          match callback t with
          | ResumeLoop => resume_loop w1
          | CallProcessQueue => processQueue w1
          end
      | None => None
      end
  end.

Fixpoint run (es : list Event) (w : World) : option World :=
  match es with
  | [] => Some w
  | e :: rest =>
      match step e w with
      | Some w' => run rest w'
      | None => None
      end
  end.

(** The states the limiter can be in. *)
Definition reachable (w : World) : Prop :=
  exists es, run es init = Some w.

(** ** Reading the trace *)

Definition is_invoke (p : PromiseId) (e : Effect) : bool :=
  match e with
  | Invoke q => (q =? p)%nat
  | _ => false
  end.

(** Operations launched so far, in launch order. *)
Fixpoint dispatched (t : list Effect) : list PromiseId :=
  match t with
  | [] => []
  | Invoke p :: rest => p :: dispatched rest
  | _ :: rest => dispatched rest
  end.

(** The state of the promise [addRequest] returned: a promise keeps the first
    settlement it receives. *)
Fixpoint settlement (t : list Effect) (p : PromiseId) : option Outcome :=
  match t with
  | [] => None
  | Resolve q v :: rest => if (q =? p)%nat then Some (Fulfils v) else settlement rest p
  | Reject q e :: rest => if (q =? p)%nat then Some (Rejects e) else settlement rest p
  | _ :: rest => settlement rest p
  end.

Definition was_invoked (t : list Effect) (p : PromiseId) : bool :=
  existsb (is_invoke p) t.





(** ** The invariant of the event loop *)

(** The queue, the suspended activations, the counter and the trace tell one
    story.  [q] and [a] are the promise numbers of the queue and of the
    suspended activations, [act] the counter, [t] the trace and [n] the next
    promise number: promises are launched in increasing order and before
    everything still queued; the queue holds exactly the promises that were
    neither launched nor settled; the suspended activations are exactly the
    launched and unsettled ones, and the counter counts them. *)
Record Inv5 (q a : list PromiseId) (act : Z) (t : list Effect) (n : PromiseId) : Prop :=
  mkInv5 {
    inv_sorted : StronglySorted lt (dispatched t ++ q);
    inv_bound : forall p, In p (dispatched t ++ q) -> p < n;
    inv_queue : forall p,
      In p q <-> p < n /\ ~ In p (dispatched t) /\ settlement t p = None;
    inv_awaiting_nodup : NoDup a;
    inv_awaiting : forall p,
      In p a <-> In p (dispatched t) /\ settlement t p = None;
    inv_active : act = Z.of_nat (length a);
    inv_settled : forall p, settlement t p <> None -> p < n
  }.

Definition Inv (w : World) : Prop :=
  Inv5 (map promise (queue (self w))) (map promise (awaiting w))
       (activeRequests (self w)) (trace w) (nextPromise w).

(** A run in which no call of [updateSettings] puts the ceiling below the
    number of requests in flight at the time of the call. *)
Fixpoint ceiling_respected (es : list Event) (w : World) : Prop :=
  match es with
  | [] => True
  | e :: rest =>
      match e with
      | UpdateSettings s =>
          match settings_maxConcurrent s with
          | Some m => ~ (m < inject_Z (activeRequests (self w)))%Q
          | None => True
          end
      | _ => True
      end /\
      match step e w with
      | Some w' => ceiling_respected rest w'
      | None => True
      end
  end.

(** A number that is whole. *)
Definition whole (m : Q) : Prop := exists k : Z, (m == inject_Z k)%Q.

(** The armed timers on which the dispatch loop is suspended. *)
Definition resume_timers (w : World) : list Timer :=
  filter (fun t => match callback t with ResumeLoop => true | _ => false end) (timers w).

(** Where two submissions [a] and [b] (promise numbers) can stand once both
    have been queued: [a] was launched; or both are still queued; or [b] was
    cancelled and will never be launched. *)
Definition fifo_state (a b : PromiseId) (w : World) : Prop :=
  In a (dispatched (trace w)) \/
  (In a (map promise (queue (self w))) /\ In b (map promise (queue (self w)))) \/
  (~ In b (map promise (queue (self w))) /\ ~ In b (dispatched (trace w)) /\
   b < nextPromise w).

(** A run used to exercise the theorems: three submissions (the third one
    throws when called), a new ceiling, a fourth submission, a completion, a
    timer and [clearQueue]. *)
Definition busy_run : list Event :=
  [AddRequest "a" Awaits; AddRequest "b" Awaits; AddRequest "c" (Throws (Error "boom"));
   UpdateSettings (mkSettings None (Some 2%Q)); AddRequest "d" Awaits;
   Settle 0 (Fulfils (Num 1)); Expire 0; ClearQueue].

(** ** More ways of reading a state *)

(** The calls of [item.resolve] and [item.reject] made for promise [p]. *)
Fixpoint settle_calls (t : list Effect) (p : PromiseId) : nat :=
  match t with
  | [] => 0
  | Resolve q _ :: rest => (if (q =? p)%nat then 1 else 0) + settle_calls rest p
  | Reject q _ :: rest => (if (q =? p)%nat then 1 else 0) + settle_calls rest p
  | _ :: rest => settle_calls rest p
  end.

(** The armed timers whose callback is [() => this.processQueue()]. *)
Definition call_timers (w : World) : list Timer :=
  filter (fun t => match callback t with CallProcessQueue => true | _ => false end)
         (timers w).

(** What launching [item] adds to the trace. *)
Definition launch_effects (item : RequestQueue) : list Effect :=
  ConsoleLog (String.append "[RateLimiter] Executing request: " (id item))
  :: Invoke (promise item)
  :: match request item with
     | Throws e =>
         [ConsoleError (String.append "[RateLimiter] Request failed: " (id item)) e;
          Reject (promise item) e]
     | Awaits => []
     end.

(** What the completion of [item] with [o] adds to the trace. *)
Definition settle_effects (item : RequestQueue) (o : Outcome) : list Effect :=
  match o with
  | Fulfils v => [Resolve (promise item) v]
  | Rejects e =>
      [ConsoleError (String.append "[RateLimiter] Request failed: " (id item)) e;
       Reject (promise item) e]
  end.

(** The queue a step works on: [addRequest] pushes first, [clearQueue] drops
    everything. *)
Definition queue_at (e : Event) (w : World) : list RequestQueue :=
  match e with
  | AddRequest i r => queue (self w) ++ [mkItem i r (nextPromise w)]
  | ClearQueue => []
  | _ => queue (self w)
  end.

(** What a step adds to the trace when it launches nothing. *)
Definition quiet_effects (e : Event) (w : World) : list Effect -> Prop :=
  fun tl =>
    match e with
    | ClearQueue => tl = map (fun p => Reject p cancelled) (map promise (queue (self w)))
    | Settle p o =>
        exists item, In item (awaiting w) /\ promise item = p /\ tl = settle_effects item o
    | _ => tl = []
    end.

(** A request that is neither queued nor launched although its number has
    been handed out: it was cancelled. *)
Definition gone (p : PromiseId) (w : World) : Prop :=
  p < nextPromise w /\
  ~ In p (map promise (queue (self w))) /\
  ~ In p (dispatched (trace w)).

(** The flag [isProcessing] and the timer of the suspended loop go together:
    one such timer while the flag is set, none otherwise. *)
Definition flag_matches_timer (w : World) : Prop :=
  length (resume_timers w) = if isProcessing (self w) then 1 else 0.

(** A queued request has something to wait for: the suspended loop, a timer
    that will call [processQueue], or a full set of requests in flight. *)
Definition not_stranded (w : World) : Prop :=
  queue (self w) <> [] ->
  isProcessing (self w) = true \/
  call_timers w <> [] \/
  (maxConcurrent (self w) <= inject_Z (activeRequests (self w)))%Q.

(** Events that leave [maxConcurrent] alone. *)
Definition keeps_ceiling (e : Event) : bool :=
  match e with
  | UpdateSettings s =>
      match settings_maxConcurrent s with
      | Some _ => false
      | None => true
      end
  | _ => true
  end.

Definition is_submission (e : Event) : bool :=
  match e with
  | AddRequest _ _ => true
  | _ => false
  end.

(** Every settling call was made on a promise that was still pending, and a
    promise whose operation was never called can only have been cancelled. *)
Definition settled_once (w : World) : Prop :=
  (forall p, settle_calls (trace w) p <= 1) /\
  (forall p o, settlement (trace w) p = Some o ->
               In p (dispatched (trace w)) \/ o = Rejects cancelled).

End Scheduler.

(* ===================================================================== *)
(** * Part II.  The entity URL navigator *)
(* ===================================================================== *)

Module Navigator.

Open Scope string_scope.

(** ** The platform functions the hook calls *)

(** A JavaScript number as far as the hook and the pages meet one: [NaN], a
    double whose value is an integer, or an infinity.  (The sign of zero is
    not kept.) *)
Inductive number : Type :=
| NaN
| Int (z : Z)
| Infinity (negative : bool).

(** [Number.isSafeInteger]: the integers a number holds exactly. *)
Definition safe_integer (z : Z) : Prop :=
  (- (2 ^ 53 - 1) <= z <= 2 ^ 53 - 1)%Z.

(** The number for a mathematical integer: the nearest double, a tie going
    to the even significand of 53 bits, and an infinity from 2^1024 on. *)
Definition to_number (z : Z) : number :=
  let a := Z.abs z in
  if (a <? 2 ^ 53)%Z then Int z
  else
    let e := (Z.log2 a - 52)%Z in
    let q := (a / 2 ^ e)%Z in
    let r := (a mod 2 ^ e)%Z in
    let half := (2 ^ (e - 1))%Z in
    let q' := if (r <? half)%Z then q
              else if (half <? r)%Z then (q + 1)%Z
              else if Z.even q then q else (q + 1)%Z in
    if (2 ^ 1024 <=? q' * 2 ^ e)%Z then Infinity (z <? 0)%Z
    else Int (Z.sgn z * (q' * 2 ^ e)).

Definition byte (c : ascii) : N := N_of_ascii c.

(** White space that [parseInt] skips: TAB, LF, VT, FF, CR, SP, and in UTF-8
    U+00A0; U+1680, U+2000..U+200A, U+2028, U+2029, U+202F, U+205F, U+3000
    and U+FEFF. *)
Definition ws1 (c : ascii) : bool :=
  let n := byte c in
  ((9 <=? n) && (n <=? 13) || (n =? 32))%N.

Definition ws2 (c1 c2 : ascii) : bool :=
  ((byte c1 =? 194) && (byte c2 =? 160))%N.

Definition ws3 (c1 c2 c3 : ascii) : bool :=
  let a := byte c1 in
  let b := byte c2 in
  let c := byte c3 in
  ((a =? 225) && (b =? 154) && (c =? 128)
   || (a =? 226) && (b =? 128)
      && ((128 <=? c) && (c <=? 138) || (c =? 168) || (c =? 169) || (c =? 175))
   || (a =? 226) && (b =? 129) && (c =? 159)
   || (a =? 227) && (b =? 128) && (c =? 128)
   || (a =? 239) && (b =? 187) && (c =? 191))%N.

Fixpoint trim_start (s : string) : string :=
  match s with
  | String c1 r1 =>
      if ws1 c1 then trim_start r1
      else
        match r1 with
        | String c2 r2 =>
            if ws2 c1 c2 then trim_start r2
            else
              match r2 with
              | String c3 r3 => if ws3 c1 c2 c3 then trim_start r3 else s
              | EmptyString => s
              end
        | EmptyString => s
        end
  | EmptyString => s
  end.

(** The value of a character as a digit: 0-9, then a-z and A-Z for 10-35. *)
Definition digit_of (c : ascii) : option Z :=
  let n := Z.of_N (byte c) in
  if ((48 <=? n) && (n <=? 57))%Z then Some (n - 48)%Z
  else if ((97 <=? n) && (n <=? 122))%Z then Some (n - 87)%Z
  else if ((65 <=? n) && (n <=? 90))%Z then Some (n - 55)%Z
  else None.

Definition digit_in (radix : Z) (c : ascii) : option Z :=
  match digit_of c with
  | Some d => if (d <? radix)%Z then Some d else None
  | None => None
  end.

(** The longest prefix of digits of the radix, read as a number; [None] when
    that prefix is empty. *)
Fixpoint parse_digits (radix : Z) (s : string) (acc : Z) (seen : bool) : option Z :=
  match s with
  | String c rest =>
      match digit_in radix c with
      | Some d => parse_digits radix rest (acc * radix + d)%Z true
      | None => if seen then Some acc else None
      end
  | EmptyString => if seen then Some acc else None
  end.

(** An optional sign in front of the digits. *)
Definition sign_of (s : string) : Z * string :=
  match s with
  | String c r =>
      if Ascii.eqb c "-" then ((-1)%Z, r)
      else if Ascii.eqb c "+" then (1%Z, r)
      else (1%Z, s)
  | EmptyString => (1%Z, s)
  end.

(** With no radix given, a leading [0x] or [0X] selects radix 16 and is
    dropped; the radix is 10 otherwise. *)
Definition radix_of (s : string) : Z * string :=
  match s with
  | String c1 (String c2 r) =>
      if Ascii.eqb c1 "0" && (Ascii.eqb c2 "x" || Ascii.eqb c2 "X")
      then (16%Z, r)
      else (10%Z, s)
  | _ => (10%Z, s)
  end.

(** [parseInt(string)] with no radix: leading white space, a sign, the radix
    prefix, then the digits; what follows the digits is ignored, and no digit
    at all gives [NaN].  The result is a number, so the integer read is
    rounded to a double.  (The rounding here is the exact one; the language
    lets an engine approximate a decimal integer of more than 20 significant
    digits.  Safe integers are not concerned.) *)
Definition parseInt (s : string) : number :=
  let signed := sign_of (trim_start s) in
  let prefixed := radix_of (snd signed) in
  match parse_digits (fst prefixed) (snd prefixed) 0%Z false with
  | Some n => to_number (fst signed * n)
  | None => NaN
  end.

(** [new URLSearchParams(init)] for a string: a leading [?] is dropped, the
    rest is split at [&], empty pieces are skipped, each piece is split at its
    first [=], [+] becomes a space and percent escapes are decoded.  Strings
    are byte strings in UTF-8; the replacement of ill-formed UTF-8 by U+FFFD
    is not modelled. *)
Fixpoint split (sep : ascii) (s : string) : list string :=
  match s with
  | String c rest =>
      if Ascii.eqb c sep then EmptyString :: split sep rest
      else
        match split sep rest with
        | piece :: pieces => String c piece :: pieces
        | [] => [String c EmptyString]
        end
  | EmptyString => [EmptyString]
  end.

Fixpoint split_first (sep : ascii) (s : string) : string * string :=
  match s with
  | String c rest =>
      if Ascii.eqb c sep then (EmptyString, rest)
      else let '(name, value) := split_first sep rest in (String c name, value)
  | EmptyString => (EmptyString, EmptyString)
  end.

Fixpoint plus_to_space (s : string) : string :=
  match s with
  | String c rest =>
      String (if Ascii.eqb c "+" then " "%char else c) (plus_to_space rest)
  | EmptyString => EmptyString
  end.

Definition hex_of (c : ascii) : option N :=
  match digit_in 16 c with
  | Some d => Some (Z.to_N d)
  | None => None
  end.

Fixpoint percent_decode (s : string) : string :=
  match s with
  | String c rest =>
      match rest with
      | String h (String l rest') =>
          if Ascii.eqb c "%" then
            match hex_of h, hex_of l with
            | Some a, Some b => String (ascii_of_N (16 * a + b)) (percent_decode rest')
            | _, _ => String c (percent_decode rest)
            end
          else String c (percent_decode rest)
      | _ => String c (percent_decode rest)
      end
  | EmptyString => EmptyString
  end.

Definition decode (s : string) : string := percent_decode (plus_to_space s).

Definition URLSearchParams (init : string) : list (string * string) :=
  let input :=
    match init with
    | String "?" rest => rest
    | _ => init
    end in
  map (fun piece => let '(name, value) := split_first "=" piece in
                    (decode name, decode value))
      (filter (fun piece => negb (String.eqb piece EmptyString)) (split "&" input)).

(** [searchParams.get(name)]: the value of the first pair of that name,
    [None] for [null]. *)
Fixpoint get (params : list (string * string)) (name : string) : option string :=
  match params with
  | (n, v) :: rest => if String.eqb n name then Some v else get rest name
  | [] => None
  end.

(** A [string | null] used as a condition. *)
Definition truthy (s : option string) : bool :=
  match s with
  | Some v => negb (String.eqb v EmptyString)
  | None => false
  end.

(** [action === text]. *)
Definition strict_eq (action : option string) (text : string) : bool :=
  match action with
  | Some a => String.eqb a text
  | None => false
  end.

(** ** The hook *)

Section Hook.

(** The type of entities.  Entities are objects, so a [data] field that is
    present is truthy. *)
Variable T : Type.

(** The value [getEntityById] resolves with. *)
Record Response : Type := mkResponse {
  success : bool;
  data : option T
}.

(** What awaiting [getEntityById(id)] comes to: a response, a rejection (or
    an exception thrown by the call, or by reading the fields of a response
    that is no object), or nothing as long as the promise is pending. *)
Inductive Fetched : Type :=
| Resolved (response : Response)
| Failed (error : any)
| Unsettled.

(** How a call of a callback of the host ends. *)
Inductive Returned : Type :=
| Normally
| Throwing (error : any).

(** [EntityUrlNavigationConfig<T>].  The two callbacks are functions of the
    host: each call is recorded and either returns or throws.
    [onAdditionalAction] is optional. *)
Record EntityUrlNavigationConfig : Type := Config {
  getEntityById : number -> Fetched;
  onEntityLoaded : T -> Returned;
  onAdditionalAction : option (T -> number -> Returned)
}.

(** A configuration whose callbacks return normally; [provided] tells whether
    it has an [onAdditionalAction]. *)
Definition mkConfig (getEntityById : number -> Fetched) (provided : bool)
  : EntityUrlNavigationConfig :=
  {| getEntityById := getEntityById;
     onEntityLoaded := fun _ => Normally;
     onAdditionalAction := if provided then Some (fun _ _ => Normally) else None |}.

Inductive Level : Type := Log | Warn | Error_.

(** The calls the hook makes. *)
Inductive Call : Type :=
| Console (level : Level) (text : string)
| GetEntityById (id : number)
| OnEntityLoaded (entity : T)
| OnAdditionalAction (entity : T) (entityId : number).

(** How a piece of the hook ends: with a value, with an exception, or
    suspended for good at an [await]. *)
Inductive Completion (A : Type) : Type :=
| Done (a : A)
| Thrown (error : any)
| Suspended.

Arguments Done {A} a.
Arguments Thrown {A} error.
Arguments Suspended {A}.

(** Code that makes calls and may throw. *)
Definition Eff (A : Type) : Type := list Call * Completion A.

Definition ret {A : Type} (a : A) : Eff A := ([], Done a).

Definition bind {A B : Type} (m : Eff A) (k : A -> Eff B) : Eff B :=
  match m with
  | (calls, Done a) => let '(calls', c) := k a in ((calls ++ calls')%list, c)
  | (calls, Thrown e) => (calls, Thrown e)
  | (calls, Suspended) => (calls, Suspended)
  end.

(** A call that cannot throw: the console. *)
Definition call (c : Call) : Eff unit := ([c], Done tt).

(** A call of a callback of the host, which ends as the callback does. *)
Definition invoke (c : Call) (r : Returned) : Eff unit :=
  ([c],
   match r with
   | Normally => Done tt
   | Throwing e => Thrown e
   end).

(** [try { m } catch (err) { handler err }]. *)
Definition try_catch {A : Type} (m : Eff A) (handler : any -> Eff A) : Eff A :=
  match m with
  | (calls, Thrown e) => let '(calls', c) := handler e in ((calls ++ calls')%list, c)
  | _ => m
  end.

Notation "x <- m ;; k" := (bind m (fun x => k))
  (at level 61, m at next level, right associativity).
Notation "m ;;; k" := (bind m (fun _ => k))
  (at level 61, right associativity).

(** [await getEntityById(id)]. *)
Definition await_getEntityById (cfg : EntityUrlNavigationConfig) (id : number)
  : Eff Response :=
  ([GetEntityById id],
   match getEntityById cfg id with
   | Resolved response => Done response
   | Failed e => Thrown e
   | Unsettled => Suspended
   end).

(** [loadSpecificEntity]: the fetch and both callbacks run inside the [try]
    block. *)
Definition loadSpecificEntity (cfg : EntityUrlNavigationConfig) (entityId : string)
  : Eff unit :=
  try_catch
    (call (Console Log ("Loading entity with ID: " ++ entityId)) ;;;
     response <- await_getEntityById cfg (parseInt entityId) ;;
     call (Console Log "API response:") ;;;
     match success response, data response with
     | true, Some entity =>
         call (Console Log "Entity loaded successfully:") ;;;
         invoke (OnEntityLoaded entity) (onEntityLoaded cfg entity) ;;;
         match onAdditionalAction cfg with
         | Some onAdditionalAction' =>
             call (Console Log "Executing additional action...") ;;;
             invoke (OnAdditionalAction entity (parseInt entityId))
                    (onAdditionalAction' entity (parseInt entityId))
         | None => ret tt
         end
     | _, _ => call (Console Warn "Entity not found:")
     end)
    (fun err => call (Console Error_ "Error loading specific entity:")).

(** The effect that [useEntityUrlNavigation] registers, run once for a value
    of [location.search] and followed up to the end of [loadSpecificEntity].
    In the branch that loads, [entityId] is a string (the test has excluded
    [null]), which the match on it makes explicit. *)
Definition useEntityUrlNavigation (cfg : EntityUrlNavigationConfig) (search : string) : Eff unit :=
  call (Console Log "useEntityUrlNavigation: checking URL params:") ;;;
  let searchParams := URLSearchParams search in
  let entityId := get searchParams "id" in
  let action := get searchParams "action" in
  call (Console Log "useEntityUrlNavigation: entityId =") ;;;
  match entityId with
  | Some entityId' =>
      if truthy entityId && (strict_eq action "view" || strict_eq action "detail") then
        call (Console Log "useEntityUrlNavigation: conditions met, loading entity...") ;;;
        loadSpecificEntity cfg entityId'
      else call (Console Log "useEntityUrlNavigation: conditions not met, skipping...")
  | None => call (Console Log "useEntityUrlNavigation: conditions not met, skipping...")
  end.

(** ** Reading the calls *)

(** The callbacks fired, in order. *)
Fixpoint callbacks (calls : list Call) : list Call :=
  match calls with
  | OnEntityLoaded e :: rest => OnEntityLoaded e :: callbacks rest
  | OnAdditionalAction e n :: rest => OnAdditionalAction e n :: callbacks rest
  | _ :: rest => callbacks rest
  | [] => []
  end.

(** The fetches made, in order. *)
Fixpoint fetches (calls : list Call) : list number :=
  match calls with
  | GetEntityById n :: rest => n :: fetches rest
  | _ :: rest => fetches rest
  | [] => []
  end.

(** A fetch that "carries a success indicator and a payload". *)
Definition fetch_succeeds (f : Fetched) : bool :=
  match f with
  | Resolved r =>
      success r && match data r with Some _ => true | None => false end
  | _ => false
  end.

End Hook.

Arguments Resolved {T} response.
Arguments Failed {T} error.
Arguments Unsettled {T}.
Arguments mkResponse {T} success data.
Arguments Config {T} getEntityById onEntityLoaded onAdditionalAction.
Arguments mkConfig {T} getEntityById provided.
Arguments onEntityLoaded {T} e entity.
Arguments Console {T} level text.
Arguments GetEntityById {T} id.
Arguments OnEntityLoaded {T} entity.
Arguments OnAdditionalAction {T} entity entityId.
Arguments success {T} r.
Arguments data {T} r.
Arguments getEntityById {T} e id.
Arguments onAdditionalAction {T} e.
Arguments await_getEntityById {T} cfg id.
Arguments loadSpecificEntity {T} cfg entityId.
Arguments useEntityUrlNavigation {T} cfg search.
Arguments callbacks {T} calls.
Arguments fetches {T} calls.
Arguments fetch_succeeds {T} f.
Arguments Done {A} a.
Arguments Thrown {A} error.
Arguments Suspended {A}.

(** ** An integer id, in the words of the specification *)

(** The integer an id denotes when it is one: an optional minus sign and one
    or more decimal digits, nothing else. *)
Fixpoint decimal_digits (s : string) (acc : Z) : option Z :=
  match s with
  | String c rest =>
      let n := Z.of_N (byte c) in
      if ((48 <=? n) && (n <=? 57))%Z then decimal_digits rest (acc * 10 + (n - 48))%Z
      else None
  | EmptyString => Some acc
  end.

Definition integer_literal (s : string) : option Z :=
  match s with
  | String "-" (String c rest) => option_map Z.opp (decimal_digits (String c rest) 0%Z)
  | String "-" EmptyString => None
  | String c rest => decimal_digits (String c rest) 0%Z
  | EmptyString => None
  end.

(** A decimal digit. *)
Definition is_decimal (c : ascii) : Prop :=
  (48 <= Z.of_N (byte c) <= 57)%Z.

(** A fetch function that knows entity 7 only. *)
Definition only_seven : number -> Fetched string :=
  fun n =>
    match n with
    | Int 7 => Resolved (mkResponse true (Some "seven"))
    | _ => Resolved (mkResponse false None)
    end.

End Navigator.

(* ===================================================================== *)
(** * Part II bis.  The pages around the navigator *)
(* ===================================================================== *)

(** The handler of the search page that builds the links the navigator
    reads, the callbacks the instruments page hands to the navigator, and the
    list handlers of the two pages.  Console output is left out. *)

Module Pages.

Import Navigator.

Open Scope string_scope.

(** ** A number inside a template literal *)

(** The decimal digits of a non-negative integer, written in front of
    [rest]; [fuel] bounds their number. *)
Fixpoint digits_of (fuel : nat) (n : Z) (rest : string) : string :=
  match fuel with
  | O => rest
  | S fuel' =>
      let rest' := String (ascii_of_N (Z.to_N (48 + n mod 10))) rest in
      if (n <? 10)%Z then rest' else digits_of fuel' (n / 10) rest'
  end.

(** A number has no more decimal digits than binary ones. *)
Definition digits_fuel (n : Z) : nat := S (Z.to_nat (Z.log2 n)).

(** [`${n}`] for a number [n]: "NaN", "Infinity" with its sign, or the
    decimal digits with a minus sign in front of a negative integer.  (From
    10^21 on JavaScript switches to the exponent notation, which is not
    modelled; see [safe_integer].) *)
Definition Number_toString (n : number) : string :=
  match n with
  | NaN => "NaN"
  | Int z =>
      if (z <? 0)%Z then String "-" (digits_of (digits_fuel (- z)) (- z) "")
      else digits_of (digits_fuel z) z ""
  | Infinity negative => if negative then "-Infinity" else "Infinity"
  end.

(** A number used as a condition: [NaN], 0 and [undefined] are falsy. *)
Definition truthy_number (n : option number) : bool :=
  match n with
  | Some (Int z) => negb (z =? 0)%Z
  | Some (Infinity _) => true
  | Some NaN => false
  | None => false
  end.

(** ** [handleResultSelect] of the search page *)

(** The fields of a [SearchResult] the handler reads: [result.type],
    [result.labels] and [result.entity?.id] ([None] for [undefined]). *)
Record SearchResult : Type := mkResult {
  type : option string;
  labels : option (list string);
  entity_id : option number
}.

(** The own properties of the object literal [entityRouteMap]. *)
Definition entityRouteMap : list (string * string) :=
  [("Instrument", "/instruments");
   ("Famille", "/familles");
   ("GroupeEthnique", "/groupes-ethniques");
   ("Localite", "/localites");
   ("Materiau", "/materiaux");
   ("Timbre", "/timbres");
   ("TechniqueDeJeu", "/techniques");
   ("Artisan", "/artisans");
   ("PatrimoineCulturel", "/patrimoines");
   ("Familles", "/familles");
   ("GroupesEthniques", "/groupes-ethniques");
   ("Localites", "/localites");
   ("Materiaux", "/materiaux");
   ("Timbres", "/timbres");
   ("Techniques", "/techniques");
   ("TechniquesDeJeu", "/techniques");
   ("Artisans", "/artisans");
   ("Patrimoines", "/patrimoines");
   ("PatrimoinesCulturels", "/patrimoines")].

(** The properties every object literal inherits from [Object.prototype];
    all of them are truthy. *)
Definition inherited_names : list string :=
  ["constructor"; "__defineGetter__"; "__defineSetter__"; "hasOwnProperty";
   "__lookupGetter__"; "__lookupSetter__"; "isPrototypeOf";
   "propertyIsEnumerable"; "toString"; "valueOf"; "__proto__";
   "toLocaleString"].

(** What [entityRouteMap[key]] evaluates to. *)
Inductive Property : Type :=
| Own (route : string)
| Inherited
| Missing.

Fixpoint own_property (table : list (string * string)) (key : string) : option string :=
  match table with
  | (k, v) :: rest => if String.eqb k key then Some v else own_property rest key
  | [] => None
  end.

(** [entityRouteMap[resultType]]; an [undefined] key reads the property
    named "undefined". *)
Definition lookup_route (resultType : option string) : Property :=
  let key := match resultType with Some k => k | None => "undefined" end in
  match own_property entityRouteMap key with
  | Some route => Own route
  | None => if existsb (String.eqb key) inherited_names then Inherited else Missing
  end.

(** [result.type || (result.labels && result.labels[0])]. *)
Definition resultType (result : SearchResult) : option string :=
  if truthy (type result) then type result
  else
    match labels result with
    | Some (first :: _) => Some first
    | _ => None
    end.

(** What the handler does with the router. *)
Inductive Navigation : Type :=
| NavigateTo (to : string)
| NavigateToBuiltin
| NoNavigation.

Definition handleResultSelect (result : SearchResult) : Navigation :=
  match lookup_route (resultType result) with
  | Own route =>
      if truthy_number (entity_id result) then
        match entity_id result with
        | Some id => NavigateTo (route ++ "?id=" ++ Number_toString id ++ "&action=view")
        | None => NavigateTo route
        end
      else NavigateTo route
  | Inherited => NavigateToBuiltin
  | Missing => NoNavigation
  end.

(** ** The router *)

Fixpoint before (c : ascii) (s : string) : string :=
  match s with
  | String a rest => if Ascii.eqb a c then EmptyString else String a (before c rest)
  | EmptyString => EmptyString
  end.

Fixpoint from (c : ascii) (s : string) : string :=
  match s with
  | String a rest => if Ascii.eqb a c then s else from c rest
  | EmptyString => EmptyString
  end.

(** [location.search] after [navigate(to)]: the router cuts [to] at its
    first [#] and takes what starts at the first [?] before it. *)
Definition search_of (to : string) : string := from "?" (before "#" to).

(** ** The callbacks of the instruments page *)

Section InstrumentsPage.

Variable Instrument : Type.
Variable instrument_id : Instrument -> Z.

(** The state the navigator callbacks touch: the selected instrument, the two
    dialogs, the calls of [loadInstrumentRelations] made so far and the
    actions captured by the timeouts that are still armed. *)
Record PageState : Type := mkPage {
  selectedInstrument : option Instrument;
  showDetail : bool;
  showRelations : bool;
  relationsLoaded : list number;
  timeouts : list (option string)
}.

(** [onEntityLoaded]: selects the instrument and arms a timeout of 100 ms
    that captures the action of the query string. *)
Definition onEntityLoaded (search : string) (instrument : Instrument)
           (st : PageState) : PageState :=
  {| selectedInstrument := Some instrument;
     showDetail := showDetail st;
     showRelations := showRelations st;
     relationsLoaded := relationsLoaded st;
     timeouts := timeouts st ++ [get (URLSearchParams search) "action"] |}.

(** The callback of that timeout. *)
Definition open_dialog (action : option string) (st : PageState) : PageState :=
  if strict_eq action "detail" then
    {| selectedInstrument := selectedInstrument st;
       showDetail := true;
       showRelations := showRelations st;
       relationsLoaded := relationsLoaded st;
       timeouts := timeouts st |}
  else if strict_eq action "view" then
    {| selectedInstrument := selectedInstrument st;
       showDetail := showDetail st;
       showRelations := true;
       relationsLoaded := relationsLoaded st;
       timeouts := timeouts st |}
  else st.

(** [onAdditionalAction]: [loadInstrumentRelations(instrumentId)] when the
    action is "view". *)
Definition onAdditionalAction_page (search : string) (instrument : Instrument)
           (instrumentId : number) (st : PageState) : PageState :=
  if strict_eq (get (URLSearchParams search) "action") "view" then
    {| selectedInstrument := selectedInstrument st;
       showDetail := showDetail st;
       showRelations := showRelations st;
       relationsLoaded := relationsLoaded st ++ [instrumentId];
       timeouts := timeouts st |}
  else st.

(** The page reacting to the calls of the navigator, in order. *)
Definition react (search : string) (calls : list (Call Instrument))
           (st : PageState) : PageState :=
  fold_left
    (fun acc c =>
       match c with
       | OnEntityLoaded instrument => onEntityLoaded search instrument acc
       | OnAdditionalAction instrument n => onAdditionalAction_page search instrument n acc
       | _ => acc
       end)
    calls st.

(** The armed timeouts going off, oldest first. *)
Definition run_timeouts (st : PageState) : PageState :=
  fold_left (fun acc action => open_dialog action acc) (timeouts st)
    {| selectedInstrument := selectedInstrument st;
       showDetail := showDetail st;
       showRelations := showRelations st;
       relationsLoaded := relationsLoaded st;
       timeouts := [] |}.

(** The instruments page visited at [search]: the navigator runs with
    [getById] and the two callbacks above (the second one is provided), then
    the timeouts go off. *)
Definition visit (getById : number -> Fetched Instrument) (search : string)
           (st : PageState) : PageState :=
  run_timeouts
    (react search (fst (useEntityUrlNavigation (mkConfig getById true) search)) st).

(** ** Selecting instruments *)

(** [handleSelectInstrument]: the updater handed to [setSelectedInstruments]. *)
Definition handleSelectInstrument (instrumentId : Z) (prev : list Z) : list Z :=
  if existsb (Z.eqb instrumentId) prev
  then filter (fun id => negb (id =? instrumentId)%Z) prev
  else prev ++ [instrumentId].

(** [handleSelectAll]: the new selection. *)
Definition handleSelectAll (selectedInstruments : list Z)
           (instruments : list Instrument) : list Z :=
  if (length selectedInstruments =? length instruments)%nat then []
  else map instrument_id instruments.

(** ** Deleting the selection *)

(** What [handleBulkDelete] leaves behind when the user confirms:
    the calls of [instrumentsApi.delete], the two counters, the selection and
    the messages it sets (a timeout clears both messages five seconds
    later). *)
Record BulkDelete : Type := mkBulk {
  deleted : list Z;
  successCount : nat;
  errorCount : nat;
  selection : list Z;
  successMessage : option string;
  error : option string
}.

(** The [for] loop: one [await instrumentsApi.delete(id)] per selected id;
    [delete id] is [false] when that call throws. *)
Fixpoint delete_each (delete : Z -> bool) (ids : list Z) (acc : list Z * nat * nat)
  : list Z * nat * nat :=
  match ids with
  | [] => acc
  | id :: rest =>
      let '(calls, ok, ko) := acc in
      if delete id then delete_each delete rest ((calls ++ [id])%list, S ok, ko)
      else delete_each delete rest ((calls ++ [id])%list, ok, S ko)
  end.

Definition count_text (n : nat) : string := Number_toString (Int (Z.of_nat n)).

(** [handleBulkDelete]; [None] when [window.confirm] is declined, in which
    case nothing happens. *)
Definition handleBulkDelete (confirm : bool) (delete : Z -> bool)
           (selectedInstruments : list Z) : option BulkDelete :=
  if confirm then
    let '(calls, ok, ko) := delete_each delete selectedInstruments ([], 0, 0) in
    Some {| deleted := calls;
            successCount := ok;
            errorCount := ko;
            selection := [];
            successMessage :=
              if (ko =? 0)%nat
              then Some (count_text ok ++ " instruments supprimés avec succès")
              else None;
            error :=
              if (ko =? 0)%nat then None
              else Some (count_text ok ++ " instruments supprimés, "
                         ++ count_text ko ++ " erreurs") |}
  else None.

End InstrumentsPage.

Arguments mkPage {Instrument} selectedInstrument showDetail showRelations
          relationsLoaded timeouts.
Arguments selectedInstrument {Instrument} p.
Arguments showDetail {Instrument} p.
Arguments showRelations {Instrument} p.
Arguments relationsLoaded {Instrument} p.
Arguments timeouts {Instrument} p.
Arguments onEntityLoaded {Instrument} search instrument st.
Arguments open_dialog {Instrument} action st.
Arguments onAdditionalAction_page {Instrument} search instrument instrumentId st.
Arguments react {Instrument} search calls st.
Arguments run_timeouts {Instrument} st.
Arguments visit {Instrument} getById search st.
Arguments handleSelectAll {Instrument} instrument_id selectedInstruments instruments.

(** ** The history of Cypher queries *)

(** In [executeCypherQuery], after a successful query:
    [if (!cypherHistory.includes(cypherQuery))
       setCypherHistory(prev => [cypherQuery, ...prev.slice(0, 9)])].
    The test reads [cypherHistory], the history of the render whose closure
    is running; the updater receives [prev], the history at the time it is
    applied.  The two differ when another run has updated the history since
    that render.  The result is the history the state holds afterwards. *)
Definition remember_query (cypherQuery : string)
           (cypherHistory prev : list string) : list string :=
  if existsb (String.eqb cypherQuery) cypherHistory then prev
  else cypherQuery :: firstn 9 prev.

(** The history after a series of successful runs, given in the order in
    which they reach the test, each with its query and with the history its
    closure holds. *)
Definition history_from (h : list string) (runs : list (string * list string))
  : list string :=
  fold_left (fun prev run => remember_query (fst run) (snd run) prev) runs h.

Definition history_after (runs : list (string * list string)) : list string :=
  history_from [] runs.

(** Runs that do not overlap: every run starts after the previous one has
    updated the history, so that its closure holds the current history. *)
Fixpoint in_turn_from (h : list string) (queries : list string)
  : list (string * list string) :=
  match queries with
  | q :: rest => (q, h) :: in_turn_from (remember_query q h h) rest
  | [] => []
  end.

Definition in_turn (queries : list string) : list (string * list string) :=
  in_turn_from [] queries.

(** Characters that mean nothing special in a query string or a path:
    [-], [.], [/] and the digits. *)
Fixpoint plain (s : string) : Prop :=
  match s with
  | String c rest => (45 <= Z.of_N (byte c) <= 57)%Z /\ plain rest
  | EmptyString => True
  end.

(** [c] does not occur in [s]. *)
Fixpoint lacks (c : ascii) (s : string) : Prop :=
  match s with
  | String a rest => a <> c /\ lacks c rest
  | EmptyString => True
  end.

(** ** The results of a geographic search *)

(** A raw result of [searchApi.geographic], as far as the links need it:
    every entity is given by its [id] field ([None] for [undefined]);
    [instruments], [localite] and [groupesEthniques] may be absent. *)
Record GeoResult : Type := mkGeo {
  instruments : option (list (option number));
  localite : option (option number);
  groupesEthniques : option (list (option number))
}.

Definition result_of (kind : string) (id : option number) : SearchResult :=
  {| type := Some kind; labels := Some [kind]; entity_id := id |}.

(** The body of [rawResults.forEach] in [performGeographicSearch]: the
    instruments of the place, the place itself, then its ethnic groups.  The
    spread of the raw entity leaves [entity.id] equal to the raw [id]. *)
Definition transform_one (geoResult : GeoResult) : list SearchResult :=
  (match instruments geoResult with
   | Some l => map (result_of "Instrument") l
   | None => []
   end
   ++ match localite geoResult with
      | Some id => [result_of "Localite" id]
      | None => []
      end
   ++ match groupesEthniques geoResult with
      | Some l => map (result_of "GroupeEthnique") l
      | None => []
      end)%list.

Definition transformedResults (rawResults : list GeoResult) : list SearchResult :=
  flat_map transform_one rawResults.

(** [if (transformedResults.length === 0) setError(...)]. *)
Definition geographic_error (rawResults : list GeoResult) : option string :=
  match transformedResults rawResults with
  | [] => Some "Aucun résultat trouvé dans cette zone géographique"
  | _ :: _ => None
  end.

End Pages.

(* ===================================================================== *)
(** * Part III.  Properties of the rate limiter *)
(* ===================================================================== *)

Import Scheduler.

(** ** Comparing the counter with the ceiling *)

Lemma Qle_bool_spec (x y : Q) : BoolSpec (x <= y)%Q (y < x)%Q (Qle_bool x y).
Proof.
  destruct (Qle_bool x y) eqn:E; constructor.
  - now apply Qle_bool_iff.
  - apply Qnot_le_lt. intros H. apply Qle_bool_iff in H. congruence.
Qed.

Lemma Qlt_bool_spec (x y : Q) : BoolSpec (x < y)%Q (y <= x)%Q (Qlt_bool x y).
Proof.
  unfold Qlt_bool. destruct (Qle_bool_spec y x); constructor; auto.
Qed.

Lemma Qlt_bool_true (x y : Q) : (x < y)%Q -> Qlt_bool x y = true.
Proof.
  intros H. destruct (Qlt_bool_spec x y) as [_|H']; auto.
  exfalso. revert H. now apply Qle_not_lt.
Qed.

(** One more request in flight. *)
Lemma inject_Z_succ (a : Z) : inject_Z (a + 1) = (inject_Z a + 1)%Q.
Proof. apply inject_Z_plus. Qed.

Lemma inject_Z_pred_le (a : Z) : (inject_Z (a - 1) <= inject_Z a)%Q.
Proof. rewrite <- Zle_Qle. lia. Qed.

(** ** Lists of increasing promise numbers *)

Lemma increasing_app (l1 l2 : list nat) :
  StronglySorted lt (l1 ++ l2) <->
  StronglySorted lt l1 /\ StronglySorted lt l2 /\
  (forall x y, In x l1 -> In y l2 -> x < y).
Proof.
  induction l1 as [|a l1 IH]; simpl.
  - split.
    + intros H. repeat split; auto. constructor. intros x y [].
    + intros (_ & H & _). exact H.
  - split.
    + intros H. apply StronglySorted_inv in H. destruct H as [Hs Hf].
      apply IH in Hs. destruct Hs as (H1 & H2 & H3).
      rewrite Forall_forall in Hf.
      repeat split; auto.
      * constructor; auto. apply Forall_forall. intros x Hx.
        apply Hf. apply in_or_app. now left.
      * intros x y [<-|Hx] Hy.
        -- apply Hf. apply in_or_app. now right.
        -- now apply H3.
    + intros (H1 & H2 & H3).
      apply StronglySorted_inv in H1. destruct H1 as [Hs Hf].
      rewrite Forall_forall in Hf.
      constructor.
      * apply IH. repeat split; auto.
      * apply Forall_forall. intros x Hx. apply in_app_or in Hx.
        destruct Hx as [Hx|Hx]; auto.
Qed.

Lemma increasing_single (x : nat) : StronglySorted lt [x].
Proof. constructor; constructor. Qed.

Lemma increasing_NoDup (l : list nat) : StronglySorted lt l -> NoDup l.
Proof.
  induction 1 as [|a l Hs IH Hf]; constructor; auto.
  rewrite Forall_forall in Hf. intros Hin. apply Hf in Hin. lia.
Qed.

Lemma NoDup_snoc {A : Type} (l : list A) (x : A) :
  NoDup l -> ~ In x l -> NoDup (l ++ [x]).
Proof.
  induction 1 as [|a l Ha Hl IH]; simpl; intros Hx.
  - constructor; [tauto | constructor].
  - constructor.
    + rewrite in_app_iff. simpl. intuition congruence.
    + apply IH. tauto.
Qed.

(** In an increasing list a smaller member stands before a larger one. *)
Lemma increasing_before (l : list nat) (a b : nat) :
  StronglySorted lt l -> In a l -> In b l -> a < b ->
  exists l1 l2 l3, l = l1 ++ a :: l2 ++ b :: l3.
Proof.
  intros Hs Ha Hb Hlt.
  destruct (in_split _ _ Hb) as (m1 & m2 & ->).
  apply increasing_app in Hs. destruct Hs as (H1 & H2 & H3).
  apply in_app_or in Ha. destruct Ha as [Ha|Ha].
  - destruct (in_split _ _ Ha) as (l1 & l2 & ->).
    exists l1, l2, m2. now rewrite <- app_assoc.
  - exfalso. destruct Ha as [Ha|Ha]; [lia|].
    apply StronglySorted_inv in H2. destruct H2 as [_ Hf].
    rewrite Forall_forall in Hf. apply Hf in Ha. lia.
Qed.

(** ** Reading a trace that grows *)

Lemma dispatched_app (t1 t2 : list Effect) :
  dispatched (t1 ++ t2) = dispatched t1 ++ dispatched t2.
Proof.
  induction t1 as [|e t1 IH]; simpl; auto.
  destruct e; simpl; now rewrite ?IH.
Qed.

Lemma settlement_app (t1 t2 : list Effect) (p : PromiseId) :
  settlement (t1 ++ t2) p =
  match settlement t1 p with
  | Some o => Some o
  | None => settlement t2 p
  end.
Proof.
  induction t1 as [|e t1 IH]; simpl; auto.
  destruct e; simpl; auto; destruct (_ =? _); auto.
Qed.

Lemma was_invoked_dispatched (t : list Effect) (p : PromiseId) :
  was_invoked t p = true <-> In p (dispatched t).
Proof.
  unfold was_invoked. induction t as [|e t IH]; simpl.
  - split; [discriminate | tauto].
  - destruct e; simpl; auto.
    rewrite orb_true_iff, IH, Nat.eqb_eq. tauto.
Qed.

Lemma was_invoked_false (t : list Effect) (p : PromiseId) :
  was_invoked t p = false <-> ~ In p (dispatched t).
Proof.
  rewrite <- was_invoked_dispatched. destruct (was_invoked t p); split; congruence.
Qed.

Lemma settlement_rejects (l : list PromiseId) (e : any) (p : PromiseId) :
  settlement (map (fun q => Reject q e) l) p =
  if in_dec Nat.eq_dec p l then Some (Rejects e) else None.
Proof.
  induction l as [|a l IH]; simpl; auto.
  destruct (Nat.eqb_spec a p) as [->|Hne].
  - destruct (Nat.eq_dec p p); [reflexivity | congruence].
  - rewrite IH. destruct (Nat.eq_dec a p); [congruence|].
    destruct (in_dec Nat.eq_dec p l); reflexivity.
Qed.

Lemma dispatched_rejects (l : list PromiseId) (e : any) :
  dispatched (map (fun q => Reject q e) l) = [].
Proof. induction l; simpl; auto. Qed.

(** ** Each transition keeps the invariant *)

Section Preservation.

Variables (q a : list PromiseId) (act : Z) (t : list Effect) (n : PromiseId).

Lemma Inv5_push :
  Inv5 q a act t n -> Inv5 (q ++ [n]) a act t (S n).
Proof.
  intros [Hs Hb Hq Hnd Ha Hact Hset].
  constructor; auto.
  - rewrite app_assoc. apply increasing_app. repeat split; auto.
    + apply increasing_single.
    + intros x y Hx [<-|[]]. now apply Hb.
  - intros p Hp. rewrite app_assoc in Hp. apply in_app_or in Hp.
    destruct Hp as [Hp|[<-|[]]]; [apply Hb in Hp|]; lia.
  - intros p. rewrite in_app_iff, Hq. simpl. split.
    + intros [(H1 & H2 & H3)|[<-|[]]].
      * repeat split; auto.
      * repeat split; auto.
        -- intros Hin. assert (n < n) by (apply Hb, in_or_app; now left). lia.
        -- destruct (settlement t n) eqn:E; auto.
           assert (n < n) by (apply Hset; congruence). lia.
    + intros (H1 & H2 & H3).
      destruct (Nat.eq_dec n p) as [->|Hne]; [now right; left|].
      left. repeat split; auto. lia.
  - intros p Hp. apply Hset in Hp. lia.
Qed.

Lemma Inv5_clear :
  Inv5 q a act t n ->
  Inv5 [] a act (t ++ map (fun p => Reject p cancelled) q) n.
Proof.
  intros [Hs Hb Hq Hnd Ha Hact Hset].
  assert (Hd : dispatched (t ++ map (fun p => Reject p cancelled) q) = dispatched t)
    by (rewrite dispatched_app, dispatched_rejects; apply app_nil_r).
  constructor; auto; rewrite ?Hd, ?app_nil_r.
  - apply increasing_app in Hs. tauto.
  - intros p Hp. apply Hb, in_or_app. now left.
  - intros p. rewrite settlement_app, settlement_rejects. simpl. split; [tauto|].
    intros (H1 & H2 & H3).
    destruct (settlement t p) eqn:E; [discriminate|].
    destruct (in_dec Nat.eq_dec p q) as [Hin|Hin]; [discriminate|].
    apply Hin, Hq. auto.
  - intros p. rewrite settlement_app, settlement_rejects, Ha. split.
    + intros [H1 H2]. split; auto. rewrite H2.
      destruct (in_dec Nat.eq_dec p q) as [Hin|Hin]; auto.
      apply Hq in Hin. tauto.
    + intros [H1 H2]. split; auto.
      destruct (settlement t p); [discriminate | reflexivity].
  - intros p. rewrite settlement_app, settlement_rejects.
    destruct (settlement t p) eqn:E.
    + intros _. apply Hset. congruence.
    + destruct (in_dec Nat.eq_dec p q) as [Hin|Hin]; [|congruence].
      intros _. apply Hb, in_or_app. now right.
Qed.

End Preservation.

Lemma Inv5_launch_awaits (p : PromiseId) (q a : list PromiseId) (act : Z)
      (t : list Effect) (n : PromiseId) (s : string) :
  Inv5 (p :: q) a act t n ->
  Inv5 q (a ++ [p]) (act + 1) (t ++ [ConsoleLog s; Invoke p]) n.
Proof.
  intros [Hs Hb Hq Hnd Ha Hact Hset].
  assert (Hd : dispatched (t ++ [ConsoleLog s; Invoke p]) = dispatched t ++ [p])
    by (now rewrite dispatched_app).
  assert (Hst : forall x, settlement (t ++ [ConsoleLog s; Invoke p]) x = settlement t x)
    by (intros x; rewrite settlement_app; simpl; now destruct (settlement t x)).
  assert (Hp : p < n /\ ~ In p (dispatched t) /\ settlement t p = None)
    by (apply Hq; now left).
  assert (Hpq : ~ In p q).
  { apply increasing_app in Hs. destruct Hs as (_ & Hs & _).
    apply increasing_NoDup in Hs. now inversion Hs. }
  constructor; rewrite ?Hd, <- ?app_assoc; simpl; auto.
  - intros x. rewrite Hst, in_app_iff. simpl. split.
    + intros Hx. assert (Hx' : In x (p :: q)) by now right.
      apply Hq in Hx'. destruct Hx' as (H1 & H2 & H3).
      repeat split; auto. intros [H|[->|[]]]; auto.
    + intros (H1 & H2 & H3).
      assert (Hx : In x (p :: q)) by (apply Hq; repeat split; auto).
      destruct Hx as [->|Hx]; auto. exfalso. apply H2. right. now left.
  - apply NoDup_snoc; auto. rewrite Ha. tauto.
  - intros x. rewrite Hst, !in_app_iff, Ha. simpl. split.
    + intros [[H1 H2]|[<-|[]]]; split; auto. tauto.
    + intros [[H1|[<-|[]]] H2]; auto.
  - rewrite length_app. simpl. lia.
  - intros x. rewrite Hst. apply Hset.
Qed.

Lemma Inv5_launch_throws (p : PromiseId) (q a : list PromiseId) (act : Z)
      (t : list Effect) (n : PromiseId) (s s' : string) (e : any) :
  Inv5 (p :: q) a act t n ->
  Inv5 q a (act + 1 - 1)
       (t ++ [ConsoleLog s; Invoke p; ConsoleError s' e; Reject p e]) n.
Proof.
  intros [Hs Hb Hq Hnd Ha Hact Hset].
  set (t' := t ++ [ConsoleLog s; Invoke p; ConsoleError s' e; Reject p e]).
  assert (Hd : dispatched t' = dispatched t ++ [p])
    by (unfold t'; now rewrite dispatched_app).
  assert (Hp : p < n /\ ~ In p (dispatched t) /\ settlement t p = None)
    by (apply Hq; now left).
  assert (Hst : forall x, settlement t' x =
                          if (p =? x)%nat then Some (Rejects e) else settlement t x).
  { intros x. unfold t'. rewrite settlement_app. simpl.
    destruct (Nat.eqb_spec p x) as [<-|Hne].
    - destruct Hp as (_ & _ & ->). reflexivity.
    - now destruct (settlement t x). }
  assert (Hpq : ~ In p q).
  { apply increasing_app in Hs. destruct Hs as (_ & Hs & _).
    apply increasing_NoDup in Hs. now inversion Hs. }
  constructor; rewrite ?Hd, <- ?app_assoc; simpl; auto.
  - intros x. rewrite Hst, in_app_iff. simpl. split.
    + intros Hx. assert (Hx' : In x (p :: q)) by now right.
      apply Hq in Hx'. destruct Hx' as (H1 & H2 & H3).
      destruct (Nat.eqb_spec p x) as [<-|Hne]; [contradiction|].
      repeat split; auto. intros [H|[->|[]]]; auto.
    + intros (H1 & H2 & H3).
      destruct (Nat.eqb_spec p x) as [<-|Hne]; [discriminate|].
      assert (Hx : In x (p :: q)) by (apply Hq; repeat split; auto).
      destruct Hx as [->|Hx]; auto. congruence.
  - intros x. rewrite Hst, in_app_iff, Ha. simpl.
    destruct (Nat.eqb_spec p x) as [<-|Hne].
    + split; [tauto | intros [_ H]; discriminate].
    + split; [tauto|]. intros [[H1|[H|[]]] H2]; auto. congruence.
  - lia.
  - intros x. rewrite Hst. destruct (Nat.eqb_spec p x) as [<-|Hne]; auto.
    intros _. tauto.
Qed.

(** The effects of [executeRequest] once the awaited promise of [p] has
    settled with [o]. *)
Lemma Inv5_settle (p : PromiseId) (q a1 a2 : list PromiseId) (act : Z)
      (t tl : list Effect) (n : PromiseId) (o : Outcome) :
  Inv5 q (a1 ++ p :: a2) act t n ->
  dispatched tl = [] ->
  (forall x, settlement tl x = if (p =? x)%nat then Some o else None) ->
  Inv5 q (a1 ++ a2) (act - 1) (t ++ tl) n.
Proof.
  intros [Hs Hb Hq Hnd Ha Hact Hset] Hdl Hsl.
  assert (Hd : dispatched (t ++ tl) = dispatched t)
    by (rewrite dispatched_app, Hdl; apply app_nil_r).
  assert (Hp : In p (dispatched t) /\ settlement t p = None)
    by (apply Ha, in_or_app; right; now left).
  assert (Hst : forall x, settlement (t ++ tl) x =
                          if (p =? x)%nat then Some o else settlement t x).
  { intros x. rewrite settlement_app, Hsl.
    destruct (Nat.eqb_spec p x) as [<-|Hne].
    - destruct Hp as [_ ->]. reflexivity.
    - now destruct (settlement t x). }
  assert (Hpa : ~ In p (a1 ++ a2)) by (now apply NoDup_remove_2).
  constructor; rewrite ?Hd; auto.
  - intros x. rewrite Hst, Hq.
    destruct (Nat.eqb_spec p x) as [<-|Hne]; [|tauto].
    split; [tauto | intros (_ & _ & H); discriminate].
  - now apply NoDup_remove_1 in Hnd.
  - intros x. rewrite Hst.
    destruct (Nat.eqb_spec p x) as [<-|Hne].
    + split; [tauto | intros [_ H]; discriminate].
    + rewrite <- Ha, !in_app_iff. simpl. intuition congruence.
  - rewrite length_app in *. simpl in Hact. lia.
  - intros x. rewrite Hst. destruct (Nat.eqb_spec p x) as [<-|Hne]; auto.
    intros _. apply Hb, in_or_app. tauto.
Qed.

(** ** What one launch does to the state *)

Lemma executeRequest_self (item : RequestQueue) (w : World) :
  queue (self (executeRequest item w)) = queue (self w) /\
  isProcessing (self (executeRequest item w)) = isProcessing (self w) /\
  requestDelay (self (executeRequest item w)) = requestDelay (self w) /\
  maxConcurrent (self (executeRequest item w)) = maxConcurrent (self w) /\
  nextPromise (executeRequest item w) = nextPromise w.
Proof. unfold executeRequest. destruct (request item); simpl; auto. Qed.

Lemma launch_self (item : RequestQueue) (rest : list RequestQueue) (w : World) :
  queue (self (shift_and_launch item rest w)) = rest /\
  isProcessing (self (shift_and_launch item rest w)) = isProcessing (self w) /\
  requestDelay (self (shift_and_launch item rest w)) = requestDelay (self w) /\
  maxConcurrent (self (shift_and_launch item rest w)) = maxConcurrent (self w) /\
  nextPromise (shift_and_launch item rest w) = nextPromise w.
Proof. unfold shift_and_launch, executeRequest. destruct (request item); simpl; auto. Qed.

Lemma launch_trace (item : RequestQueue) (rest : list RequestQueue) (w : World) :
  trace (shift_and_launch item rest w) =
  trace w ++
  ConsoleLog (String.append "[RateLimiter] Executing request: " (id item))
  :: Invoke (promise item)
  :: match request item with
     | Throws e =>
         [ConsoleError (String.append "[RateLimiter] Request failed: " (id item)) e;
          Reject (promise item) e]
     | Awaits => []
     end.
Proof.
  unfold shift_and_launch, executeRequest.
  destruct (request item); simpl; now rewrite <- ?app_assoc.
Qed.

Lemma launch_dispatched (item : RequestQueue) (rest : list RequestQueue) (w : World) :
  dispatched (trace (shift_and_launch item rest w)) =
  dispatched (trace w) ++ [promise item].
Proof.
  rewrite launch_trace, dispatched_app. destruct (request item); reflexivity.
Qed.

Lemma launch_active (item : RequestQueue) (rest : list RequestQueue) (w : World) :
  activeRequests (self (shift_and_launch item rest w)) =
  match request item with
  | Throws _ => (activeRequests (self w) + 1 - 1)%Z
  | Awaits => (activeRequests (self w) + 1)%Z
  end.
Proof. unfold shift_and_launch, executeRequest. destruct (request item); reflexivity. Qed.

Lemma launch_awaiting (item : RequestQueue) (rest : list RequestQueue) (w : World) :
  awaiting (shift_and_launch item rest w) =
  match request item with
  | Throws _ => awaiting w
  | Awaits => awaiting w ++ [item]
  end.
Proof. unfold shift_and_launch, executeRequest. destruct (request item); reflexivity. Qed.

Lemma launch_timers (item : RequestQueue) (rest : list RequestQueue) (w : World) :
  timers (shift_and_launch item rest w) =
  match request item with
  | Throws _ => timers w ++ [mkTimer (requestDelay (self w) / 2)%Q CallProcessQueue]
  | Awaits => timers w
  end.
Proof. unfold shift_and_launch, executeRequest. destruct (request item); reflexivity. Qed.

Lemma Inv_launch (item : RequestQueue) (rest : list RequestQueue) (w : World) :
  Inv w -> queue (self w) = item :: rest -> Inv (shift_and_launch item rest w).
Proof.
  unfold Inv. intros H Hq. rewrite Hq in H. simpl in H.
  destruct (launch_self item rest w) as (-> & _ & _ & _ & ->).
  rewrite launch_trace, launch_active, launch_awaiting.
  destruct (request item).
  - now apply Inv5_launch_throws.
  - rewrite map_app. simpl. now apply Inv5_launch_awaits.
Qed.

(** ** The dispatch loop *)

Lemma while_loop_enough (fuel : nat) (w : World) :
  length (queue (self w)) < fuel -> while_loop fuel w = Some (loop_result w).
Proof.
  unfold loop_result. destruct fuel as [|fuel]; [lia|]. simpl.
  destruct (queue (self w)) as [|item rest] eqn:Hq; auto.
  destruct (Qlt_bool _ _); auto.
  destruct (launch_self item rest w) as (Hq' & _ & Hd & _).
  rewrite Hq', Hd. destruct rest as [|x rest]; auto.
  simpl. intros Hlen. destruct fuel as [|fuel]; [lia|].
  simpl. now rewrite Hq'.
Qed.

Lemma while_loop_total (w : World) :
  while_loop (loop_fuel w) w = Some (loop_result w).
Proof. apply while_loop_enough. unfold loop_fuel. lia. Qed.

Lemma while_loop_fuel_irrelevant (fuel : nat) (w w' : World) :
  while_loop fuel w = Some w' -> w' = loop_result w.
Proof.
  unfold loop_result. destruct fuel as [|fuel]; [discriminate|]. simpl.
  destruct (queue (self w)) as [|item rest] eqn:Hq; [congruence|].
  destruct (Qlt_bool _ _); [|congruence].
  destruct (launch_self item rest w) as (Hq' & _ & Hd & _).
  rewrite Hq', Hd. destruct rest as [|x rest]; [|congruence].
  destruct fuel as [|fuel]; [discriminate|]. simpl. rewrite Hq'. congruence.
Qed.

Lemma processQueue_total (w : World) :
  processQueue w =
  Some (if isProcessing (self w)
           || (length (queue (self w)) =? 0)%nat
           || Qle_bool (maxConcurrent (self w)) (inject_Z (activeRequests (self w)))
        then w
        else loop_result (on_self (set_isProcessing true) w)).
Proof.
  unfold processQueue. destruct (_ || _); auto. apply while_loop_total.
Qed.

Lemma Inv_loop_result (w : World) : Inv w -> Inv (loop_result w).
Proof.
  intros H. unfold loop_result.
  destruct (queue (self w)) as [|item rest] eqn:Hq; auto.
  destruct (Qlt_bool _ _); auto.
  pose proof (Inv_launch item rest w H Hq) as H'.
  destruct rest; exact H'.
Qed.

Lemma Inv_processQueue (w w' : World) :
  Inv w -> processQueue w = Some w' -> Inv w'.
Proof.
  rewrite processQueue_total. intros H [= <-].
  destruct (_ || _); auto. now apply Inv_loop_result.
Qed.

Lemma clearQueue_trace (w : World) :
  trace (clearQueue w) =
  trace w ++ map (fun p => Reject p cancelled) (map promise (queue (self w))).
Proof.
  unfold clearQueue. simpl.
  generalize (queue (self w)) as l. revert w.
  intros w l. revert w. induction l as [|x l IH]; intros w; simpl.
  - now rewrite app_nil_r.
  - rewrite IH. simpl. now rewrite <- app_assoc.
Qed.

Lemma clearQueue_frame (w : World) :
  self (clearQueue w) = set_queue [] (self w) /\
  awaiting (clearQueue w) = awaiting w /\
  timers (clearQueue w) = timers w /\
  nextPromise (clearQueue w) = nextPromise w.
Proof.
  unfold clearQueue. simpl.
  generalize (queue (self w)) as l. intros l. revert w.
  induction l as [|x l IH]; intros w; simpl; auto.
  destruct (IH (emit (Reject (promise x) cancelled) w)) as (-> & -> & -> & ->).
  auto.
Qed.

Lemma Inv_clearQueue (w : World) : Inv w -> Inv (clearQueue w).
Proof.
  unfold Inv. intros H.
  destruct (clearQueue_frame w) as (-> & -> & _ & ->).
  rewrite clearQueue_trace. simpl. now apply Inv5_clear.
Qed.

Lemma take_awaiting_split (p : PromiseId) (l : list RequestQueue)
      (item : RequestQueue) (rest : list RequestQueue) :
  take_awaiting p l = Some (item, rest) ->
  promise item = p /\
  exists l1 l2, l = l1 ++ item :: l2 /\ rest = l1 ++ l2.
Proof.
  revert rest. induction l as [|x l IH]; simpl; intros rest; [discriminate|].
  destruct (Nat.eqb_spec (promise x) p) as [Hp|Hp].
  - intros [= <- <-]. split; auto. now exists [], l.
  - destruct (take_awaiting p l) as [[found rest']|]; [|discriminate].
    intros [= <- <-]. destruct (IH rest' eq_refl) as (H1 & l1 & l2 & -> & ->).
    split; auto. now exists (x :: l1), l2.
Qed.

Lemma take_awaiting_found (l : list RequestQueue) (item : RequestQueue) :
  NoDup (map promise l) -> In item l ->
  exists rest, take_awaiting (promise item) l = Some (item, rest).
Proof.
  induction l as [|x l IH]; simpl; intros Hnd Hin; [contradiction|].
  inversion Hnd as [|? ? Hx Hl]; subst.
  destruct Hin as [->|Hin].
  - rewrite Nat.eqb_refl. eauto.
  - destruct (Nat.eqb_spec (promise x) (promise item)) as [Hp|Hp].
    + exfalso. apply Hx. rewrite Hp. now apply in_map.
    + destruct (IH Hl Hin) as [rest ->]. eauto.
Qed.

Lemma resume_trace (item : RequestQueue) (o : Outcome) (w : World) :
  trace (executeRequest_resume item o w) =
  trace w ++
  match o with
  | Fulfils v => [Resolve (promise item) v]
  | Rejects e =>
      [ConsoleError (String.append "[RateLimiter] Request failed: " (id item)) e;
       Reject (promise item) e]
  end.
Proof. destruct o; simpl; now rewrite <- ?app_assoc. Qed.

Lemma resume_dispatched (item : RequestQueue) (o : Outcome) (w : World) :
  dispatched (trace (executeRequest_resume item o w)) = dispatched (trace w).
Proof.
  rewrite resume_trace, dispatched_app. destruct o; simpl; apply app_nil_r.
Qed.

Lemma resume_frame (item : RequestQueue) (o : Outcome) (w : World) :
  self (executeRequest_resume item o w) =
    set_activeRequests (activeRequests (self w) - 1)%Z (self w) /\
  awaiting (executeRequest_resume item o w) = awaiting w /\
  timers (executeRequest_resume item o w) =
    timers w ++ [mkTimer (requestDelay (self w) / 2)%Q CallProcessQueue] /\
  nextPromise (executeRequest_resume item o w) = nextPromise w.
Proof. destruct o; simpl; auto. Qed.

Lemma Inv_settle (p : PromiseId) (o : Outcome) (w : World)
      (item : RequestQueue) (rest : list RequestQueue) :
  Inv w -> take_awaiting p (awaiting w) = Some (item, rest) ->
  Inv (executeRequest_resume item o (set_awaiting rest w)).
Proof.
  unfold Inv. intros H Ht.
  apply take_awaiting_split in Ht. destruct Ht as (Hp & l1 & l2 & Hl & ->).
  destruct (resume_frame item o (set_awaiting (l1 ++ l2) w)) as (-> & -> & _ & ->).
  rewrite resume_trace. simpl. rewrite Hl, map_app in H. simpl in H.
  rewrite map_app. apply Inv5_settle with (p := promise item) (o := o); auto.
  - now destruct o.
  - intros x. destruct o; simpl; destruct (_ =? _); reflexivity.
Qed.

Lemma Inv_step (e : Event) (w w' : World) :
  Inv w -> step e w = Some w' -> Inv w'.
Proof.
  intros H. destruct e as [i r| | |s|p o|k]; simpl.
  - unfold addRequest. apply Inv_processQueue.
    unfold Inv in *. simpl. rewrite map_app. simpl. now apply Inv5_push.
  - now intros [= <-].
  - intros [= <-]. now apply Inv_clearQueue.
  - intros [= <-]. unfold Inv in *. simpl.
    unfold updateSettings.
    destruct (settings_requestDelay s), (settings_maxConcurrent s); exact H.
  - destruct (take_awaiting p (awaiting w)) as [[item rest]|] eqn:Ht; [|discriminate].
    intros [= <-]. now apply Inv_settle with (p := p).
  - destruct (nth_error (timers w) k) as [tm|]; [|discriminate].
    destruct (callback tm).
    + unfold resume_loop. rewrite while_loop_total. intros [= <-].
      now apply Inv_loop_result.
    + now apply Inv_processQueue.
Qed.

Lemma Inv_init : Inv init.
Proof.
  unfold Inv. simpl. constructor; simpl; try tauto; try constructor; try lia.
Qed.

Lemma Inv_run (es : list Event) (w w' : World) :
  Inv w -> run es w = Some w' -> Inv w'.
Proof.
  revert w. induction es as [|e es IH]; simpl; intros w H.
  - now intros [= <-].
  - destruct (step e w) as [w1|] eqn:Hs; [|discriminate].
    apply IH. now apply Inv_step with (e := e) (w := w).
Qed.

Lemma Inv_reachable (w : World) : reachable w -> Inv w.
Proof. intros [es H]. apply Inv_run with (es := es) (w := init); [apply Inv_init | exact H]. Qed.

(** ** The concurrency ceiling *)

Lemma loop_result_ceiling (w : World) :
  ~ (maxConcurrent (self w) + 1 <= inject_Z (activeRequests (self w)))%Q ->
  ~ (maxConcurrent (self (loop_result w)) + 1
     <= inject_Z (activeRequests (self (loop_result w))))%Q.
Proof.
  unfold loop_result. intros H.
  destruct (queue (self w)) as [|item rest]; auto.
  destruct (Qlt_bool_spec (inject_Z (activeRequests (self w))) (maxConcurrent (self w)))
    as [Hlt|Hge]; auto.
  assert (Hw : ~ (maxConcurrent (self (shift_and_launch item rest w)) + 1
                  <= inject_Z (activeRequests (self (shift_and_launch item rest w))))%Q).
  { destruct (launch_self item rest w) as (_ & _ & _ & -> & _).
    rewrite launch_active. destruct (request item).
    - replace (activeRequests (self w) + 1 - 1)%Z with (activeRequests (self w)) by lia.
      exact H.
    - rewrite inject_Z_succ. lra. }
  destruct rest; exact Hw.
Qed.

Lemma processQueue_ceiling (w w' : World) :
  ~ (maxConcurrent (self w) + 1 <= inject_Z (activeRequests (self w)))%Q ->
  processQueue w = Some w' ->
  ~ (maxConcurrent (self w') + 1 <= inject_Z (activeRequests (self w')))%Q.
Proof.
  rewrite processQueue_total. intros H [= <-].
  destruct (_ || _); auto. now apply loop_result_ceiling.
Qed.

Lemma step_ceiling (e : Event) (w w' : World) :
  ~ (maxConcurrent (self w) + 1 <= inject_Z (activeRequests (self w)))%Q ->
  ceiling_respected [e] w ->
  step e w = Some w' ->
  ~ (maxConcurrent (self w') + 1 <= inject_Z (activeRequests (self w')))%Q.
Proof.
  intros H [Hc _]. destruct e as [i r| | |s|p o|k]; simpl.
  - unfold addRequest. now apply processQueue_ceiling.
  - now intros [= <-].
  - intros [= <-]. now destruct (clearQueue_frame w) as (-> & _).
  - intros [= <-]. simpl. unfold updateSettings.
    destruct (settings_requestDelay s), (settings_maxConcurrent s); simpl; auto; lra.
  - destruct (take_awaiting p (awaiting w)) as [[item rest]|]; [|discriminate].
    intros [= <-].
    destruct (resume_frame item o (set_awaiting rest w)) as (-> & _).
    simpl. pose proof (inject_Z_pred_le (activeRequests (self w))). lra.
  - destruct (nth_error (timers w) k) as [tm|]; [|discriminate].
    destruct (callback tm).
    + unfold resume_loop. rewrite while_loop_total. intros [= <-].
      now apply loop_result_ceiling.
    + now apply processQueue_ceiling.
Qed.

Lemma run_ceiling (es : list Event) (w w' : World) :
  ~ (maxConcurrent (self w) + 1 <= inject_Z (activeRequests (self w)))%Q ->
  ceiling_respected es w ->
  run es w = Some w' ->
  ~ (maxConcurrent (self w') + 1 <= inject_Z (activeRequests (self w')))%Q.
Proof.
  revert w. induction es as [|e es IH]; intros w H Hc; simpl.
  - now intros [= <-].
  - destruct (step e w) as [w1|] eqn:Hs; [|discriminate].
    destruct Hc as [Hc1 Hc2]. simpl in Hc2. rewrite Hs in Hc2.
    apply IH; auto. apply step_ceiling with (e := e) (w := w); auto.
    simpl. rewrite Hs. auto.
Qed.

(** A count that does not reach a whole ceiling plus one does not exceed the
    ceiling. *)
Lemma whole_ceiling (a : Z) (m : Q) :
  whole m -> ~ (m + 1 <= inject_Z a)%Q -> ~ (m < inject_Z a)%Q.
Proof.
  intros [k Hk] H Hlt. apply H. rewrite Hk in *.
  change 1%Q with (inject_Z 1). rewrite <- inject_Z_plus.
  rewrite <- Zlt_Qlt in Hlt. rewrite <- Zle_Qle. lia.
Qed.

(** An operation is pulled from the queue only while there is room for it. *)
Lemma launch_needs_room (e : Event) (w w' : World) :
  step e w = Some w' ->
  dispatched (trace w') <> dispatched (trace w) ->
  (inject_Z (activeRequests (self w)) < maxConcurrent (self w))%Q.
Proof.
  assert (Hloop : forall v, dispatched (trace (loop_result v)) <> dispatched (trace v) ->
                            (inject_Z (activeRequests (self v)) < maxConcurrent (self v))%Q).
  { intros v. unfold loop_result.
    destruct (queue (self v)) as [|item rest]; [simpl; congruence|].
    destruct (Qlt_bool_spec (inject_Z (activeRequests (self v))) (maxConcurrent (self v))); auto.
    simpl. congruence. }
  assert (Hpq : forall v v', processQueue v = Some v' ->
                 dispatched (trace v') <> dispatched (trace v) ->
                 (inject_Z (activeRequests (self v)) < maxConcurrent (self v))%Q).
  { intros v v'. rewrite processQueue_total. intros [= <-].
    destruct (_ || _); [congruence|]. intros H.
    now apply (Hloop (on_self (set_isProcessing true) v)) in H. }
  destruct e as [i r| | |s|p o|k]; simpl.
  - unfold addRequest. intros H1 H2. now apply Hpq in H1.
  - intros [= <-]. congruence.
  - intros [= <-]. rewrite clearQueue_trace, dispatched_app, dispatched_rejects, app_nil_r.
    congruence.
  - intros [= <-]. simpl. congruence.
  - destruct (take_awaiting p (awaiting w)) as [[item rest]|]; [|discriminate].
    intros [= <-]. rewrite resume_dispatched. simpl. congruence.
  - destruct (nth_error (timers w) k) as [tm|]; [|discriminate].
    destruct (callback tm).
    + unfold resume_loop. rewrite while_loop_total. intros [= <-] H.
      now apply (Hloop (set_timers (remove_nth k (timers w)) w)) in H.
    + intros H1 H2. now apply Hpq in H1.
Qed.

(** C1 (as amended).  In every run of submissions, [clearQueue] calls,
    completions, timers and [updateSettings] calls in which no
    [updateSettings] puts [maxConcurrent] below the number of requests then in
    flight, [activeRequests] never reaches [maxConcurrent + 1]; so it never
    exceeds [maxConcurrent] while [maxConcurrent] is a whole number. *)
Theorem active_within_ceiling (es : list Event) (w : World) :
  run es init = Some w ->
  ceiling_respected es init ->
  ~ (maxConcurrent (self w) + 1 <= inject_Z (activeRequests (self w)))%Q /\
  (whole (maxConcurrent (self w)) ->
   ~ (maxConcurrent (self w) < inject_Z (activeRequests (self w)))%Q).
Proof.
  intros Hrun Hc.
  assert (H : ~ (maxConcurrent (self w) + 1 <= inject_Z (activeRequests (self w)))%Q).
  { apply run_ceiling with (es := es) (w := init); [|exact Hc|exact Hrun].
    intros H. apply H. reflexivity. }
  split; [exact H|]. intros Hw. now apply whole_ceiling.
Qed.

Lemma active_within_ceiling_witness :
  exists w, run busy_run init = Some w /\
            ceiling_respected busy_run init /\
            ~ (maxConcurrent (self w) < inject_Z (activeRequests (self w)))%Q.
Proof.
  eexists. split; [vm_compute; reflexivity|].
  assert (Hc : ceiling_respected busy_run init).
  { simpl. repeat split; auto. discriminate. }
  split; [exact Hc|].
  match goal with |- ~ (_ < inject_Z (activeRequests (self ?W)))%Q => set (w0 := W) end.
  apply (active_within_ceiling busy_run w0); [vm_compute; reflexivity | exact Hc|].
  exists 2%Z. reflexivity.
Defined.

(** C1 as stated fails: with two requests in flight, lowering the ceiling to
    one leaves [activeRequests] above [maxConcurrent]. *)
Lemma ceiling_lowered_below_active :
  exists w,
    run [AddRequest "a" Awaits; AddRequest "b" Awaits;
         UpdateSettings (mkSettings None (Some 1%Q))] init = Some w /\
    activeRequests (self w) = 2%Z /\ maxConcurrent (self w) = 1%Q /\
    (maxConcurrent (self w) < inject_Z (activeRequests (self w)))%Q.
Proof.
  eexists. split; [vm_compute; reflexivity|]. simpl. repeat split.
Qed.

(** A ceiling that is not whole is overshot by less than one: with a ceiling
    of 2.5, set while nothing is in flight, the third request is launched at
    2 < 2.5 and leaves three requests in flight. *)
Lemma fractional_ceiling_overshot :
  exists w,
    run [UpdateSettings (mkSettings None (Some (5 # 2)%Q));
         AddRequest "a" Awaits; AddRequest "b" Awaits;
         AddRequest "c" Awaits] init = Some w /\
    ceiling_respected
      [UpdateSettings (mkSettings None (Some (5 # 2)%Q));
       AddRequest "a" Awaits; AddRequest "b" Awaits;
       AddRequest "c" Awaits] init /\
    activeRequests (self w) = 3%Z /\ maxConcurrent (self w) = (5 # 2)%Q /\
    (maxConcurrent (self w) < inject_Z (activeRequests (self w)))%Q.
Proof.
  eexists. split; [vm_compute; reflexivity|].
  split; [simpl; repeat split; auto; discriminate|].
  simpl. repeat split.
Qed.

(** ** First in, first out *)

Section Fifo.

Variables a b : PromiseId.
Hypothesis a_before_b : a < b.

Lemma fifo_launch (item : RequestQueue) (rest : list RequestQueue) (w : World) :
  Inv w -> queue (self w) = item :: rest ->
  fifo_state a b w -> fifo_state a b (shift_and_launch item rest w).
Proof.
  intros HI Hq. unfold fifo_state.
  destruct (launch_self item rest w) as (-> & _ & _ & _ & ->).
  rewrite launch_dispatched, Hq. simpl.
  destruct HI as [Hs _ Hqu _ _ _ _]. rewrite Hq in Hs, Hqu. simpl in Hs, Hqu.
  apply increasing_app in Hs. destruct Hs as (_ & Hs & _).
  apply StronglySorted_inv in Hs. destruct Hs as [_ Hf].
  rewrite Forall_forall in Hf.
  rewrite !in_app_iff. simpl.
  intros [H|[[[Ha|Ha] [Hb|Hb]]|(H1 & H2 & H3)]].
  - auto.
  - lia.
  - left. right. now left.
  - apply Hf in Ha. lia.
  - auto.
  - right. right. repeat split; auto.
    intros [H|[H|[]]]; auto.
Qed.

Lemma fifo_loop_result (w : World) :
  Inv w -> fifo_state a b w -> fifo_state a b (loop_result w).
Proof.
  intros HI H. unfold loop_result.
  destruct (queue (self w)) as [|item rest] eqn:Hq; auto.
  destruct (Qlt_bool _ _); auto.
  pose proof (fifo_launch item rest w HI Hq H) as H'.
  destruct rest; exact H'.
Qed.

Lemma fifo_processQueue (w w' : World) :
  Inv w -> fifo_state a b w -> processQueue w = Some w' -> fifo_state a b w'.
Proof.
  rewrite processQueue_total. intros HI H [= <-].
  destruct (_ || _); auto. now apply fifo_loop_result.
Qed.

Lemma fifo_step (e : Event) (w w' : World) :
  Inv w -> fifo_state a b w -> step e w = Some w' -> fifo_state a b w'.
Proof.
  intros HI H. destruct e as [i r| | |s|p o|k]; simpl.
  - unfold addRequest. apply fifo_processQueue.
    + unfold Inv in *. simpl. rewrite map_app. simpl. now apply Inv5_push.
    + unfold fifo_state in *. simpl. rewrite map_app, !in_app_iff. simpl.
      destruct H as [H|[[H1 H2]|(H1 & H2 & H3)]]; auto.
      right. right. repeat split; auto. intros [Hb|[Hb|[]]]; auto. lia.
  - now intros [= <-].
  - intros [= <-]. unfold fifo_state in *.
    destruct (clearQueue_frame w) as (-> & _ & _ & ->).
    rewrite clearQueue_trace, dispatched_app, dispatched_rejects, app_nil_r. simpl.
    destruct H as [H|[[H1 H2]|(H1 & H2 & H3)]]; auto.
    right. right. destruct HI as [_ Hb Hqu _ _ _ _].
    apply Hqu in H2. tauto.
  - intros [= <-]. unfold fifo_state in *. simpl. unfold updateSettings.
    destruct (settings_requestDelay s), (settings_maxConcurrent s); exact H.
  - destruct (take_awaiting p (awaiting w)) as [[item rest]|]; [|discriminate].
    intros [= <-]. unfold fifo_state in *.
    destruct (resume_frame item o (set_awaiting rest w)) as (-> & _ & _ & ->).
    rewrite resume_dispatched. exact H.
  - destruct (nth_error (timers w) k) as [tm|]; [|discriminate].
    destruct (callback tm).
    + unfold resume_loop. rewrite while_loop_total. intros [= <-].
      now apply (fifo_loop_result (set_timers (remove_nth k (timers w)) w)).
    + now apply fifo_processQueue.
Qed.

Lemma fifo_run (es : list Event) (w w' : World) :
  Inv w -> fifo_state a b w -> run es w = Some w' -> fifo_state a b w'.
Proof.
  revert w. induction es as [|e es IH]; simpl; intros w HI H.
  - now intros [= <-].
  - destruct (step e w) as [w1|] eqn:Hs; [|discriminate].
    apply IH.
    + now apply Inv_step with (e := e) (w := w).
    + now apply fifo_step with (e := e) (w := w).
Qed.

End Fifo.

(** The queue keeps submission order: promise numbers, handed out in the
    order of the calls of [addRequest], increase along it. *)
Lemma queue_in_submission_order (w : World) (l1 l2 l3 : list RequestQueue)
      (x y : RequestQueue) :
  reachable w -> queue (self w) = l1 ++ x :: l2 ++ y :: l3 ->
  promise x < promise y.
Proof.
  intros Hr Hq. apply Inv_reachable in Hr. destruct Hr as [Hs _ _ _ _ _ _].
  rewrite Hq in Hs. apply increasing_app in Hs. destruct Hs as (_ & Hs & _).
  rewrite map_app in Hs. simpl in Hs.
  apply increasing_app in Hs. destruct Hs as (_ & Hs & _).
  apply StronglySorted_inv in Hs. destruct Hs as [_ Hf].
  rewrite Forall_forall in Hf. apply Hf.
  rewrite map_app. apply in_or_app. right. now left.
Qed.

(** C2.  If A was submitted before B (A holds the smaller promise number) and
    both are pending in some reachable state, then in every continuation in
    which B's operation is launched, A's operation was launched before it. *)
Theorem fifo_dispatch (w w' : World) (es : list Event) (x y : RequestQueue) :
  reachable w ->
  In x (queue (self w)) -> In y (queue (self w)) ->
  promise x < promise y ->
  run es w = Some w' ->
  In (promise y) (dispatched (trace w')) ->
  exists d1 d2 d3,
    dispatched (trace w') = d1 ++ promise x :: d2 ++ promise y :: d3.
Proof.
  intros Hr Hx Hy Hlt Hrun Hin.
  pose proof (Inv_reachable w Hr) as HI.
  assert (HI' : Inv w') by (now apply Inv_run with (es := es) (w := w)).
  assert (Hf : fifo_state (promise x) (promise y) w').
  { apply fifo_run with (es := es) (w := w); auto.
    right. left. split; now apply in_map. }
  destruct HI' as [Hs _ Hqu _ _ _ _].
  apply increasing_app in Hs. destruct Hs as (Hs & _ & _).
  apply increasing_before; auto.
  destruct Hf as [H|[[_ H]|(_ & H & _)]]; auto.
  - apply Hqu in H. tauto.
  - contradiction.
Qed.

Lemma fifo_dispatch_witness :
  exists w w',
    run [AddRequest "a" Awaits; AddRequest "b" Awaits; AddRequest "c" Awaits;
         AddRequest "d" Awaits; AddRequest "e" Awaits] init = Some w /\
    run [Settle 0 (Fulfils (Num 1)); Expire 0; Expire 0;
         Settle 1 (Rejects (Error "gone")); Expire 0] w = Some w' /\
    exists d1 d2 d3, dispatched (trace w') = d1 ++ 3 :: d2 ++ 4 :: d3.
Proof.
  eexists. eexists. split; [vm_compute; reflexivity|].
  match goal with |- run _ ?W = _ /\ _ => set (w0 := W) end.
  split; [vm_compute; reflexivity|].
  eapply (fifo_dispatch w0) with
    (es := [Settle 0 (Fulfils (Num 1)); Expire 0; Expire 0;
            Settle 1 (Rejects (Error "gone")); Expire 0])
    (x := mkItem "d" Awaits 3) (y := mkItem "e" Awaits 4).
  - exists [AddRequest "a" Awaits; AddRequest "b" Awaits; AddRequest "c" Awaits;
            AddRequest "d" Awaits; AddRequest "e" Awaits].
    vm_compute. reflexivity.
  - simpl. auto.
  - simpl. auto.
  - simpl. lia.
  - vm_compute. reflexivity.
  - simpl. auto 10.
Defined.

(** ** Settling *)

Lemma settle_step (w : World) (item : RequestQueue) (o : Outcome) :
  Inv w -> In item (awaiting w) ->
  exists rest,
    take_awaiting (promise item) (awaiting w) = Some (item, rest) /\
    step (Settle (promise item) o) w =
      Some (executeRequest_resume item o (set_awaiting rest w)).
Proof.
  intros HI Hin.
  destruct (take_awaiting_found (awaiting w) item) as [rest Hr]; auto.
  - now destruct HI.
  - exists rest. split; auto. simpl. now rewrite Hr.
Qed.

Lemma settle_settlement (w : World) (item : RequestQueue) (o : Outcome)
      (rest : list RequestQueue) (p : PromiseId) :
  settlement (trace (executeRequest_resume item o (set_awaiting rest w))) p =
  match settlement (trace w) p with
  | Some o' => Some o'
  | None => if (promise item =? p)%nat then Some o else None
  end.
Proof.
  rewrite resume_trace, settlement_app. simpl.
  destruct (settlement (trace w) p); auto.
  destruct o; simpl; destruct (_ =? _); reflexivity.
Qed.

(** The three facts about a completion that C3 and C4 share. *)
Lemma outcome_forwarded_core (w : World) (item : RequestQueue) (o : Outcome) :
  Inv w -> In item (awaiting w) ->
  exists w',
    step (Settle (promise item) o) w = Some w' /\
    settlement (trace w) (promise item) = None /\
    settlement (trace w') (promise item) = Some o.
Proof.
  intros HI Hin.
  destruct (settle_step w item o HI Hin) as (rest & Ht & Hs).
  eexists. split; [exact Hs|].
  assert (Hnone : settlement (trace w) (promise item) = None).
  { destruct HI as [_ _ _ _ Ha _ _]. apply Ha. now apply in_map. }
  split; auto.
  rewrite settle_settlement, Hnone, Nat.eqb_refl. reflexivity.
Qed.

(** C4.  When the operation of an in-flight request settles, the promise
    [addRequest] returned for it takes exactly that outcome (the value on
    fulfilment, the error on rejection); no other promise changes state, the
    queue, the dispatch loop (its flag and the timer it is suspended on) and
    the other in-flight requests are left as they were, and nothing is
    launched or cancelled by the completion itself. *)
Theorem outcome_forwarded (w : World) (item : RequestQueue) (o : Outcome) :
  reachable w -> In item (awaiting w) ->
  exists w',
    step (Settle (promise item) o) w = Some w' /\
    settlement (trace w) (promise item) = None /\
    settlement (trace w') (promise item) = Some o /\
    (forall p, p <> promise item ->
               settlement (trace w') p = settlement (trace w) p) /\
    queue (self w') = queue (self w) /\
    isProcessing (self w') = isProcessing (self w) /\
    resume_timers w' = resume_timers w /\
    dispatched (trace w') = dispatched (trace w) /\
    (forall other, In other (awaiting w) -> promise other <> promise item ->
                   In other (awaiting w')).
Proof.
  intros Hr Hin. pose proof (Inv_reachable w Hr) as HI.
  destruct (settle_step w item o HI Hin) as (rest & Ht & Hs).
  eexists. split; [exact Hs|].
  assert (Hnone : settlement (trace w) (promise item) = None).
  { destruct HI as [_ _ _ _ Ha _ _]. apply Ha. now apply in_map. }
  destruct (resume_frame item o (set_awaiting rest w)) as (Hself & Haw & Htm & _).
  repeat split.
  - exact Hnone.
  - rewrite settle_settlement, Hnone, Nat.eqb_refl. reflexivity.
  - intros p Hp. rewrite settle_settlement.
    destruct (settlement (trace w) p); auto.
    destruct (Nat.eqb_spec (promise item) p); congruence.
  - now rewrite Hself.
  - now rewrite Hself.
  - unfold resume_timers. rewrite Htm, filter_app. simpl. apply app_nil_r.
  - rewrite resume_dispatched. reflexivity.
  - intros other Ho Hne. rewrite Haw. simpl.
    apply take_awaiting_split in Ht. destruct Ht as (_ & l1 & l2 & Hl & ->).
    rewrite Hl in Ho. apply in_app_or in Ho. apply in_or_app.
    destruct Ho as [Ho|[Ho|Ho]]; auto. congruence.
Qed.

Lemma outcome_forwarded_witness :
  exists w w',
    run [AddRequest "a" Awaits; AddRequest "b" Awaits] init = Some w /\
    step (Settle 1 (Rejects (Error "404"))) w = Some w' /\
    settlement (trace w') 1 = Some (Rejects (Error "404")) /\
    settlement (trace w') 0 = None.
Proof.
  eexists. eexists. split; [vm_compute; reflexivity|].
  destruct (outcome_forwarded
              {| self := {| queue := []; isProcessing := false;
                            requestDelay := 200%Q; maxConcurrent := 3%Q;
                            activeRequests := 2%Z |};
                 awaiting := [mkItem "a" Awaits 0; mkItem "b" Awaits 1];
                 timers := [];
                 trace := [ConsoleLog "[RateLimiter] Executing request: a"; Invoke 0;
                           ConsoleLog "[RateLimiter] Executing request: b"; Invoke 1];
                 nextPromise := 2 |}
              (mkItem "b" Awaits 1) (Rejects (Error "404")))
    as (w' & Hs & _ & Hset & Hother & _).
  - exists [AddRequest "a" Awaits; AddRequest "b" Awaits]. vm_compute. reflexivity.
  - simpl. auto.
  - vm_compute in Hs. injection Hs as <-.
    split; [vm_compute; reflexivity|]. split; vm_compute; reflexivity.
Defined.

(** An operation that throws when it is called rejects its own caller with
    the error thrown, and the loop pass goes on as after any other launch. *)
Lemma thrown_error_forwarded (w : World) (item : RequestQueue)
      (rest : list RequestQueue) (e : any) :
  reachable w -> queue (self w) = item :: rest -> request item = Throws e ->
  settlement (trace (shift_and_launch item rest w)) (promise item) = Some (Rejects e) /\
  (forall p, p <> promise item ->
     settlement (trace (shift_and_launch item rest w)) p = settlement (trace w) p) /\
  queue (self (shift_and_launch item rest w)) = rest /\
  awaiting (shift_and_launch item rest w) = awaiting w /\
  activeRequests (self (shift_and_launch item rest w)) = activeRequests (self w).
Proof.
  intros Hr Hq He. pose proof (Inv_reachable w Hr) as HI.
  assert (Hnone : settlement (trace w) (promise item) = None).
  { destruct HI as [_ _ Hqu _ _ _ _]. rewrite Hq in Hqu.
    apply Hqu. now left. }
  rewrite launch_trace, launch_awaiting, launch_active, He.
  destruct (launch_self item rest w) as (-> & _).
  repeat split; auto; try lia.
  - rewrite settlement_app, Hnone. simpl. now rewrite Nat.eqb_refl.
  - intros p Hp. rewrite settlement_app. destruct (settlement (trace w) p); auto.
    simpl. destruct (Nat.eqb_spec (promise item) p); congruence.
Qed.

(** ** Cancelling *)

(** C3.  In every reachable state [clearQueue] rejects each queued request
    with the error "Request cancelled" and empties the queue; it leaves the
    in-flight requests, their counter and every other promise alone, and each
    in-flight operation that settles afterwards still hands its own outcome
    to its caller. *)
Theorem clearQueue_cancels_pending (w : World) :
  reachable w ->
  step ClearQueue w = Some (clearQueue w) /\
  (forall item, In item (queue (self w)) ->
     settlement (trace w) (promise item) = None /\
     settlement (trace (clearQueue w)) (promise item)
       = Some (Rejects (Error "Request cancelled"))) /\
  queue (self (clearQueue w)) = [] /\
  queueLength (getStatus (self (clearQueue w))) = 0 /\
  awaiting (clearQueue w) = awaiting w /\
  activeRequests (self (clearQueue w)) = activeRequests (self w) /\
  dispatched (trace (clearQueue w)) = dispatched (trace w) /\
  (forall p, ~ In p (map promise (queue (self w))) ->
     settlement (trace (clearQueue w)) p = settlement (trace w) p) /\
  (forall item o, In item (awaiting w) ->
     settlement (trace (clearQueue w)) (promise item) = None /\
     exists w', step (Settle (promise item) o) (clearQueue w) = Some w' /\
                settlement (trace w') (promise item) = Some o).
Proof.
  intros Hr. pose proof (Inv_reachable w Hr) as HI.
  assert (Hr' : reachable (clearQueue w)).
  { destruct Hr as [es Hes]. exists (es ++ [ClearQueue]).
    clear HI. revert Hes. generalize init.
    induction es as [|e es IH]; simpl; intros v.
    - now intros [= ->].
    - destruct (step e v); [apply IH | discriminate]. }
  destruct (clearQueue_frame w) as (Hself & Haw & _ & _).
  assert (Hset : forall p, settlement (trace (clearQueue w)) p =
            match settlement (trace w) p with
            | Some o => Some o
            | None => if in_dec Nat.eq_dec p (map promise (queue (self w)))
                      then Some (Rejects cancelled) else None
            end).
  { intros p. now rewrite clearQueue_trace, settlement_app, settlement_rejects. }
  split; [reflexivity|]. split; [|split; [|split; [|split; [|split; [|split; [|split]]]]]].
  - intros item Hin.
    assert (Hp : In (promise item) (map promise (queue (self w)))) by now apply in_map.
    assert (Hn : settlement (trace w) (promise item) = None).
    { destruct HI as [_ _ Hqu _ _ _ _]. now apply Hqu. }
    split; auto. rewrite Hset, Hn.
    destruct (in_dec _ _ _); [reflexivity | contradiction].
  - now rewrite Hself.
  - now rewrite Hself.
  - exact Haw.
  - now rewrite Hself.
  - now rewrite clearQueue_trace, dispatched_app, dispatched_rejects, app_nil_r.
  - intros p Hp. rewrite Hset. destruct (settlement (trace w) p); auto.
    destruct (in_dec _ _ _); [contradiction | reflexivity].
  - intros item o Hin. rewrite <- Haw in Hin.
    destruct (outcome_forwarded_core (clearQueue w) item o) as (w' & H1 & H2 & H3); auto.
    + now apply Inv_reachable.
    + split; auto. now exists w'.
Qed.

Lemma clearQueue_cancels_pending_witness :
  exists w,
    run [AddRequest "a" Awaits; AddRequest "b" Awaits; AddRequest "c" Awaits;
         AddRequest "d" Awaits; AddRequest "e" Awaits] init = Some w /\
    settlement (trace (clearQueue w)) 3 = Some (Rejects (Error "Request cancelled")) /\
    settlement (trace (clearQueue w)) 4 = Some (Rejects (Error "Request cancelled")) /\
    queue (self (clearQueue w)) = [] /\
    awaiting (clearQueue w) = awaiting w.
Proof.
  eexists. split; [vm_compute; reflexivity|].
  match goal with |- settlement (trace (clearQueue ?W)) _ = _ /\ _ => set (w0 := W) end.
  destruct (clearQueue_cancels_pending w0) as (_ & Hrej & Hq & _ & Haw & _).
  - exists [AddRequest "a" Awaits; AddRequest "b" Awaits; AddRequest "c" Awaits;
            AddRequest "d" Awaits; AddRequest "e" Awaits].
    vm_compute. reflexivity.
  - split; [apply (Hrej (mkItem "d" Awaits 3)); simpl; auto|].
    split; [apply (Hrej (mkItem "e" Awaits 4)); simpl; auto|].
    split; [exact Hq | exact Haw].
Defined.

(** ** Submitting *)

Lemma addRequest_total (i : string) (r : Operation) (w : World) :
  exists w', addRequest i r w = Some w'.
Proof. unfold addRequest. rewrite processQueue_total. eauto. Qed.

Lemma loop_result_launches (v : World) (h : RequestQueue) (t : list RequestQueue) :
  queue (self v) = h :: t ->
  (inject_Z (activeRequests (self v)) < maxConcurrent (self v))%Q ->
  dispatched (trace (loop_result v)) = dispatched (trace v) ++ [promise h] /\
  queue (self (loop_result v)) = t.
Proof.
  intros Hq Hlt. unfold loop_result. rewrite Hq.
  apply Qlt_bool_true in Hlt. rewrite Hlt.
  destruct (launch_self h t v) as (Hq' & _).
  pose proof (launch_dispatched h t v) as Hd.
  destruct t; simpl; auto.
Qed.

(** C5 (as amended).  [addRequest] calls the submitted operation before it
    returns exactly when the queue was empty, the dispatch loop was not
    running and [activeRequests] was below [maxConcurrent]; in every other
    state the operation is not called during [addRequest] and waits in the
    queue for a later turn of the loop. *)
Theorem addRequest_launches_at_once_iff (w : World) (i : string) (r : Operation) :
  reachable w ->
  exists w',
    addRequest i r w = Some w' /\
    was_invoked (trace w) (nextPromise w) = false /\
    (was_invoked (trace w') (nextPromise w) = true <->
     queue (self w) = [] /\ isProcessing (self w) = false /\
     (inject_Z (activeRequests (self w)) < maxConcurrent (self w))%Q) /\
    (was_invoked (trace w') (nextPromise w) = false ->
     In (mkItem i r (nextPromise w)) (queue (self w'))).
Proof.
  intros Hr. pose proof (Inv_reachable w Hr) as HI.
  destruct HI as [_ Hb _ _ _ _ _].
  assert (Hfresh : ~ In (nextPromise w) (dispatched (trace w))).
  { intros H. assert (nextPromise w < nextPromise w); [|lia].
    apply Hb, in_or_app. now left. }
  set (item := mkItem i r (nextPromise w)).
  set (w2 := on_self (fun l => set_queue (queue l ++ [item]) l)
               (set_nextPromise (S (nextPromise w)) w)).
  assert (Hlast : In item (queue (self w2)))
    by (simpl; apply in_or_app; right; now left).
  unfold addRequest. fold item. fold w2. rewrite processQueue_total.
  eexists. split; [reflexivity|].
  split; [now apply was_invoked_false|].
  change (isProcessing (self w2)) with (isProcessing (self w)).
  change (activeRequests (self w2)) with (activeRequests (self w)).
  change (maxConcurrent (self w2)) with (maxConcurrent (self w)).
  assert (Hlen : (length (queue (self w2)) =? 0) = false).
  { apply Nat.eqb_neq. simpl. rewrite length_app. simpl. lia. }
  rewrite Hlen, orb_false_r.
  destruct (isProcessing (self w)) eqn:Hp; simpl orb; cbv iota.
  { split; auto.
    rewrite was_invoked_dispatched. split; [tauto | intros (_ & H & _); discriminate]. }
  destruct (Qle_bool_spec (maxConcurrent (self w)) (inject_Z (activeRequests (self w)))) as [Hge|Hlt].
  { split; auto. rewrite was_invoked_dispatched. split; [tauto|].
    intros (_ & _ & H). exfalso. revert H. now apply Qle_not_lt. }
  set (w3 := on_self (set_isProcessing true) w2).
  destruct (queue (self w)) as [|h t] eqn:Hq.
  - destruct (loop_result_launches w3 item []) as [Hd Hq']; auto.
    { change (queue (self w) ++ [item] = [item]). now rewrite Hq. }
    rewrite was_invoked_dispatched, was_invoked_false, Hd.
    change (trace w3) with (trace w). rewrite in_app_iff. simpl.
    split; [tauto|]. intros H. exfalso. apply H. auto.
  - destruct (loop_result_launches w3 h (t ++ [item])) as [Hd Hq']; auto.
    { change (queue (self w) ++ [item] = h :: t ++ [item]). now rewrite Hq. }
    assert (Hh : promise h < nextPromise w).
    { apply Hb, in_or_app. right. now left. }
    rewrite was_invoked_dispatched, Hd, Hq'.
    change (trace w3) with (trace w). rewrite in_app_iff. simpl. split.
    + split; [|intros (H & _); discriminate].
      intros [H|[H|[]]]; [contradiction | lia].
    + intros _. apply in_or_app. right. now left.
Qed.

Lemma addRequest_launches_at_once_iff_witness :
  exists w w',
    run [AddRequest "a" Awaits; AddRequest "b" Awaits; AddRequest "c" Awaits] init = Some w /\
    addRequest "d" Awaits w = Some w' /\
    was_invoked (trace w') 3 = false /\
    In (mkItem "d" Awaits 3) (queue (self w')).
Proof.
  eexists. eexists. split; [vm_compute; reflexivity|].
  match goal with |- addRequest _ _ ?W = _ /\ _ => set (w0 := W) end.
  split; [vm_compute; reflexivity|].
  destruct (addRequest_launches_at_once_iff w0 "d" Awaits) as (w' & Hs & _ & Hiff & Hq).
  - exists [AddRequest "a" Awaits; AddRequest "b" Awaits; AddRequest "c" Awaits].
    vm_compute. reflexivity.
  - vm_compute in Hs. injection Hs as <-.
    split; [vm_compute; reflexivity|]. simpl. auto.
Defined.

(** C5 as stated fails: on a fresh limiter [addRequest] calls the operation
    before it returns. *)
Lemma operation_called_inside_addRequest :
  exists w,
    addRequest "a" Awaits init = Some w /\
    trace init = [] /\
    trace w = [ConsoleLog "[RateLimiter] Executing request: a"; Invoke (nextPromise init)] /\
    was_invoked (trace w) (nextPromise init) = true.
Proof. eexists. split; [vm_compute; reflexivity|]. repeat split. Qed.

(** ** Delays *)

(** C8.  A pass of the dispatch loop that launches an item arms the timer of
    [requestDelay] on which it suspends exactly when items remain queued
    after the launch, and otherwise leaves at once, without a delay; a
    completion (the awaited operation settling, or the operation throwing when
    it is called) arms a timer of [requestDelay / 2] whose callback calls
    [processQueue], and launches nothing itself. *)
Theorem delays_between_dispatches (w : World) :
  (forall fuel w' item rest,
     queue (self w) = item :: rest ->
     (inject_Z (activeRequests (self w)) < maxConcurrent (self w))%Q ->
     while_loop fuel w = Some w' ->
     dispatched (trace w') = dispatched (trace w) ++ [promise item] /\
     timers w' =
       timers w
       ++ match request item with
          | Throws _ => [mkTimer (requestDelay (self w) / 2)%Q CallProcessQueue]
          | Awaits => []
          end
       ++ match rest with
          | _ :: _ => [mkTimer (requestDelay (self w)) ResumeLoop]
          | [] => []
          end /\
     isProcessing (self w') =
       match rest with
       | _ :: _ => isProcessing (self w)
       | [] => false
       end) /\
  (forall p o item rest,
     take_awaiting p (awaiting w) = Some (item, rest) ->
     exists w',
       step (Settle p o) w = Some w' /\
       timers w' = timers w ++ [mkTimer (requestDelay (self w) / 2)%Q CallProcessQueue] /\
       dispatched (trace w') = dispatched (trace w) /\
       queue (self w') = queue (self w) /\
       isProcessing (self w') = isProcessing (self w) /\
       step (Expire (length (timers w))) w' = processQueue (set_timers (timers w) w')).
Proof.
  split.
  - intros fuel w' item rest Hq Hlt Hloop.
    apply while_loop_fuel_irrelevant in Hloop. subst w'.
    unfold loop_result. rewrite Hq. apply Qlt_bool_true in Hlt. rewrite Hlt.
    destruct (launch_self item rest w) as (_ & Hp & Hd & _).
    pose proof (launch_dispatched item rest w) as HD.
    pose proof (launch_timers item rest w) as HT.
    destruct rest as [|x rest]; simpl.
    + rewrite HD, HT. repeat split. destruct (request item); now rewrite ?app_nil_r.
    + rewrite HD, HT, Hp, Hd. repeat split.
      destruct (request item); simpl; now rewrite <- ?app_assoc.
  - intros p o item rest Ht. simpl. rewrite Ht. eexists. split; [reflexivity|].
    destruct (resume_frame item o (set_awaiting rest w)) as (Hself & _ & Htm & _).
    rewrite resume_dispatched, Hself, Htm. simpl. repeat split.
    rewrite nth_error_app2, Nat.sub_diag by lia. simpl.
    replace (remove_nth (length (timers w)) (timers w ++ _)) with (timers w); auto.
    clear. induction (timers w) as [|t l IH]; simpl; auto. now rewrite <- IH.
Qed.

Lemma delays_between_dispatches_witness :
  exists w w' w'',
    run [AddRequest "a" Awaits; AddRequest "b" Awaits; AddRequest "c" Awaits;
         AddRequest "d" Awaits; AddRequest "e" Awaits;
         Settle 0 (Fulfils (Num 1))] init = Some w /\
    while_loop 3 w = Some w' /\
    timers w' = [mkTimer (200 / 2)%Q CallProcessQueue; mkTimer 200%Q ResumeLoop] /\
    step (Settle 1 (Rejects (Error "gone"))) w = Some w'' /\
    timers w'' = [mkTimer (200 / 2)%Q CallProcessQueue;
                  mkTimer (200 / 2)%Q CallProcessQueue].
Proof.
  eexists. eexists. eexists. split; [vm_compute; reflexivity|].
  match goal with |- while_loop _ ?W = _ /\ _ => set (w0 := W) end.
  split; [vm_compute; reflexivity|].
  match goal with |- timers ?W = _ /\ _ => set (w1 := W) end.
  destruct (delays_between_dispatches w0) as [Hloop Hdone].
  destruct (Hloop 3 w1 (mkItem "d" Awaits 3) [mkItem "e" Awaits 4])
    as (_ & Ht & _).
  - reflexivity.
  - reflexivity.
  - vm_compute. reflexivity.
  - split; [exact Ht|].
    destruct (Hdone 1 (Rejects (Error "gone")) (mkItem "b" Awaits 1) [mkItem "c" Awaits 2])
      as (w2 & Hs & Ht2 & _); [reflexivity|].
    vm_compute in Hs. injection Hs as <-.
    split; [vm_compute; reflexivity | exact Ht2].
Defined.

(** ** The status snapshot *)




(** ** Construction and settings *)

(** C10.  A new limiter has a delay of 200 ms, a ceiling of 3, an empty queue,
    nothing in flight and an idle loop; [updateSettings] assigns the fields
    that are present in its argument and leaves every other field, the queue,
    the counter, the requests in flight, the timers and the trace as they
    were. *)
Theorem defaults_and_updateSettings (w : World) (s : Settings) :
  (requestDelay newRateLimiter = 200%Q /\
   maxConcurrent newRateLimiter = 3%Q /\
   queue newRateLimiter = [] /\
   activeRequests newRateLimiter = 0%Z /\
   isProcessing newRateLimiter = false /\
   self init = newRateLimiter /\ awaiting init = [] /\ timers init = []) /\
  exists w',
    step (UpdateSettings s) w = Some w' /\
    requestDelay (self w') =
      match settings_requestDelay s with
      | Some d => d
      | None => requestDelay (self w)
      end /\
    maxConcurrent (self w') =
      match settings_maxConcurrent s with
      | Some m => m
      | None => maxConcurrent (self w)
      end /\
    queue (self w') = queue (self w) /\
    activeRequests (self w') = activeRequests (self w) /\
    isProcessing (self w') = isProcessing (self w) /\
    awaiting w' = awaiting w /\
    timers w' = timers w /\
    trace w' = trace w /\
    nextPromise w' = nextPromise w.
Proof.
  split; [repeat split|].
  eexists. split; [reflexivity|]. simpl. unfold updateSettings.
  destruct (settings_requestDelay s), (settings_maxConcurrent s); simpl; repeat split.
Qed.

(* ===================================================================== *)
(** * Part IV.  Properties of the entity URL navigator *)
(* ===================================================================== *)

Import Navigator.

(** ** [parseInt] on integer ids *)

Lemma decimal_test (c : ascii) :
  ((48 <=? Z.of_N (byte c)) && (Z.of_N (byte c) <=? 57))%Z = true <-> is_decimal c.
Proof. unfold is_decimal. rewrite andb_true_iff, !Z.leb_le. tauto. Qed.

Lemma decimal_digit_in (c : ascii) :
  is_decimal c -> digit_in 10 c = Some (Z.of_N (byte c) - 48)%Z.
Proof.
  intros H. unfold digit_in, digit_of.
  rewrite (proj2 (decimal_test c) H).
  unfold is_decimal in H.
  now rewrite (proj2 (Z.ltb_lt _ _)) by lia.
Qed.

Lemma decimal_digits_parse (s : string) (acc n : Z) (seen : bool) :
  decimal_digits s acc = Some n ->
  s <> EmptyString \/ seen = true ->
  parse_digits 10 s acc seen = Some n.
Proof.
  revert acc seen. induction s as [|c rest IH]; simpl; intros acc seen H Hs.
  - destruct Hs as [Hs| ->]; [congruence | exact H].
  - destruct ((48 <=? Z.of_N (byte c)) && (Z.of_N (byte c) <=? 57))%Z eqn:Hc;
      [|discriminate].
    apply decimal_test in Hc. rewrite (decimal_digit_in c Hc).
    apply IH; auto.
Qed.

Lemma decimal_digits_head (c : ascii) (rest : string) (acc n : Z) :
  decimal_digits (String c rest) acc = Some n -> is_decimal c.
Proof.
  simpl. destruct (_ && _)%Z eqn:Hc; [|discriminate].
  intros _. now apply decimal_test.
Qed.

Lemma eqb_byte (c d : ascii) : Ascii.eqb c d = true -> byte c = byte d.
Proof. intros H. apply Ascii.eqb_eq in H. now subst. Qed.

Lemma eqb_other_byte (c d : ascii) : byte c <> byte d -> Ascii.eqb c d = false.
Proof.
  intros H. destruct (Ascii.eqb c d) eqn:E; auto.
  apply eqb_byte in E. contradiction.
Qed.

(** A string that begins with a digit or a minus sign has no white space to
    skip. *)
Lemma trim_start_none (c : ascii) (rest : string) :
  (45 <= Z.of_N (byte c) <= 57)%Z ->
  trim_start (String c rest) = String c rest.
Proof.
  intros H. simpl.
  assert (H1 : ws1 c = false).
  { unfold ws1. apply orb_false_iff. split.
    - apply andb_false_iff. right. apply N.leb_gt. lia.
    - apply N.eqb_neq. lia. }
  rewrite H1. destruct rest as [|c2 r2]; auto.
  assert (H2 : ws2 c c2 = false).
  { unfold ws2. apply andb_false_iff. left. apply N.eqb_neq. lia. }
  rewrite H2. destruct r2 as [|c3 r3]; auto.
  assert (H3 : ws3 c c2 c3 = false).
  { unfold ws3.
    replace (byte c =? 225)%N with false by (symmetry; apply N.eqb_neq; lia).
    replace (byte c =? 226)%N with false by (symmetry; apply N.eqb_neq; lia).
    replace (byte c =? 227)%N with false by (symmetry; apply N.eqb_neq; lia).
    replace (byte c =? 239)%N with false by (symmetry; apply N.eqb_neq; lia).
    reflexivity. }
  now rewrite H3.
Qed.

(** Decimal digits are not followed by a radix prefix. *)
Lemma radix_of_decimal (s : string) (acc n : Z) :
  decimal_digits s acc = Some n -> radix_of s = (10%Z, s).
Proof.
  destruct s as [|c1 [|c2 r]]; auto. intros H. unfold radix_of.
  destruct (Ascii.eqb c1 "0"); auto. simpl.
  simpl in H. destruct (_ && _)%Z; [|discriminate].
  destruct ((48 <=? Z.of_N (byte c2)) && (Z.of_N (byte c2) <=? 57))%Z eqn:Hc;
    [|discriminate].
  apply decimal_test in Hc. unfold is_decimal in Hc.
  rewrite !eqb_other_byte; auto.
  - change (byte "X") with 88%N. lia.
  - change (byte "x") with 120%N. lia.
Qed.

Lemma sign_of_decimal (c : ascii) (rest : string) :
  is_decimal c -> sign_of (String c rest) = (1%Z, String c rest).
Proof.
  unfold is_decimal. intros H. unfold sign_of.
  rewrite !eqb_other_byte; auto.
  - change (byte "+") with 43%N. lia.
  - change (byte "-") with 45%N. lia.
Qed.

(** A safe integer is a number as it stands. *)
Lemma to_number_safe (n : Z) : safe_integer n -> to_number n = Int n.
Proof.
  unfold safe_integer, to_number. intros H. cbv zeta.
  now rewrite (proj2 (Z.ltb_lt (Z.abs n) (2 ^ 53))) by lia.
Qed.

(** On an id that is an integer, [parseInt] returns the number for that
    integer. *)
Lemma parseInt_integer_literal (s : string) (n : Z) :
  integer_literal s = Some n -> parseInt s = to_number n.
Proof.
  destruct s as [|c rest]; [discriminate|].
  unfold integer_literal.
  destruct (Ascii.eqb c "-") eqn:Hminus.
  - apply Ascii.eqb_eq in Hminus. subst c.
    destruct rest as [|c' rest']; [discriminate|].
    destruct (decimal_digits (String c' rest') 0) as [m|] eqn:Hm; [|discriminate].
    simpl option_map. intros [= <-].
    unfold parseInt. rewrite trim_start_none by (change (byte "-") with 45%N; lia).
    change (sign_of (String "-" (String c' rest'))) with ((-1)%Z, String c' rest').
    cbv zeta. cbn [fst snd].
    rewrite (radix_of_decimal _ _ _ Hm). cbn [fst snd].
    rewrite (decimal_digits_parse _ _ _ false Hm) by (left; discriminate).
    f_equal; lia.
  - assert (Hd : decimal_digits (String c rest) 0 = Some n ->
                 parseInt (String c rest) = to_number n).
    { intros Hn. pose proof (decimal_digits_head _ _ _ _ Hn) as Hc.
      unfold parseInt. rewrite trim_start_none by (unfold is_decimal in Hc; lia).
      rewrite (sign_of_decimal _ _ Hc). cbv zeta. cbn [fst snd].
      rewrite (radix_of_decimal _ _ _ Hn). cbn [fst snd].
      rewrite (decimal_digits_parse _ _ _ false Hn) by (left; discriminate).
      f_equal; lia. }
    destruct c as [[] [] [] [] [] [] [] []]; try exact Hd; discriminate.
Qed.

(** ** One run of the effect *)

Section Effect.

Context {T : Type}.
Variable cfg : EntityUrlNavigationConfig T.

(** [loadSpecificEntity] fetches once, calls [onEntityLoaded] exactly when
    the fetch succeeds with a payload, goes on to [onAdditionalAction] when it
    is there and [onEntityLoaded] has returned, and never lets an exception
    out. *)
Lemma loadSpecificEntity_calls (entityId : string) :
  fetches (fst (loadSpecificEntity cfg entityId)) = [parseInt entityId] /\
  callbacks (fst (loadSpecificEntity cfg entityId)) =
    match getEntityById cfg (parseInt entityId) with
    | Resolved (mkResponse true (Some entity)) =>
        OnEntityLoaded entity
        :: match onEntityLoaded cfg entity, onAdditionalAction cfg with
           | Normally, Some _ => [OnAdditionalAction entity (parseInt entityId)]
           | _, _ => []
           end
    | _ => []
    end /\
  snd (loadSpecificEntity cfg entityId) =
    match getEntityById cfg (parseInt entityId) with
    | Unsettled => Suspended
    | _ => Done tt
    end.
Proof.
  unfold loadSpecificEntity, await_getEntityById.
  destruct (getEntityById cfg (parseInt entityId)) as [[[] [d|]]|e|]; simpl;
    try (repeat split; reflexivity).
  destruct (onEntityLoaded cfg d) as [|e]; simpl;
    [|destruct (onAdditionalAction cfg); repeat split; reflexivity].
  destruct (onAdditionalAction cfg) as [f|]; simpl;
    [|repeat split; reflexivity].
  destruct (f d (parseInt entityId)); simpl; repeat split; reflexivity.
Qed.

Lemma effect_skips (search : string) :
  truthy (get (URLSearchParams search) "id")
  && (strict_eq (get (URLSearchParams search) "action") "view"
      || strict_eq (get (URLSearchParams search) "action") "detail") = false ->
  useEntityUrlNavigation cfg search =
  ([Console Log "useEntityUrlNavigation: checking URL params:";
    Console Log "useEntityUrlNavigation: entityId =";
    Console Log "useEntityUrlNavigation: conditions not met, skipping..."],
   Done tt).
Proof.
  intros H. unfold useEntityUrlNavigation.
  destruct (get (URLSearchParams search) "id") as [s|]; [|reflexivity].
  rewrite H. reflexivity.
Qed.

Lemma effect_loads (search s : string) :
  get (URLSearchParams search) "id" = Some s ->
  truthy (Some s)
  && (strict_eq (get (URLSearchParams search) "action") "view"
      || strict_eq (get (URLSearchParams search) "action") "detail") = true ->
  useEntityUrlNavigation cfg search =
  (Console Log "useEntityUrlNavigation: checking URL params:"
   :: Console Log "useEntityUrlNavigation: entityId ="
   :: Console Log "useEntityUrlNavigation: conditions met, loading entity..."
   :: fst (loadSpecificEntity cfg s),
   snd (loadSpecificEntity cfg s)).
Proof.
  intros Hid H. unfold useEntityUrlNavigation. rewrite Hid, H.
  destruct (loadSpecificEntity cfg s) as [calls c]. reflexivity.
Qed.

End Effect.

Lemma integer_literal_truthy (s : string) (n : Z) :
  integer_literal s = Some n -> truthy (Some s) = true.
Proof. destruct s; [discriminate | reflexivity]. Qed.

(** C7 (as amended).  When the query string carries an integer id and the
    action "view" or "detail", the effect fetches the number [parseInt] reads
    from the id, which is the integer itself when that is a safe integer.
    When that fetch resolves with [success] and a payload, the effect calls
    [onEntityLoaded(payload)] once and then, when the optional callback is
    present and [onEntityLoaded] has returned, [onAdditionalAction] once with
    the payload and the number that was fetched; no other callback is
    called.  When [onEntityLoaded] throws, the exception is caught and
    [onAdditionalAction] is not called. *)
Theorem callbacks_after_successful_fetch {T : Type}
        (cfg : EntityUrlNavigationConfig T) (search s a : string) (n : Z) (d : T) :
  get (URLSearchParams search) "id" = Some s ->
  integer_literal s = Some n ->
  get (URLSearchParams search) "action" = Some a ->
  a = "view"%string \/ a = "detail"%string ->
  getEntityById cfg (parseInt s) = Resolved (mkResponse true (Some d)) ->
  (safe_integer n -> parseInt s = Int n) /\
  fetches (fst (useEntityUrlNavigation cfg search)) = [parseInt s] /\
  callbacks (fst (useEntityUrlNavigation cfg search)) =
    OnEntityLoaded d
    :: match onEntityLoaded cfg d, onAdditionalAction cfg with
       | Normally, Some _ => [OnAdditionalAction d (parseInt s)]
       | _, _ => []
       end /\
  snd (useEntityUrlNavigation cfg search) = Done tt.
Proof.
  intros Hid Hn Ha Hrec Hfetch.
  split.
  { intros Hsafe. rewrite (parseInt_integer_literal s n Hn).
    now apply to_number_safe. }
  rewrite (effect_loads cfg search s Hid).
  - destruct (loadSpecificEntity_calls cfg s) as (Hf & Hc & Hd).
    rewrite Hfetch in *. simpl. auto.
  - rewrite (integer_literal_truthy s n Hn), Ha.
    destruct Hrec as [-> | ->]; reflexivity.
Qed.

Lemma callbacks_after_successful_fetch_witness :
  fetches (fst (useEntityUrlNavigation (mkConfig only_seven true) "?id=7&action=view")) =
    [Int 7] /\
  callbacks (fst (useEntityUrlNavigation (mkConfig only_seven true) "?id=7&action=view")) =
    [OnEntityLoaded "seven"%string; OnAdditionalAction "seven"%string (Int 7)].
Proof.
  destruct (callbacks_after_successful_fetch
              (mkConfig only_seven true) "?id=7&action=view" "7" "view" 7 "seven"%string)
    as (_ & Hf & Hc & _); try reflexivity.
  - now left.
  - split; [exact Hf | exact Hc].
Defined.

(** C7 as stated fails when [onEntityLoaded] throws: the id is the integer 7,
    the fetch resolves with [success] and a payload and [onAdditionalAction]
    is provided, yet it is never called; the exception ends in the [catch]
    block. *)
Lemma throwing_onEntityLoaded_skips_onAdditionalAction :
  exists cfg : EntityUrlNavigationConfig string,
    cfg = Config only_seven (fun _ => Throwing (Error "not ready"))
                 (Some (fun _ _ => Normally)) /\
    get (URLSearchParams "?id=7&action=view") "id" = Some "7"%string /\
    integer_literal "7" = Some 7%Z /\
    get (URLSearchParams "?id=7&action=view") "action" = Some "view"%string /\
    getEntityById cfg (Int 7) = Resolved (mkResponse true (Some "seven"%string)) /\
    fetches (fst (useEntityUrlNavigation cfg "?id=7&action=view")) = [Int 7] /\
    callbacks (fst (useEntityUrlNavigation cfg "?id=7&action=view")) =
      [OnEntityLoaded "seven"%string] /\
    snd (useEntityUrlNavigation cfg "?id=7&action=view") = Done tt.
Proof. eexists. split; [reflexivity|]. repeat split. Qed.

(** An id above 2^53 is fetched as the double next to it. *)
Lemma unsafe_id_is_rounded :
  integer_literal "9007199254740993" = Some 9007199254740993%Z /\
  parseInt "9007199254740993" = Int 9007199254740992 /\
  fetches (fst (useEntityUrlNavigation (mkConfig only_seven true)
                  "?id=9007199254740993&action=view")) = [Int 9007199254740992].
Proof. repeat split. Qed.

(** C6 (as amended).  For every query string the effect lets no exception
    out.  It fetches nothing and fires no callback when the id is absent or
    empty, or when the action is absent or is neither "view" nor "detail".
    Any other id, integer or not, is fetched as [parseInt(id)] (which is [NaN]
    when the id does not start with an integer), and the callbacks stay
    silent exactly when that fetch does not resolve with [success] and a
    payload. *)
Theorem no_callback_unless_fetch_succeeds {T : Type}
        (cfg : EntityUrlNavigationConfig T) (search : string) :
  (forall e, snd (useEntityUrlNavigation cfg search) <> Thrown e) /\
  (get (URLSearchParams search) "id" = None \/
   get (URLSearchParams search) "id" = Some EmptyString \/
   get (URLSearchParams search) "action" = None \/
   (exists a, get (URLSearchParams search) "action" = Some a /\
              a <> "view"%string /\ a <> "detail"%string) ->
   fetches (fst (useEntityUrlNavigation cfg search)) = [] /\
   callbacks (fst (useEntityUrlNavigation cfg search)) = []) /\
  (forall s a,
     get (URLSearchParams search) "id" = Some s -> s <> EmptyString ->
     get (URLSearchParams search) "action" = Some a ->
     a = "view"%string \/ a = "detail"%string ->
     fetches (fst (useEntityUrlNavigation cfg search)) = [parseInt s] /\
     (callbacks (fst (useEntityUrlNavigation cfg search)) = [] <->
      fetch_succeeds (getEntityById cfg (parseInt s)) = false)).
Proof.
  split; [|split].
  - intros e.
    destruct (truthy (get (URLSearchParams search) "id")
              && (strict_eq (get (URLSearchParams search) "action") "view"
                  || strict_eq (get (URLSearchParams search) "action") "detail"))
      eqn:Hc.
    + destruct (get (URLSearchParams search) "id") as [s|] eqn:Hid; [|discriminate].
      rewrite (effect_loads cfg search s Hid Hc). simpl.
      destruct (loadSpecificEntity_calls cfg s) as (_ & _ & ->).
      destruct (getEntityById cfg (parseInt s)); discriminate.
    + rewrite (effect_skips cfg search Hc). discriminate.
  - intros H. rewrite effect_skips; [split; reflexivity|].
    destruct H as [-> | [-> | [-> | (a & -> & H1 & H2)]]]; simpl; auto.
    + apply andb_false_r.
    + apply String.eqb_neq in H1, H2. rewrite H1, H2. apply andb_false_r.
  - intros s a Hid Hs Ha Hrec.
    rewrite (effect_loads cfg search s Hid).
    + simpl. destruct (loadSpecificEntity_calls cfg s) as (-> & -> & _).
      split; auto. unfold fetch_succeeds.
      destruct (getEntityById cfg (parseInt s)) as [[[] [d|]]|e|]; simpl;
        split; auto; discriminate.
    + rewrite Ha. simpl. apply String.eqb_neq in Hs. rewrite Hs.
      destruct Hrec as [-> | ->]; reflexivity.
Qed.

Lemma no_callback_unless_fetch_succeeds_witness :
  fetches (fst (useEntityUrlNavigation (mkConfig only_seven true) "?id=abc&action=view")) = [NaN] /\
  callbacks (fst (useEntityUrlNavigation (mkConfig only_seven true) "?id=abc&action=view")) = [] /\
  callbacks (fst (useEntityUrlNavigation (mkConfig only_seven true) "?action=view")) = [].
Proof.
  destruct (no_callback_unless_fetch_succeeds
              (mkConfig only_seven true) "?id=abc&action=view") as (_ & _ & H).
  destruct (H "abc"%string "view"%string) as (Hf & Hc);
    try reflexivity; try discriminate; [now left|].
  destruct (no_callback_unless_fetch_succeeds
              (mkConfig only_seven true) "?action=view") as (_ & H' & _).
  split; [exact Hf|]. split.
  - apply Hc. reflexivity.
  - apply H'. left. reflexivity.
Defined.

(** C6 as stated fails: the id "7abc" is not an integer, yet [parseInt] reads
    7 from it, entity 7 is fetched and both callbacks fire. *)
Lemma non_integer_id_fires_callbacks :
  get (URLSearchParams "?id=7abc&action=view") "id" = Some "7abc"%string /\
  integer_literal "7abc" = None /\
  callbacks (fst (useEntityUrlNavigation (mkConfig only_seven true) "?id=7abc&action=view")) =
    [OnEntityLoaded "seven"%string; OnAdditionalAction "seven"%string (Int 7)].
Proof. repeat split. Qed.

(* ===================================================================== *)
(** * Part V.  Further properties of the rate limiter *)
(* ===================================================================== *)

Close Scope string_scope.
Open Scope list_scope.

(** ** The shape of a step *)

Lemma loop_result_shape (v : World) :
  nextPromise (loop_result v) = nextPromise v /\
  ((queue (self (loop_result v)) = queue (self v) /\
    trace (loop_result v) = trace v) \/
   (exists h t,
      queue (self v) = h :: t /\
      (inject_Z (activeRequests (self v)) < maxConcurrent (self v))%Q /\
      queue (self (loop_result v)) = t /\
      trace (loop_result v) = trace v ++ launch_effects h)).
Proof.
  unfold loop_result.
  destruct (queue (self v)) as [|h t] eqn:Hq; [simpl; auto|].
  destruct (Qlt_bool_spec (inject_Z (activeRequests (self v))) (maxConcurrent (self v)));
    [|simpl; auto].
  destruct (launch_self h t v) as (Hq' & _ & _ & _ & Hn).
  pose proof (launch_trace h t v) as Ht.
  assert (Hshape : nextPromise (shift_and_launch h t v) = nextPromise v /\
                   exists h0 t0, h :: t = h0 :: t0 /\
                     (inject_Z (activeRequests (self v)) < maxConcurrent (self v))%Q /\
                     queue (self (shift_and_launch h t v)) = t0 /\
                     trace (shift_and_launch h t v) = trace v ++ launch_effects h0).
  { split; auto. exists h, t. auto. }
  destruct t; (split; [apply Hshape | right; apply Hshape]).
Qed.

Lemma processQueue_shape (v v' : World) :
  processQueue v = Some v' ->
  nextPromise v' = nextPromise v /\
  ((queue (self v') = queue (self v) /\ trace v' = trace v) \/
   (exists h t,
      queue (self v) = h :: t /\
      (inject_Z (activeRequests (self v)) < maxConcurrent (self v))%Q /\
      queue (self v') = t /\
      trace v' = trace v ++ launch_effects h)).
Proof.
  rewrite processQueue_total. intros [= <-].
  destruct (_ || _); [auto|].
  apply (loop_result_shape (on_self (set_isProcessing true) v)).
Qed.

(** A step either launches nothing, or launches the head of the queue it
    works on; it launches only on a submission or on a timer, and only with
    room below the ceiling. *)
Lemma step_shape (e : Event) (w w' : World) :
  step e w = Some w' ->
  nextPromise w' = (if is_submission e then S (nextPromise w) else nextPromise w) /\
  ((queue (self w') = queue_at e w /\
    exists tl, quiet_effects e w tl /\ trace w' = trace w ++ tl) \/
   (exists h t,
      queue_at e w = h :: t /\
      quiet_effects e w [] /\
      (inject_Z (activeRequests (self w)) < maxConcurrent (self w))%Q /\
      queue (self w') = t /\
      trace w' = trace w ++ launch_effects h)).
Proof.
  destruct e as [i r| | |s|p o|k]; simpl.
  - unfold addRequest. intros H. apply processQueue_shape in H.
    destruct H as (Hn & [[Hq Ht]|(h & t & Hq & Hlt & Hq' & Ht)]); split; auto.
    + left. split; auto. exists []. split; auto. now rewrite app_nil_r.
    + right. exists h, t. auto.
  - intros [= <-]. split; auto. left. split; auto. exists []. now rewrite app_nil_r.
  - intros [= <-]. destruct (clearQueue_frame w) as (-> & _ & _ & ->).
    split; auto. left. split; auto. eexists. split; [reflexivity|].
    apply clearQueue_trace.
  - intros [= <-]. split; auto. left. split.
    + simpl. unfold updateSettings.
      destruct (settings_requestDelay s), (settings_maxConcurrent s); reflexivity.
    + exists []. simpl. now rewrite app_nil_r.
  - destruct (take_awaiting p (awaiting w)) as [[item rest]|] eqn:Ht; [|discriminate].
    intros [= <-]. apply take_awaiting_split in Ht.
    destruct Ht as (Hp & l1 & l2 & Hl & _).
    destruct (resume_frame item o (set_awaiting rest w)) as (-> & _ & _ & ->).
    split; auto. left. split; auto.
    exists (settle_effects item o). split.
    + exists item. split; [|auto]. rewrite Hl. apply in_or_app. right. now left.
    + rewrite resume_trace. reflexivity.
  - destruct (nth_error (timers w) k) as [tm|]; [|discriminate].
    assert (Hgen : forall v',
              (nextPromise v' = nextPromise w /\
               ((queue (self v') = queue (self w) /\ trace v' = trace w) \/
                (exists h t,
                   queue (self w) = h :: t /\
                   (inject_Z (activeRequests (self w)) < maxConcurrent (self w))%Q /\
                   queue (self v') = t /\
                   trace v' = trace w ++ launch_effects h))) ->
              nextPromise v' = nextPromise w /\
              ((queue (self v') = queue (self w) /\
                exists tl, tl = [] /\ trace v' = trace w ++ tl) \/
               (exists h t,
                  queue (self w) = h :: t /\ @nil Effect = [] /\
                  (inject_Z (activeRequests (self w)) < maxConcurrent (self w))%Q /\
                  queue (self v') = t /\
                  trace v' = trace w ++ launch_effects h))).
    { intros v' (Hn & [[Hq Ht]|(h & t & Hq & Hlt & Hq' & Ht)]); split; auto.
      - left. split; auto. exists []. split; auto. now rewrite app_nil_r.
      - right. exists h, t. auto. }
    destruct (callback tm).
    + unfold resume_loop. rewrite while_loop_total. intros [= <-].
      apply Hgen. apply (loop_result_shape (set_timers (remove_nth k (timers w)) w)).
    + intros H. apply Hgen.
      apply (processQueue_shape (set_timers (remove_nth k (timers w)) w)), H.
Qed.

(** The request a step launches was pending: neither launched nor settled
    before. *)
Lemma head_was_pending (e : Event) (w : World) (h : RequestQueue)
      (t : list RequestQueue) :
  Inv w -> queue_at e w = h :: t ->
  settlement (trace w) (promise h) = None /\
  ~ In (promise h) (dispatched (trace w)) /\
  (In h (queue (self w)) \/ (is_submission e = true /\ promise h = nextPromise w)).
Proof.
  intros [Hs Hb Hq _ _ _ Hset] Hqa.
  assert (Hin : forall x, In x (queue (self w)) ->
                  settlement (trace w) (promise x) = None /\
                  ~ In (promise x) (dispatched (trace w))).
  { intros x Hx. apply (in_map promise) in Hx. apply Hq in Hx. tauto. }
  assert (Hnew : settlement (trace w) (nextPromise w) = None /\
                 ~ In (nextPromise w) (dispatched (trace w))).
  { split.
    - destruct (settlement (trace w) (nextPromise w)) eqn:E; auto.
      assert (nextPromise w < nextPromise w) by (apply Hset; congruence). lia.
    - intros H. assert (nextPromise w < nextPromise w); [|lia].
      apply Hb, in_or_app. now left. }
  assert (Hsame : queue (self w) = h :: t ->
                  settlement (trace w) (promise h) = None /\
                  ~ In (promise h) (dispatched (trace w)) /\
                  (In h (queue (self w)) \/
                   (is_submission e = true /\ promise h = nextPromise w))).
  { intros E. assert (Hh : In h (queue (self w))) by (rewrite E; now left).
    destruct (Hin h Hh). auto. }
  destruct e as [i r| | |s|p o|k]; simpl in Hqa; auto; [|discriminate].
  destruct (queue (self w)) as [|x l] eqn:E; simpl in Hqa.
  - injection Hqa as <- <-. simpl. destruct Hnew. auto.
  - injection Hqa as <- <-.
    assert (Hh : In x (x :: l)) by now left.
    destruct (Hin x Hh). auto.
Qed.

(** ** Settling calls *)

Lemma settle_calls_app (t1 t2 : list Effect) (p : PromiseId) :
  settle_calls (t1 ++ t2) p = settle_calls t1 p + settle_calls t2 p.
Proof.
  induction t1 as [|e t1 IH]; simpl; auto.
  destruct e; simpl; rewrite ?IH; lia.
Qed.

Lemma settle_calls_none (t : list Effect) (p : PromiseId) :
  settlement t p = None <-> settle_calls t p = 0.
Proof.
  induction t as [|e t IH]; simpl; [tauto|].
  destruct e; simpl; auto; destruct (_ =? _); simpl; auto; split; discriminate.
Qed.

Lemma settle_calls_rejects (l : list PromiseId) (e : any) (p : PromiseId) :
  NoDup l ->
  settle_calls (map (fun q => Reject q e) l) p = if in_dec Nat.eq_dec p l then 1 else 0.
Proof.
  induction 1 as [|a l Ha Hl IH]; simpl; auto.
  rewrite IH. destruct (Nat.eqb_spec a p) as [->|Hne].
  - destruct (Nat.eq_dec p p); [|congruence].
    destruct (in_dec Nat.eq_dec p l); [contradiction | reflexivity].
  - destruct (Nat.eq_dec a p); [congruence|].
    destruct (in_dec Nat.eq_dec p l); reflexivity.
Qed.

Lemma settled_once_grows (w w' : World) (tl : list Effect) :
  settled_once w ->
  trace w' = trace w ++ tl ->
  (forall p, settle_calls tl p <= 1) ->
  (forall p, settle_calls tl p <> 0 -> settlement (trace w) p = None) ->
  (forall p o, settlement tl p = Some o ->
               In p (dispatched (trace w ++ tl)) \/ o = Rejects cancelled) ->
  settled_once w'.
Proof.
  intros [H1 H2] Ht Hc Hn Ho. unfold settled_once. rewrite Ht. split.
  - intros p. rewrite settle_calls_app.
    destruct (Nat.eq_dec (settle_calls tl p) 0) as [E|E]; [rewrite E; specialize (H1 p); lia|].
    apply Hn, settle_calls_none in E. rewrite E. apply Hc.
  - intros p o. rewrite settlement_app.
    destruct (settlement (trace w) p) as [o'|] eqn:E.
    + intros [= <-]. destruct (H2 p o' E) as [H|H]; auto.
      left. rewrite dispatched_app. apply in_or_app. now left.
    + apply Ho.
Qed.

Lemma settled_once_step (e : Event) (w w' : World) :
  Inv w -> settled_once w -> step e w = Some w' -> settled_once w'.
Proof.
  intros HI HS Hstep.
  destruct (step_shape e w w' Hstep) as (_ & [[_ (tl & Hq & Ht)]|(h & t & Hqa & _ & _ & _ & Ht)]).
  - destruct e as [i r| | |s|p o|k]; simpl in Hq;
      try (subst tl; rewrite app_nil_r in Ht; unfold settled_once; now rewrite Ht).
    + (* clearQueue *)
      assert (Hnd : NoDup (map promise (queue (self w)))).
      { destruct HI as [Hs _ _ _ _ _ _]. apply increasing_app in Hs.
        apply increasing_NoDup. tauto. }
      apply (settled_once_grows w w' tl); auto; subst tl.
      * intros p. rewrite settle_calls_rejects by auto.
        destruct (in_dec _ _ _); lia.
      * intros p. rewrite settle_calls_rejects by auto.
        destruct (in_dec _ _ _) as [Hin|]; [|congruence].
        intros _. destruct HI as [_ _ Hqu _ _ _ _]. apply Hqu in Hin. tauto.
      * intros p o. rewrite settlement_rejects.
        destruct (in_dec _ _ _); [|discriminate]. intros [= <-]. now right.
    + (* a completion *)
      destruct Hq as (item & Hin & Hp & ->).
      assert (Ha : In (promise item) (dispatched (trace w)) /\
                   settlement (trace w) (promise item) = None).
      { destruct HI as [_ _ _ _ Ha _ _]. apply Ha. now apply in_map. }
      apply (settled_once_grows w w' (settle_effects item o)); auto.
      * intros q. destruct o; simpl; destruct (_ =? _); lia.
      * intros q. destruct o; simpl; destruct (Nat.eqb_spec (promise item) q);
          subst; tauto.
      * intros q o'. rewrite dispatched_app.
        destruct o; simpl; destruct (Nat.eqb_spec (promise item) q);
          try discriminate; subst; intros _; left; apply in_or_app; tauto.
  - destruct (head_was_pending e w h t HI Hqa) as (Hn & _ & _).
    apply (settled_once_grows w w' (launch_effects h)); auto.
    + intros q. unfold launch_effects.
      destruct (request h); simpl; [destruct (_ =? _)|]; lia.
    + intros q. unfold launch_effects.
      destruct (request h); simpl; [|tauto].
      destruct (Nat.eqb_spec (promise h) q); subst; tauto.
    + intros q o. rewrite dispatched_app. unfold launch_effects.
      destruct (request h); simpl; [|discriminate].
      destruct (Nat.eqb_spec (promise h) q); [|discriminate].
      subst. intros _. left. apply in_or_app. right. now left.
Qed.

Lemma settled_once_reachable (w : World) : reachable w -> settled_once w.
Proof.
  intros [es Hrun].
  assert (Hgen : forall v, Inv v -> settled_once v -> run es v = Some w -> settled_once w).
  { clear Hrun. induction es as [|e es IH]; simpl; intros v HI HS.
    - now intros [= <-].
    - destruct (step e v) as [v1|] eqn:Hs; [|discriminate].
      apply IH.
      + now apply Inv_step with (e := e) (w := v).
      + now apply settled_once_step with (e := e) (w := v). }
  apply (Hgen init); auto using Inv_init.
  split; simpl; [lia | discriminate].
Qed.

(** The settling functions of a promise are called at most once: the limiter
    never resolves or rejects a request twice. *)
Theorem settled_at_most_once (w : World) (p : PromiseId) :
  reachable w -> settle_calls (trace w) p <= 1.
Proof. intros Hr. now apply settled_once_reachable. Qed.

Lemma settled_at_most_once_witness :
  exists w, run busy_run init = Some w /\
            settle_calls (trace w) 0 <= 1 /\ settle_calls (trace w) 2 <= 1.
Proof.
  eexists. split; [vm_compute; reflexivity|].
  match goal with |- settle_calls (trace ?W) _ <= _ /\ _ => set (w0 := W) end.
  assert (Hr : reachable w0) by (exists busy_run; vm_compute; reflexivity).
  split; apply (settled_at_most_once w0); exact Hr.
Defined.

(** A request whose operation was never called is either still pending or
    was rejected with the cancellation error: nothing but [clearQueue]
    settles a request that did not run. *)
Theorem unlaunched_only_cancelled (w : World) (p : PromiseId) :
  reachable w ->
  was_invoked (trace w) p = false ->
  settlement (trace w) p = None \/
  settlement (trace w) p = Some (Rejects (Error "Request cancelled")).
Proof.
  intros Hr Hinv. destruct (settled_once_reachable w Hr) as [_ H].
  destruct (settlement (trace w) p) as [o|] eqn:E; auto.
  destruct (H p o E) as [Hd| ->]; auto.
  apply was_invoked_dispatched in Hd. congruence.
Qed.

Lemma unlaunched_only_cancelled_witness :
  exists w,
    run [AddRequest "a" Awaits; AddRequest "b" Awaits; AddRequest "c" Awaits;
         AddRequest "d" Awaits; ClearQueue] init = Some w /\
    (settlement (trace w) 3 = None \/
     settlement (trace w) 3 = Some (Rejects (Error "Request cancelled"))).
Proof.
  eexists. split; [vm_compute; reflexivity|].
  match goal with |- settlement (trace ?W) _ = _ \/ _ => set (w0 := W) end.
  apply (unlaunched_only_cancelled w0 3); [|reflexivity].
  exists [AddRequest "a" Awaits; AddRequest "b" Awaits; AddRequest "c" Awaits;
          AddRequest "d" Awaits; ClearQueue].
  vm_compute. reflexivity.
Defined.

(** ** The counter and the launch log *)

(** [activeRequests] is never negative and always equals the number of
    activations of [executeRequest] that wait for their operation; no two of
    them wait for the same request. *)
Theorem active_counts_activations (w : World) :
  reachable w ->
  activeRequests (self w) = Z.of_nat (length (awaiting w)) /\
  (0 <= activeRequests (self w))%Z /\
  NoDup (map promise (awaiting w)).
Proof.
  intros Hr. apply Inv_reachable in Hr. destruct Hr as [_ _ _ Hnd _ Hact _].
  rewrite length_map in Hact. repeat split; auto. lia.
Qed.

Lemma active_counts_activations_witness :
  exists w, run busy_run init = Some w /\
            activeRequests (self w) = Z.of_nat (length (awaiting w)).
Proof.
  eexists. split; [vm_compute; reflexivity|].
  match goal with |- activeRequests (self ?W) = _ => set (w0 := W) end.
  apply (active_counts_activations w0).
  exists busy_run. vm_compute. reflexivity.
Defined.

(** Operations are launched in the order of their submission, whether or not
    they were ever queued together; no operation is launched twice, and only
    submitted ones are launched. *)
Theorem launches_follow_submissions (w : World) :
  reachable w ->
  NoDup (dispatched (trace w)) /\
  (forall p, In p (dispatched (trace w)) -> p < nextPromise w) /\
  (forall a b, In a (dispatched (trace w)) -> In b (dispatched (trace w)) -> a < b ->
     exists d1 d2 d3, dispatched (trace w) = d1 ++ a :: d2 ++ b :: d3).
Proof.
  intros Hr. apply Inv_reachable in Hr. destruct Hr as [Hs Hb _ _ _ _ _].
  apply increasing_app in Hs. destruct Hs as (Hs & _ & _).
  repeat split.
  - now apply increasing_NoDup.
  - intros p Hp. apply Hb, in_or_app. now left.
  - intros a b Ha Hb' Hlt. now apply increasing_before.
Qed.

Lemma launches_follow_submissions_witness :
  exists w, run busy_run init = Some w /\ NoDup (dispatched (trace w)).
Proof.
  eexists. split; [vm_compute; reflexivity|].
  match goal with |- NoDup (dispatched (trace ?W)) => set (w0 := W) end.
  apply (launches_follow_submissions w0).
  exists busy_run. vm_compute. reflexivity.
Defined.

Lemma launch_needs_room_witness :
  exists w w',
    run [AddRequest "a" Awaits; AddRequest "b" Awaits] init = Some w /\
    step (AddRequest "c" Awaits) w = Some w' /\
    (inject_Z (activeRequests (self w)) < maxConcurrent (self w))%Q.
Proof.
  eexists. eexists. split; [vm_compute; reflexivity|].
  match goal with |- step _ ?W = _ /\ _ => set (w0 := W) end.
  split; [vm_compute; reflexivity|].
  match goal with |- (inject_Z (activeRequests (self ?W)) < _)%Q => change W with w0 end.
  eapply (launch_needs_room (AddRequest "c" Awaits) w0).
  - vm_compute. reflexivity.
  - vm_compute. discriminate.
Defined.

(** ** Cancelled requests *)

Lemma run_trace_grows (es : list Event) (w w' : World) :
  run es w = Some w' -> exists tl, trace w' = trace w ++ tl.
Proof.
  revert w. induction es as [|e es IH]; simpl; intros w.
  - intros [= <-]. exists []. now rewrite app_nil_r.
  - destruct (step e w) as [w1|] eqn:Hs; [|discriminate]. intros Hrun.
    destruct (IH w1 Hrun) as [tl2 Ht2].
    destruct (step_shape e w w1 Hs) as (_ & [[_ (tl & _ & Ht)]|(h & t & _ & _ & _ & _ & Ht)]);
      eexists; rewrite Ht2, Ht, <- app_assoc; reflexivity.
Qed.

Lemma dispatched_launch_effects (h : RequestQueue) :
  dispatched (launch_effects h) = [promise h].
Proof. unfold launch_effects. destruct (request h); reflexivity. Qed.

Lemma dispatched_quiet (e : Event) (w : World) (tl : list Effect) :
  quiet_effects e w tl -> dispatched tl = [].
Proof.
  destruct e as [i r| | |s|p o|k]; simpl; try (intros ->; reflexivity).
  - intros ->. apply dispatched_rejects.
  - intros (item & _ & _ & ->). now destruct o.
Qed.

Lemma gone_step (p : PromiseId) (e : Event) (w w' : World) :
  gone p w -> step e w = Some w' -> gone p w'.
Proof.
  intros (Hn & Hq & Hd) Hstep. unfold gone.
  assert (Hqa : ~ In p (map promise (queue_at e w))).
  { destruct e as [i r| | |s|q o|k]; simpl; auto.
    rewrite map_app, in_app_iff. simpl. intros [H|[H|[]]]; auto. lia. }
  destruct (step_shape e w w' Hstep)
    as (Hn' & [[Hq' (tl & Hquiet & Ht)]|(h & t & Hh & _ & _ & Hq' & Ht)]).
  - rewrite Hn', Hq', Ht, dispatched_app, (dispatched_quiet e w tl Hquiet), app_nil_r.
    repeat split; auto. destruct (is_submission e); lia.
  - rewrite Hn', Hq', Ht, dispatched_app, dispatched_launch_effects.
    rewrite Hh in Hqa. simpl in Hqa.
    repeat split; [destruct (is_submission e); lia | tauto |].
    rewrite in_app_iff. simpl. tauto.
Qed.

Lemma gone_run (p : PromiseId) (es : list Event) (w w' : World) :
  gone p w -> run es w = Some w' -> gone p w'.
Proof.
  revert w. induction es as [|e es IH]; simpl; intros w Hg.
  - now intros [= <-].
  - destruct (step e w) as [w1|] eqn:Hs; [|discriminate].
    apply IH. now apply gone_step with (e := e) (w := w).
Qed.

(** A request cancelled by [clearQueue] is never launched afterwards,
    whatever happens next, and its promise stays rejected with the
    cancellation error. *)
Theorem cancelled_never_launched (w w' : World) (es : list Event) (item : RequestQueue) :
  reachable w -> In item (queue (self w)) ->
  run es (clearQueue w) = Some w' ->
  ~ In (promise item) (dispatched (trace w')) /\
  settlement (trace w') (promise item) = Some (Rejects (Error "Request cancelled")).
Proof.
  intros Hr Hin Hrun. pose proof (Inv_reachable w Hr) as HI.
  assert (Hp : In (promise item) (map promise (queue (self w)))) by now apply in_map.
  destruct HI as [_ Hb Hq _ _ _ _]. apply Hq in Hp as Hpend.
  destruct Hpend as (Hn & Hd & Hs).
  assert (Hg : gone (promise item) (clearQueue w)).
  { unfold gone. destruct (clearQueue_frame w) as (-> & _ & _ & ->).
    rewrite clearQueue_trace, dispatched_app, dispatched_rejects, app_nil_r.
    simpl. tauto. }
  split.
  - apply (gone_run _ es _ w' Hg Hrun).
  - destruct (run_trace_grows es _ w' Hrun) as [tl ->].
    rewrite settlement_app, clearQueue_trace, settlement_app, Hs, settlement_rejects.
    destruct (in_dec _ _ _); [reflexivity | contradiction].
Qed.

Lemma cancelled_never_launched_witness :
  exists w w',
    run [AddRequest "a" Awaits; AddRequest "b" Awaits; AddRequest "c" Awaits;
         AddRequest "d" Awaits] init = Some w /\
    run [Settle 0 (Fulfils (Num 1)); Expire 0; AddRequest "e" Awaits]
        (clearQueue w) = Some w' /\
    ~ In 3 (dispatched (trace w')).
Proof.
  eexists. eexists. split; [vm_compute; reflexivity|].
  match goal with |- run _ (clearQueue ?W) = _ /\ _ => set (w0 := W) end.
  split; [vm_compute; reflexivity|].
  match goal with |- ~ In _ (dispatched (trace ?W)) => set (w1 := W) end.
  apply (cancelled_never_launched w0 w1
           [Settle 0 (Fulfils (Num 1)); Expire 0; AddRequest "e" Awaits]
           (mkItem "d" Awaits 3)).
  - exists [AddRequest "a" Awaits; AddRequest "b" Awaits; AddRequest "c" Awaits;
            AddRequest "d" Awaits].
    vm_compute. reflexivity.
  - simpl. auto.
  - vm_compute. reflexivity.
Defined.

(** From a state with an empty queue (after [clearQueue], for one) nothing
    is launched until the next submission, whatever timers go off and
    whatever operations complete in between. *)
Theorem no_launch_without_submission (w w' : World) (es : list Event) :
  queue (self w) = [] ->
  forallb (fun e => negb (is_submission e)) es = true ->
  run es w = Some w' ->
  queue (self w') = [] /\ dispatched (trace w') = dispatched (trace w).
Proof.
  revert w. induction es as [|e es IH]; simpl; intros w Hq Hes.
  - now intros [= <-].
  - apply andb_true_iff in Hes. destruct Hes as [He Hes].
    destruct (step e w) as [w1|] eqn:Hs; [|discriminate]. intros Hrun.
    assert (Hqa : queue_at e w = []).
    { destruct e; simpl in *; auto; discriminate. }
    destruct (step_shape e w w1 Hs)
      as (_ & [[Hq' (tl & Hquiet & Ht)]|(h & t & Hh & _)]); [|congruence].
    destruct (IH w1) as [H1 H2]; auto; [congruence|].
    split; auto.
    now rewrite H2, Ht, dispatched_app, (dispatched_quiet e w tl Hquiet), app_nil_r.
Qed.

Lemma no_launch_without_submission_witness :
  exists w w',
    run [AddRequest "a" Awaits; AddRequest "b" Awaits; AddRequest "c" Awaits;
         AddRequest "d" Awaits; ClearQueue] init = Some w /\
    run [Settle 0 (Fulfils (Num 1)); Expire 0; Settle 2 (Rejects (Error "x"));
         GetStatus; Expire 0] w = Some w' /\
    dispatched (trace w') = dispatched (trace w).
Proof.
  eexists. eexists. split; [vm_compute; reflexivity|].
  match goal with |- run _ ?W = _ /\ _ => set (w0 := W) end.
  split; [vm_compute; reflexivity|].
  match goal with |- dispatched (trace ?W) = _ => set (w1 := W) end.
  apply (no_launch_without_submission w0 w1
           [Settle 0 (Fulfils (Num 1)); Expire 0; Settle 2 (Rejects (Error "x"));
            GetStatus; Expire 0]); reflexivity.
Defined.

(** ** The flag and the timers *)

(** The three ways a pass of the loop can go. *)
Lemma loop_result_cases (v : World) :
  (loop_result v = on_self (set_isProcessing false) v /\
   (queue (self v) = [] \/ (maxConcurrent (self v) <= inject_Z (activeRequests (self v)))%Q)) \/
  (exists h,
     queue (self v) = [h] /\
     loop_result v = on_self (set_isProcessing false) (shift_and_launch h [] v)) \/
  (exists h x t,
     queue (self v) = h :: x :: t /\
     loop_result v =
       delay (requestDelay (self (shift_and_launch h (x :: t) v)))
             (shift_and_launch h (x :: t) v)).
Proof.
  unfold loop_result. destruct (queue (self v)) as [|h [|x t]]; auto;
    destruct (Qlt_bool_spec (inject_Z (activeRequests (self v))) (maxConcurrent (self v)));
    eauto 8.
Qed.

Lemma launch_resume_timers (h : RequestQueue) (t : list RequestQueue) (v : World) :
  resume_timers (shift_and_launch h t v) = resume_timers v.
Proof.
  unfold resume_timers. rewrite launch_timers.
  destruct (request h); auto. rewrite filter_app. simpl. apply app_nil_r.
Qed.

Lemma loop_result_max (v : World) :
  maxConcurrent (self (loop_result v)) = maxConcurrent (self v).
Proof.
  destruct (loop_result_cases v) as [[-> _]|[(h & _ & ->)|(h & x & t & _ & ->)]]; simpl; auto.
  - now destruct (launch_self h [] v) as (_ & _ & _ & -> & _).
  - now destruct (launch_self h (x :: t) v) as (_ & _ & _ & -> & _).
Qed.

Lemma loop_result_flag (v : World) :
  isProcessing (self v) = true -> resume_timers v = [] ->
  flag_matches_timer (loop_result v).
Proof.
  intros Hp Hr. unfold flag_matches_timer.
  destruct (loop_result_cases v) as [[-> _]|[(h & _ & ->)|(h & x & t & _ & ->)]].
  - simpl. unfold resume_timers in *. simpl. now rewrite Hr.
  - simpl.
    change (resume_timers (on_self (set_isProcessing false) (shift_and_launch h [] v)))
      with (resume_timers (shift_and_launch h [] v)).
    now rewrite launch_resume_timers, Hr.
  - unfold delay, setTimeout, resume_timers. simpl. rewrite filter_app. simpl.
    fold (resume_timers (shift_and_launch h (x :: t) v)).
    rewrite launch_resume_timers, Hr.
    destruct (launch_self h (x :: t) v) as (_ & -> & _). now rewrite Hp.
Qed.

Lemma processQueue_flag (v v' : World) :
  flag_matches_timer v -> processQueue v = Some v' -> flag_matches_timer v'.
Proof.
  rewrite processQueue_total. intros HF [= <-].
  destruct (isProcessing (self v)) eqn:Hp; simpl; auto.
  destruct (_ || _); auto.
  apply (loop_result_flag (on_self (set_isProcessing true) v)); auto.
  unfold flag_matches_timer in HF. rewrite Hp in HF.
  change (resume_timers (on_self (set_isProcessing true) v)) with (resume_timers v).
  now destruct (resume_timers v).
Qed.

Lemma filter_remove_nth {A : Type} (f : A -> bool) (l : list A) (k : nat) (x : A) :
  nth_error l k = Some x ->
  (f x = false -> filter f (remove_nth k l) = filter f l) /\
  (f x = true -> S (length (filter f (remove_nth k l))) = length (filter f l)).
Proof.
  revert k. induction l as [|a l IH]; intros [|k]; simpl; try discriminate.
  - intros [= ->]. split; intros ->; reflexivity.
  - intros H. destruct (IH k H) as [H1 H2]. split; intros Hx.
    + now rewrite (H1 Hx).
    + destruct (f a); simpl; now rewrite (H2 Hx).
Qed.

Lemma flag_step (e : Event) (w w' : World) :
  flag_matches_timer w -> step e w = Some w' -> flag_matches_timer w'.
Proof.
  intros HF. destruct e as [i r| | |s|p o|k]; simpl.
  - unfold addRequest. now apply processQueue_flag.
  - now intros [= <-].
  - intros [= <-]. unfold flag_matches_timer, resume_timers in *.
    now destruct (clearQueue_frame w) as (-> & _ & -> & _).
  - intros [= <-]. unfold flag_matches_timer, resume_timers in *. simpl.
    unfold updateSettings.
    destruct (settings_requestDelay s), (settings_maxConcurrent s); exact HF.
  - destruct (take_awaiting p (awaiting w)) as [[item rest]|]; [|discriminate].
    intros [= <-]. unfold flag_matches_timer, resume_timers in *.
    destruct (resume_frame item o (set_awaiting rest w)) as (-> & _ & -> & _).
    simpl. rewrite filter_app. simpl. now rewrite app_nil_r.
  - destruct (nth_error (timers w) k) as [tm|] eqn:Hk; [|discriminate].
    destruct (filter_remove_nth
                (fun t => match callback t with ResumeLoop => true | _ => false end)
                (timers w) k tm Hk) as [Hother Hresume].
    destruct (callback tm) eqn:Hcb.
    + unfold resume_loop. rewrite while_loop_total. intros [= <-].
      specialize (Hresume eq_refl).
      unfold flag_matches_timer, resume_timers in HF. rewrite <- Hresume in HF.
      destruct (isProcessing (self w)) eqn:Hp; [|discriminate].
      apply loop_result_flag; auto. unfold resume_timers. simpl.
      destruct (filter _ (remove_nth k (timers w))); [reflexivity | discriminate].
    + apply processQueue_flag. unfold flag_matches_timer, resume_timers in *.
      simpl. now rewrite (Hother eq_refl).
Qed.

Lemma flag_run (es : list Event) (w w' : World) :
  flag_matches_timer w -> run es w = Some w' -> flag_matches_timer w'.
Proof.
  revert w. induction es as [|e es IH]; simpl; intros w HF.
  - now intros [= <-].
  - destruct (step e w) as [w1|] eqn:Hs; [|discriminate].
    apply IH. now apply flag_step with (e := e) (w := w).
Qed.

(** Between two turns of the event loop [isProcessing] is set exactly while
    one pass of the dispatch loop is suspended on its delay: then one timer of
    the loop is armed, otherwise none.  Two passes never run side by side. *)
Theorem one_pass_at_a_time (w : World) :
  reachable w ->
  length (resume_timers w) <= 1 /\
  (isProcessing (self w) = true <-> resume_timers w <> []).
Proof.
  intros [es Hrun].
  assert (HF : flag_matches_timer w).
  { apply (flag_run es init); auto. reflexivity. }
  unfold flag_matches_timer in HF.
  destruct (isProcessing (self w)), (resume_timers w); simpl in *;
    try discriminate; split; try lia; split; congruence.
Qed.

Lemma one_pass_at_a_time_witness :
  exists w,
    run [AddRequest "a" Awaits; AddRequest "b" Awaits; AddRequest "c" Awaits;
         AddRequest "d" Awaits; AddRequest "e" Awaits;
         Settle 0 (Fulfils (Num 1)); Expire 0; AddRequest "f" Awaits] init = Some w /\
    isProcessing (self w) = true /\ length (resume_timers w) <= 1.
Proof.
  eexists. split; [vm_compute; reflexivity|].
  match goal with |- isProcessing (self ?W) = _ /\ _ => set (w0 := W) end.
  split; [reflexivity|].
  apply (one_pass_at_a_time w0).
  exists [AddRequest "a" Awaits; AddRequest "b" Awaits; AddRequest "c" Awaits;
          AddRequest "d" Awaits; AddRequest "e" Awaits;
          Settle 0 (Fulfils (Num 1)); Expire 0; AddRequest "f" Awaits].
  vm_compute. reflexivity.
Defined.

(** ** Queued requests are not forgotten *)

Lemma loop_result_not_stranded (v : World) :
  isProcessing (self v) = true -> not_stranded (loop_result v).
Proof.
  intros Hp Hq. destruct (loop_result_cases v)
    as [[E [Hv|Hv]]|[(h & Hv & E)|(h & x & t & Hv & E)]]; rewrite E in *; simpl in *.
  - congruence.
  - auto.
  - destruct (launch_self h [] v) as (Hq' & _). congruence.
  - left. destruct (launch_self h (x :: t) v) as (_ & -> & _). exact Hp.
Qed.

Lemma processQueue_not_stranded (v v' : World) :
  processQueue v = Some v' -> not_stranded v'.
Proof.
  rewrite processQueue_total. intros [= <-].
  destruct (isProcessing (self v)) eqn:Hp; simpl; [intros _; now left|].
  destruct (Nat.eqb_spec (length (queue (self v))) 0) as [Hlen|Hlen]; simpl.
  { intros Hq. destruct (queue (self v)); [congruence | discriminate]. }
  destruct (Qle_bool_spec (maxConcurrent (self v)) (inject_Z (activeRequests (self v)))).
  { intros _. right. right. assumption. }
  now apply (loop_result_not_stranded (on_self (set_isProcessing true) v)).
Qed.

Lemma not_stranded_step (e : Event) (w w' : World) :
  flag_matches_timer w -> not_stranded w -> keeps_ceiling e = true ->
  step e w = Some w' -> not_stranded w'.
Proof.
  intros HF HS Hk. destruct e as [i r| | |s|p o|k]; simpl.
  - unfold addRequest. apply processQueue_not_stranded.
  - now intros [= <-].
  - intros [= <-] Hq. now destruct (clearQueue_frame w) as (E & _); rewrite E in Hq.
  - intros [= <-]. simpl in Hk. unfold not_stranded, call_timers in *. simpl.
    unfold updateSettings.
    destruct (settings_maxConcurrent s); [discriminate|].
    destruct (settings_requestDelay s); exact HS.
  - destruct (take_awaiting p (awaiting w)) as [[item rest]|]; [|discriminate].
    intros [= <-] _. right. left. unfold call_timers.
    destruct (resume_frame item o (set_awaiting rest w)) as (_ & _ & -> & _).
    rewrite filter_app. simpl. intros H. apply app_eq_nil in H. destruct H; discriminate.
  - destruct (nth_error (timers w) k) as [tm|] eqn:Hnth; [|discriminate].
    destruct (callback tm) eqn:Hcb.
    + unfold resume_loop. rewrite while_loop_total. intros [= <-].
      apply loop_result_not_stranded. simpl.
      destruct (filter_remove_nth
                  (fun t => match callback t with ResumeLoop => true | _ => false end)
                  (timers w) k tm Hnth) as [_ Hresume].
      rewrite Hcb in Hresume. specialize (Hresume eq_refl).
      unfold flag_matches_timer, resume_timers in HF. rewrite <- Hresume in HF.
      destruct (isProcessing (self w)); [reflexivity | discriminate].
    + apply processQueue_not_stranded.
Qed.

Lemma processQueue_max (v v' : World) :
  processQueue v = Some v' -> maxConcurrent (self v') = maxConcurrent (self v).
Proof.
  rewrite processQueue_total. intros [= <-]. destruct (_ || _); auto.
  apply (loop_result_max (on_self (set_isProcessing true) v)).
Qed.

Lemma step_keeps_max (e : Event) (w w' : World) :
  keeps_ceiling e = true -> step e w = Some w' ->
  maxConcurrent (self w') = maxConcurrent (self w).
Proof.
  intros Hk. destruct e as [i r| | |s|p o|k]; simpl.
  - unfold addRequest. intros H. now apply processQueue_max in H.
  - now intros [= <-].
  - intros [= <-]. now destruct (clearQueue_frame w) as (-> & _).
  - intros [= <-]. simpl in *. unfold updateSettings.
    destruct (settings_maxConcurrent s); [discriminate|].
    now destruct (settings_requestDelay s).
  - destruct (take_awaiting p (awaiting w)) as [[item rest]|]; [|discriminate].
    intros [= <-]. now destruct (resume_frame item o (set_awaiting rest w)) as (-> & _).
  - destruct (nth_error (timers w) k) as [tm|]; [|discriminate].
    destruct (callback tm).
    + unfold resume_loop. rewrite while_loop_total. intros [= <-].
      apply (loop_result_max (set_timers (remove_nth k (timers w)) w)).
    + intros H. now apply processQueue_max in H.
Qed.

Lemma not_stranded_run (es : list Event) (w w' : World) :
  flag_matches_timer w -> not_stranded w ->
  forallb keeps_ceiling es = true ->
  run es w = Some w' ->
  not_stranded w' /\ maxConcurrent (self w') = maxConcurrent (self w).
Proof.
  revert w. induction es as [|e es IH]; simpl; intros w HF HS Hes.
  - now intros [= <-].
  - apply andb_true_iff in Hes. destruct Hes as [He Hes].
    destruct (step e w) as [w1|] eqn:Hs; [|discriminate]. intros Hrun.
    destruct (IH w1) as [H1 H2]; auto.
    + now apply flag_step with (e := e) (w := w).
    + now apply not_stranded_step with (e := e) (w := w).
    + split; auto. rewrite H2. now apply step_keeps_max with (e := e).
Qed.

(** As long as [updateSettings] leaves [maxConcurrent] alone, a queued
    request always has something to wait for: the dispatch loop is suspended
    on its armed timer, or a timer that will call [processQueue] is armed, or
    requests are in flight (and each completion arms such a timer). *)
Theorem queued_requests_not_stranded (es : list Event) (w : World) :
  run es init = Some w ->
  forallb keeps_ceiling es = true ->
  queue (self w) <> [] ->
  (isProcessing (self w) = true /\ resume_timers w <> []) \/
  call_timers w <> [] \/
  awaiting w <> [].
Proof.
  intros Hrun Hes Hq.
  assert (HF : flag_matches_timer w) by (apply (flag_run es init); auto; reflexivity).
  destruct (not_stranded_run es init w) as [HS Hmax]; auto.
  { reflexivity. }
  { intros H. now elim H. }
  assert (HI : Inv w) by (apply Inv_reachable; now exists es).
  destruct (HS Hq) as [Hp|[Ht|Ha]]; auto.
  - left. split; auto. unfold flag_matches_timer in HF. rewrite Hp in HF.
    destruct (resume_timers w); [discriminate | congruence].
  - right. right. destruct HI as [_ _ _ _ _ Hact _].
    rewrite Hmax in Ha. simpl in Ha. rewrite Hact, length_map in Ha.
    destruct (awaiting w); [exfalso; apply Ha; reflexivity | discriminate].
Qed.

Lemma queued_requests_not_stranded_witness :
  exists w,
    run [AddRequest "a" Awaits; AddRequest "b" Awaits; AddRequest "c" Awaits;
         AddRequest "d" Awaits; UpdateSettings (mkSettings (Some 50%Q) None);
         Settle 1 (Rejects (Error "x"))] init = Some w /\
    queue (self w) <> [] /\
    ((isProcessing (self w) = true /\ resume_timers w <> []) \/
     call_timers w <> [] \/ awaiting w <> []).
Proof.
  eexists. split; [vm_compute; reflexivity|].
  match goal with |- queue (self ?W) <> _ /\ _ => set (w0 := W) end.
  split; [discriminate|].
  apply (queued_requests_not_stranded
           [AddRequest "a" Awaits; AddRequest "b" Awaits; AddRequest "c" Awaits;
            AddRequest "d" Awaits; UpdateSettings (mkSettings (Some 50%Q) None);
            Settle 1 (Rejects (Error "x"))] w0);
    [vm_compute; reflexivity | reflexivity | discriminate].
Defined.

(* ===================================================================== *)
(** * Part VI.  Further properties of the navigator and of the pages *)
(* ===================================================================== *)

Import Pages.

Close Scope string_scope.
Open Scope list_scope.

(** ** The calls of the navigator *)

(** Whatever the query string and the configuration, and whether its
    callbacks return or throw, the effect fetches at most once, and its
    callbacks are either none, or [onEntityLoaded] with the payload of a
    successful fetch followed, when [onAdditionalAction] is provided and
    [onEntityLoaded] has returned without throwing, by one
    [onAdditionalAction] with the same payload and the id that was fetched.
    [onAdditionalAction] is never called first, alone or twice. *)
Theorem navigator_calls_in_order {T : Type}
        (cfg : EntityUrlNavigationConfig T) (search : string) :
  length (fetches (fst (useEntityUrlNavigation cfg search))) <= 1 /\
  (callbacks (fst (useEntityUrlNavigation cfg search)) = [] \/
   exists s d,
     get (URLSearchParams search) "id" = Some s /\
     fetches (fst (useEntityUrlNavigation cfg search)) = [parseInt s] /\
     getEntityById cfg (parseInt s) = Resolved (mkResponse true (Some d)) /\
     callbacks (fst (useEntityUrlNavigation cfg search)) =
       OnEntityLoaded d
       :: match Navigator.onEntityLoaded cfg d, onAdditionalAction cfg with
          | Normally, Some _ => [OnAdditionalAction d (parseInt s)]
          | _, _ => []
          end).
Proof.
  destruct (truthy (get (URLSearchParams search) "id")
            && (strict_eq (get (URLSearchParams search) "action") "view"
                || strict_eq (get (URLSearchParams search) "action") "detail"))
    eqn:Hc.
  - destruct (get (URLSearchParams search) "id") as [s|] eqn:Hid; [|discriminate].
    rewrite (effect_loads cfg search s Hid Hc). simpl.
    destruct (loadSpecificEntity_calls cfg s) as (-> & -> & _).
    split; [simpl; lia|].
    destruct (getEntityById cfg (parseInt s)) as [[[] [d|]]|e|] eqn:Hf; auto.
    right. exists s, d. auto.
  - rewrite (effect_skips cfg search Hc). simpl. split; [lia | now left].
Qed.

(** ** Printing and reading an id *)

Lemma digit_char_byte (d : Z) :
  (0 <= d <= 9)%Z ->
  Z.of_N (byte (ascii_of_N (Z.to_N (48 + d)))) = (48 + d)%Z.
Proof.
  intros H. unfold byte. rewrite N_ascii_embedding; lia.
Qed.

Lemma digits_of_value (fuel : nat) :
  forall (n : Z) (rest : string),
    (0 <= n < 10 ^ Z.of_nat fuel)%Z ->
    decimal_digits (digits_of fuel n rest) 0 = decimal_digits rest n.
Proof.
  induction fuel as [|fuel IH]; intros n rest Hn.
  - simpl in *. replace n with 0%Z by lia. reflexivity.
  - assert (Hmod : (0 <= n mod 10 <= 9)%Z) by (pose proof (Z.mod_pos_bound n 10); lia).
    assert (Hstep : forall a,
              decimal_digits (String (ascii_of_N (Z.to_N (48 + n mod 10))) rest) a
              = decimal_digits rest (a * 10 + n mod 10)).
    { intros a. cbn [decimal_digits]. rewrite (digit_char_byte _ Hmod).
      replace ((48 <=? 48 + n mod 10) && (48 + n mod 10 <=? 57))%Z with true.
      - f_equal. lia.
      - symmetry. apply andb_true_iff. split; apply Z.leb_le; lia. }
    cbn [digits_of]. destruct (Z.ltb_spec n 10) as [Hlt|Hge].
    + rewrite Hstep. f_equal. rewrite Z.mod_small; lia.
    + rewrite IH.
      * rewrite Hstep. f_equal. pose proof (Z.div_mod n 10). lia.
      * rewrite Nat2Z.inj_succ, Z.pow_succ_r in Hn by lia.
        split; [apply Z.div_pos; lia|].
        apply Z.div_lt_upper_bound; lia.
Qed.

Lemma digits_fuel_enough (n : Z) :
  (0 <= n)%Z -> (0 <= n < 10 ^ Z.of_nat (digits_fuel n))%Z.
Proof.
  intros Hn. split; auto. unfold digits_fuel.
  rewrite Nat2Z.inj_succ, Z2Nat.id by apply Z.log2_nonneg.
  destruct (Z.eq_dec n 0) as [->|Hne]; [reflexivity|].
  assert (H2 : (n < 2 ^ Z.succ (Z.log2 n))%Z) by (apply Z.log2_spec; lia).
  assert (H10 : (2 ^ Z.succ (Z.log2 n) <= 10 ^ Z.succ (Z.log2 n))%Z).
  { apply Z.pow_le_mono_l. lia. }
  lia.
Qed.

Lemma digits_of_is_string (fuel : nat) (n : Z) (rest : string) :
  exists c tail, digits_of (S fuel) n rest = String c tail.
Proof.
  revert n rest. induction fuel as [|fuel IH]; intros n rest.
  - simpl. destruct (n <? 10)%Z; eauto.
  - cbn [digits_of]. destruct (n <? 10)%Z; [eauto|].
    apply (IH (n / 10)%Z).
Qed.

Lemma integer_literal_of_digits (s : string) (n : Z) :
  s <> EmptyString -> decimal_digits s 0 = Some n -> integer_literal s = Some n.
Proof.
  destruct s as [|c rest]; [congruence|]. intros _ H.
  pose proof (decimal_digits_head _ _ _ _ H) as Hc. unfold is_decimal in Hc.
  destruct c as [[] [] [] [] [] [] [] []]; try exact H;
    vm_compute in Hc; destruct Hc; congruence.
Qed.

Lemma integer_literal_toString (z : Z) :
  integer_literal (Number_toString (Int z)) = Some z.
Proof.
  unfold Number_toString. destruct (Z.ltb_spec z 0) as [Hneg|Hpos].
  - unfold digits_fuel.
    destruct (digits_of_is_string (Z.to_nat (Z.log2 (- z))) (- z) EmptyString)
      as (c & tail & E).
    assert (Hv : decimal_digits (String c tail) 0 = Some (- z)%Z).
    { rewrite <- E. fold (digits_fuel (- z)).
      rewrite digits_of_value by (apply digits_fuel_enough; lia). reflexivity. }
    rewrite E. change (integer_literal (String "-" (String c tail)))
      with (option_map Z.opp (decimal_digits (String c tail) 0)).
    rewrite Hv. simpl. f_equal. lia.
  - apply integer_literal_of_digits.
    + unfold digits_fuel.
      destruct (digits_of_is_string (Z.to_nat (Z.log2 z)) z EmptyString)
        as (c & tail & ->). discriminate.
    + rewrite digits_of_value by (apply digits_fuel_enough; lia). reflexivity.
Qed.

(** An integer id written into a link with a template literal and read back
    by [parseInt] is the same id: for every safe integer [n],
    [parseInt(`${n}`)] is [n]. *)
Theorem parseInt_reads_printed_id (n : Z) :
  safe_integer n ->
  parseInt (Number_toString (Int n)) = Int n /\
  integer_literal (Number_toString (Int n)) = Some n.
Proof.
  intros Hsafe. split; [|apply integer_literal_toString].
  rewrite (parseInt_integer_literal _ n) by apply integer_literal_toString.
  now apply to_number_safe.
Qed.

Lemma parseInt_reads_printed_id_witness :
  parseInt (Number_toString (Int (-1204))) = Int (-1204).
Proof.
  apply (parseInt_reads_printed_id (-1204)). unfold safe_integer. lia.
Defined.

(** ** From a search result to the page it links to *)

Lemma plain_lacks (c : ascii) (s : string) :
  ~ (45 <= Z.of_N (byte c) <= 57)%Z -> plain s -> lacks c s.
Proof.
  intros Hc. induction s as [|a rest IH]; simpl; auto.
  intros [Ha Hrest]. split; auto. intros ->. contradiction.
Qed.

Lemma lacks_app (c : ascii) (s1 s2 : string) :
  lacks c s1 -> lacks c s2 -> lacks c (s1 ++ s2)%string.
Proof. induction s1 as [|a rest IH]; simpl; intuition. Qed.

Lemma plain_digits_of (fuel : nat) :
  forall n rest, (0 <= n)%Z -> plain rest -> plain (digits_of fuel n rest).
Proof.
  induction fuel as [|fuel IH]; intros n rest Hn Hrest; simpl; auto.
  assert (Hmod : (0 <= n mod 10 <= 9)%Z) by (pose proof (Z.mod_pos_bound n 10); lia).
  assert (Hp : plain (String (ascii_of_N (Z.to_N (48 + n mod 10))) rest)).
  { cbn [plain]. rewrite (digit_char_byte _ Hmod). split; auto. lia. }
  destruct (n <? 10)%Z; auto.
  apply IH; auto. apply Z.div_pos; lia.
Qed.

Lemma plain_toString (z : Z) : plain (Number_toString (Int z)).
Proof.
  unfold Number_toString. destruct (Z.ltb_spec z 0).
  - cbn [plain]. split; [vm_compute; split; discriminate|].
    apply plain_digits_of; simpl; auto; lia.
  - apply plain_digits_of; simpl; auto.
Qed.

Lemma split_at_first (c : ascii) (s1 s2 : string) :
  lacks c s1 -> split c (s1 ++ String c s2)%string = s1 :: split c s2.
Proof.
  induction s1 as [|a rest IH]; simpl.
  - intros _. now rewrite Ascii.eqb_refl.
  - intros [Ha Hrest]. apply Ascii.eqb_neq in Ha. rewrite Ha, (IH Hrest). reflexivity.
Qed.

Lemma plus_to_space_plain (s : string) : plain s -> plus_to_space s = s.
Proof.
  induction s as [|a rest IH]; simpl; auto. intros [Ha Hrest].
  rewrite (IH Hrest), eqb_other_byte; auto.
  change (byte "+") with 43%N. lia.
Qed.

Lemma percent_decode_plain (s : string) : plain s -> percent_decode s = s.
Proof.
  induction s as [|a rest IH]; auto. intros [Ha Hrest].
  cbn [percent_decode]. rewrite (IH Hrest).
  assert (E : Ascii.eqb a "%" = false)
    by (apply eqb_other_byte; change (byte "%") with 37%N; lia).
  rewrite E. destruct rest as [|h [|l r]]; reflexivity.
Qed.

Lemma decode_plain (s : string) : plain s -> decode s = s.
Proof.
  intros H. unfold decode. now rewrite (plus_to_space_plain s H), percent_decode_plain.
Qed.

(** The query string of a link built by [handleResultSelect], parsed. *)
Lemma link_query_parsed (d : string) :
  plain d ->
  URLSearchParams ("?id=" ++ d ++ "&action=view")%string
  = [("id"%string, d); ("action"%string, "view"%string)].
Proof.
  intros Hd. unfold URLSearchParams.
  change ("?id=" ++ d ++ "&action=view")%string
    with (String "?" ("id=" ++ d ++ "&action=view"))%string.
  cbv iota. cbv beta.
  assert (Hsplit : split "&" ("id=" ++ d ++ "&action=view")%string
                   = [("id=" ++ d)%string; "action=view"%string]).
  { change ("id=" ++ d ++ "&action=view")%string
      with (("id=" ++ d) ++ String "&" "action=view")%string.
    rewrite split_at_first; [reflexivity|].
    simpl. repeat split; try discriminate.
    apply plain_lacks; auto. vm_compute. intros [H _]. now apply H. }
  rewrite Hsplit. simpl. rewrite (decode_plain d Hd).
  destruct d; reflexivity.
Qed.

Lemma before_lacks (c : ascii) (s : string) : lacks c s -> before c s = s.
Proof.
  induction s as [|a rest IH]; simpl; auto. intros [Ha Hrest].
  apply Ascii.eqb_neq in Ha. now rewrite Ha, IH.
Qed.

Lemma from_first (c : ascii) (s1 s2 : string) :
  lacks c s1 -> from c (s1 ++ String c s2)%string = String c s2.
Proof.
  induction s1 as [|a rest IH]; simpl.
  - intros _. now rewrite Ascii.eqb_refl.
  - intros [Ha Hrest]. apply Ascii.eqb_neq in Ha. now rewrite Ha, IH.
Qed.

Lemma from_lacks (c : ascii) (s : string) : lacks c s -> from c s = EmptyString.
Proof.
  induction s as [|a rest IH]; simpl; auto. intros [Ha Hrest].
  apply Ascii.eqb_neq in Ha. now rewrite Ha, IH.
Qed.

(** No route of [entityRouteMap] holds a [?] or a [#]. *)
Lemma own_routes_clean (key route : string) :
  own_property entityRouteMap key = Some route ->
  lacks "?" route /\ lacks "#" route.
Proof.
  unfold entityRouteMap. cbn [own_property].
  repeat (destruct (String.eqb _ key);
          [intros [= <-]; simpl; repeat split; discriminate|]).
  discriminate.
Qed.

Lemma lookup_route_own (key : option string) (route : string) :
  lookup_route key = Own route -> lacks "?" route /\ lacks "#" route.
Proof.
  unfold lookup_route.
  destruct (own_property entityRouteMap _) as [r|] eqn:E.
  - intros [= <-]. now apply own_routes_clean in E.
  - destruct (existsb _ _); discriminate.
Qed.

Lemma search_of_link (route d : string) :
  lacks "?" route -> lacks "#" route -> plain d ->
  search_of (route ++ "?id=" ++ d ++ "&action=view")%string
  = ("?id=" ++ d ++ "&action=view")%string.
Proof.
  intros Hq Hh Hd. unfold search_of.
  rewrite before_lacks.
  - change ("?id=" ++ d ++ "&action=view")%string
      with (String "?" ("id=" ++ d ++ "&action=view"))%string.
    now apply from_first.
  - apply lacks_app; auto. simpl. repeat split; try discriminate.
    apply lacks_app; [|simpl; repeat split; discriminate].
    apply plain_lacks; auto. vm_compute. intros [H _]. now apply H.
Qed.

(** The calls of the navigator on a link built for the id [n]. *)
Lemma navigator_on_link {T : Type} (cfg : EntityUrlNavigationConfig T) (n : Z) :
  safe_integer n ->
  fetches (fst (useEntityUrlNavigation cfg
                  ("?id=" ++ Number_toString (Int n) ++ "&action=view")%string))
    = [Int n] /\
  callbacks (fst (useEntityUrlNavigation cfg
                    ("?id=" ++ Number_toString (Int n) ++ "&action=view")%string))
    = match getEntityById cfg (Int n) with
      | Resolved (mkResponse true (Some d)) =>
          OnEntityLoaded d
          :: match Navigator.onEntityLoaded cfg d, onAdditionalAction cfg with
             | Normally, Some _ => [OnAdditionalAction d (Int n)]
             | _, _ => []
             end
      | _ => []
      end.
Proof.
  intros Hsafe.
  set (search := ("?id=" ++ Number_toString (Int n) ++ "&action=view")%string).
  assert (Hparams : URLSearchParams search
                    = [("id"%string, Number_toString (Int n));
                       ("action"%string, "view"%string)])
    by (apply link_query_parsed, plain_toString).
  assert (Hid : get (URLSearchParams search) "id" = Some (Number_toString (Int n)))
    by now rewrite Hparams.
  assert (Hint : integer_literal (Number_toString (Int n)) = Some n)
    by apply integer_literal_toString.
  rewrite (effect_loads cfg search _ Hid).
  - cbn [fst fetches callbacks].
    destruct (loadSpecificEntity_calls cfg (Number_toString (Int n)))
      as (-> & -> & _).
    rewrite (parseInt_integer_literal _ _ Hint), (to_number_safe n Hsafe).
    split; reflexivity.
  - rewrite (integer_literal_truthy _ _ Hint), Hparams. reflexivity.
Qed.

(** A click on a search result whose type has a route and whose entity has a
    non-zero id leads to a link that the navigator of the target page reads
    back as that very id: it fetches [getEntityById(id)] once and, on
    success, calls [onEntityLoaded] with the payload and then, when
    [onAdditionalAction] is provided and [onEntityLoaded] has returned
    without throwing, [onAdditionalAction] with the payload and the id. *)
Theorem result_link_reaches_navigator {T : Type}
        (cfg : EntityUrlNavigationConfig T)
        (result : SearchResult) (route : string) (n : Z) :
  lookup_route (resultType result) = Own route ->
  entity_id result = Some (Int n) -> n <> 0%Z -> safe_integer n ->
  exists to,
    handleResultSelect result = NavigateTo to /\
    to = (route ++ "?id=" ++ Number_toString (Int n) ++ "&action=view")%string /\
    get (URLSearchParams (search_of to)) "id" = Some (Number_toString (Int n)) /\
    get (URLSearchParams (search_of to)) "action" = Some "view"%string /\
    fetches (fst (useEntityUrlNavigation cfg (search_of to))) = [Int n] /\
    forall d,
      getEntityById cfg (Int n) = Resolved (mkResponse true (Some d)) ->
      callbacks (fst (useEntityUrlNavigation cfg (search_of to)))
      = OnEntityLoaded d
        :: match Navigator.onEntityLoaded cfg d, onAdditionalAction cfg with
           | Normally, Some _ => [OnAdditionalAction d (Int n)]
           | _, _ => []
           end.
Proof.
  intros Hroute Hid Hn Hsafe.
  destruct (lookup_route_own _ _ Hroute) as [Hq Hh].
  eexists. split; [|split; [reflexivity|]].
  - unfold handleResultSelect. rewrite Hroute, Hid. simpl.
    destruct (Z.eqb_spec n 0); [contradiction | reflexivity].
  - rewrite (search_of_link route _ Hq Hh (plain_toString n)).
    rewrite (link_query_parsed _ (plain_toString n)).
    destruct (navigator_on_link cfg n Hsafe) as [Hf Hc].
    repeat split; auto.
    intros d Hd. rewrite Hc, Hd. reflexivity.
Qed.

Lemma result_link_reaches_navigator_witness :
  fetches (fst (useEntityUrlNavigation (mkConfig only_seven true)
                  (search_of "/instruments?id=7&action=view"))) = [Int 7].
Proof.
  assert (Hsafe : safe_integer 7) by (unfold safe_integer; lia).
  assert (Hnz : 7%Z <> 0%Z) by discriminate.
  destruct (result_link_reaches_navigator (mkConfig only_seven true)
              (mkResult (Some "Instrument"%string) None (Some (Int 7)))
              "/instruments" 7 eq_refl eq_refl Hnz Hsafe)
    as (to & _ & -> & _ & _ & Hf & _).
  exact Hf.
Defined.

(** A result whose entity has no id, or the id 0, is linked to its route
    alone, and the page behind the link then fetches nothing and fires no
    callback. *)
Theorem result_without_id_loads_nothing {T : Type}
        (cfg : EntityUrlNavigationConfig T)
        (result : SearchResult) (route : string) :
  lookup_route (resultType result) = Own route ->
  truthy_number (entity_id result) = false ->
  handleResultSelect result = NavigateTo route /\
  search_of route = EmptyString /\
  fetches (fst (useEntityUrlNavigation cfg (search_of route))) = [] /\
  callbacks (fst (useEntityUrlNavigation cfg (search_of route))) = [].
Proof.
  intros Hroute Hid. destruct (lookup_route_own _ _ Hroute) as [Hq Hh].
  assert (Hs : search_of route = EmptyString).
  { unfold search_of. rewrite before_lacks by auto. now apply from_lacks. }
  split; [|split; auto].
  - unfold handleResultSelect. now rewrite Hroute, Hid.
  - rewrite Hs. split; reflexivity.
Qed.

Lemma result_without_id_loads_nothing_witness :
  handleResultSelect (mkResult (Some "Localite"%string) None (Some (Int 0)))
  = NavigateTo "/localites".
Proof.
  apply (result_without_id_loads_nothing (mkConfig only_seven true)
           (mkResult (Some "Localite"%string) None (Some (Int 0))) "/localites");
    reflexivity.
Defined.

(** ** The instruments page behind a link *)

Lemma react_callbacks {I : Type} (search : string) (calls : list (Call I))
      (st : PageState I) :
  react search calls st = react search (callbacks calls) st.
Proof.
  unfold react. revert st. induction calls as [|c calls IH]; intros st; auto.
  destruct c; simpl; apply IH.
Qed.

(** On a link with a non-empty id and the action "view" or "detail", once
    the fetch of [parseInt(id)] has succeeded and the timeout has gone off,
    the instruments page has selected the payload and opened exactly one
    dialog: the detail dialog for "detail", the relations dialog for "view";
    it asks for relations only for "view", and then for those of
    [parseInt(id)], which is the id itself when the id is a safe integer. *)
Theorem page_opens_one_dialog {I : Type} (getById : number -> Fetched I)
        (search s a : string) (d : I) (st : PageState I) :
  get (URLSearchParams search) "id" = Some s ->
  s <> EmptyString ->
  get (URLSearchParams search) "action" = Some a ->
  a = "view"%string \/ a = "detail"%string ->
  getById (parseInt s) = Resolved (mkResponse true (Some d)) ->
  timeouts st = [] ->
  visit getById search st =
  mkPage (Some d)
         (showDetail st || String.eqb a "detail")
         (showRelations st || String.eqb a "view")
         (relationsLoaded st ++ (if String.eqb a "view" then [parseInt s] else []))
         [] /\
  (forall n, integer_literal s = Some n -> safe_integer n -> parseInt s = Int n).
Proof.
  intros Hid Hs Ha Hrec Hfetch Ht. split.
  - unfold visit. rewrite react_callbacks.
    rewrite (effect_loads (mkConfig getById true) search s Hid)
      by (simpl; apply String.eqb_neq in Hs; rewrite Hs, Ha;
          destruct Hrec as [-> | ->]; reflexivity).
    cbn [fst callbacks].
    destruct (loadSpecificEntity_calls (mkConfig getById true) s) as (_ & -> & _).
    cbn [getEntityById onAdditionalAction Navigator.onEntityLoaded mkConfig].
    rewrite Hfetch. unfold react, run_timeouts. simpl.
    unfold onAdditionalAction_page, onEntityLoaded. rewrite Ha, Ht.
    destruct st as [sel sd sr rl tm]. simpl in *.
    destruct Hrec as [-> | ->]; simpl; unfold open_dialog; simpl;
      rewrite ?orb_true_r, ?orb_false_r, ?app_nil_r; reflexivity.
  - intros n Hn Hsafe.
    now rewrite (parseInt_integer_literal s n Hn), (to_number_safe n Hsafe).
Qed.

Lemma page_opens_one_dialog_witness :
  visit only_seven "?id=7&action=detail" (mkPage None false false [] [])
  = mkPage (Some "seven"%string) true false [] [].
Proof.
  apply (page_opens_one_dialog only_seven "?id=7&action=detail" "7" "detail"
           "seven"%string (mkPage None false false [] []));
    try reflexivity; [discriminate | now right].
Defined.

(** A click on the search result of an instrument with a non-zero id ends,
    once the instrument has been fetched, with that instrument selected, the
    relations dialog open and the relations of that id asked for. *)
Theorem instrument_result_opens_relations {I : Type} (getById : number -> Fetched I)
        (result : SearchResult) (n : Z) (d : I) (st : PageState I) :
  lookup_route (resultType result) = Own "/instruments" ->
  entity_id result = Some (Int n) -> n <> 0%Z -> safe_integer n ->
  getById (Int n) = Resolved (mkResponse true (Some d)) ->
  timeouts st = [] ->
  exists to,
    handleResultSelect result = NavigateTo to /\
    visit getById (search_of to) st =
    mkPage (Some d) (showDetail st) true (relationsLoaded st ++ [Int n]) [].
Proof.
  intros Hroute Hid Hn Hsafe Hfetch Ht.
  exists ("/instruments" ++ "?id=" ++ Number_toString (Int n) ++ "&action=view")%string.
  split.
  - unfold handleResultSelect. rewrite Hroute, Hid. simpl.
    destruct (Z.eqb_spec n 0); [contradiction | reflexivity].
  - rewrite (search_of_link "/instruments" (Number_toString (Int n)));
      [|simpl; repeat split; discriminate
       |simpl; repeat split; discriminate
       |apply plain_toString].
    unfold visit. rewrite react_callbacks.
    destruct (navigator_on_link (mkConfig getById true) n Hsafe) as [_ ->].
    cbn [getEntityById onAdditionalAction Navigator.onEntityLoaded mkConfig].
    rewrite Hfetch.
    unfold react, run_timeouts. cbn [fold_left].
    unfold onAdditionalAction_page, onEntityLoaded.
    rewrite (link_query_parsed _ (plain_toString n)).
    destruct st as [sel sd sr rl tm]. simpl in *. subst tm. reflexivity.
Qed.

Lemma instrument_result_opens_relations_witness :
  exists to,
    handleResultSelect (mkResult None (Some ["Instrument"%string]) (Some (Int 7)))
      = NavigateTo to /\
    visit only_seven (search_of to) (mkPage None false false [] [])
      = mkPage (Some "seven"%string) false true [Int 7] [].
Proof.
  assert (Hsafe : safe_integer 7) by (unfold safe_integer; lia).
  assert (Hnz : 7%Z <> 0%Z) by discriminate.
  exact (instrument_result_opens_relations only_seven
           (mkResult None (Some ["Instrument"%string]) (Some (Int 7)))
           7 "seven"%string (mkPage None false false [] [])
           eq_refl eq_refl Hnz Hsafe eq_refl eq_refl).
Defined.

(** ** Selecting instruments *)

Lemma existsb_Zeqb (x : Z) (l : list Z) : existsb (Z.eqb x) l = true <-> In x l.
Proof.
  rewrite existsb_exists. split.
  - intros (y & Hy & E). apply Z.eqb_eq in E. now subst.
  - intros H. exists x. split; auto. apply Z.eqb_refl.
Qed.

(** [handleSelectInstrument] flips the membership of the id it is given and
    of no other id, keeps a selection free of duplicates, and undoes itself
    on an id that was not selected. *)
Theorem toggle_selection (instrumentId : Z) (prev : list Z) :
  (In instrumentId (handleSelectInstrument instrumentId prev)
   <-> ~ In instrumentId prev) /\
  (forall x, x <> instrumentId ->
     (In x (handleSelectInstrument instrumentId prev) <-> In x prev)) /\
  (NoDup prev -> NoDup (handleSelectInstrument instrumentId prev)) /\
  (~ In instrumentId prev ->
   handleSelectInstrument instrumentId
     (handleSelectInstrument instrumentId prev) = prev).
Proof.
  unfold handleSelectInstrument at 1 2 3.
  destruct (existsb (Z.eqb instrumentId) prev) eqn:E.
  - apply existsb_Zeqb in E. split; [|split; [|split]].
    + rewrite filter_In, negb_true_iff, Z.eqb_neq. tauto.
    + intros x Hx. rewrite filter_In, negb_true_iff, Z.eqb_neq. tauto.
    + intros H. now apply NoDup_filter.
    + contradiction.
  - assert (Hn : ~ In instrumentId prev).
    { intros H. apply existsb_Zeqb in H. congruence. }
    split; [|split; [|split]].
    + rewrite in_app_iff. simpl. tauto.
    + intros x Hx. rewrite in_app_iff. simpl. intuition congruence.
    + intros H. now apply NoDup_snoc.
    + intros _. unfold handleSelectInstrument. rewrite E.
      replace (existsb (Z.eqb instrumentId) (prev ++ [instrumentId])) with true.
      * cbv iota. rewrite filter_app. simpl. rewrite Z.eqb_refl. simpl.
        rewrite app_nil_r.
        apply forallb_filter_id. apply forallb_forall. intros x Hx.
        apply negb_true_iff, Z.eqb_neq. congruence.
      * symmetry. apply existsb_Zeqb, in_or_app. right. now left.
Qed.

(** [handleSelectAll] answers with the empty selection when the selection
    has as many entries as the page (whichever ids they are) and with all the
    ids of the page otherwise.  On a non-empty page two calls in a row
    therefore end with every id of the page selected when the selection had
    as many entries as the page to begin with, and with the empty selection
    otherwise (also when the selection was not empty before the first
    call). *)
Theorem select_all_flips {I : Type} (instrument_id : I -> Z)
        (selectedInstruments : list Z) (instruments : list I) :
  (length selectedInstruments = length instruments ->
   handleSelectAll instrument_id selectedInstruments instruments = []) /\
  (length selectedInstruments <> length instruments ->
   handleSelectAll instrument_id selectedInstruments instruments
   = map instrument_id instruments) /\
  (instruments <> [] ->
   handleSelectAll instrument_id
     (handleSelectAll instrument_id selectedInstruments instruments) instruments
   = if (length selectedInstruments =? length instruments)%nat
     then map instrument_id instruments else []).
Proof.
  unfold handleSelectAll.
  destruct (Nat.eqb_spec (length selectedInstruments) (length instruments)) as [E|E].
  - repeat split; auto; [contradiction|].
    intros Hne. simpl.
    destruct instruments; [contradiction | reflexivity].
  - repeat split; auto; [contradiction|].
    intros _. now rewrite length_map, Nat.eqb_refl.
Qed.

(** ** The history of Cypher queries *)

Lemma remember_query_bounded (q : string) (seen h : list string) :
  length h <= 10 ->
  length (remember_query q seen h) <= 10 /\
  (forall x, In x (remember_query q seen h) -> x = q \/ In x h).
Proof.
  intros Hlen. unfold remember_query.
  destruct (existsb (String.eqb q) seen).
  - split; auto.
  - pose proof (firstn_le_length 9 h) as Hf. split.
    + cbn [length]. lia.
    + intros x [->|Hx]; auto. right.
      rewrite <- (firstn_skipn 9 h). apply in_or_app. now left.
Qed.

Lemma remember_query_keeps (q : string) (h : list string) :
  NoDup h ->
  NoDup (remember_query q h h) /\ In q (remember_query q h h).
Proof.
  intros Hnd. unfold remember_query.
  destruct (existsb (String.eqb q) h) eqn:E.
  - split; auto.
    apply existsb_exists in E. destruct E as (y & Hy & Hq).
    apply String.eqb_eq in Hq. now subst.
  - assert (Hq : ~ In q h).
    { intros H. assert (existsb (String.eqb q) h = true); [|congruence].
      apply existsb_exists. exists q. split; auto. apply String.eqb_refl. }
    assert (Hsub : forall x, In x (firstn 9 h) -> In x h).
    { intros x Hx. rewrite <- (firstn_skipn 9 h). apply in_or_app. now left. }
    split.
    + constructor; [intros H; apply Hq, Hsub, H|].
      rewrite <- (firstn_skipn 9 h) in Hnd. now apply NoDup_app_remove_r in Hnd.
    + now left.
Qed.

Lemma history_from_bounded (runs : list (string * list string)) (h : list string) :
  length h <= 10 ->
  length (history_from h runs) <= 10 /\
  (forall q, In q (history_from h runs) -> In q (map fst runs) \/ In q h).
Proof.
  revert h. induction runs as [|[q seen] runs IH]; intros h Hlen.
  - split; auto.
  - destruct (remember_query_bounded q seen h Hlen) as (H1 & H2).
    destruct (IH _ H1) as (H3 & H4). split; [exact H3|].
    intros x Hx. destruct (H4 x Hx) as [H|H]; [left; now right|].
    destruct (H2 x H) as [->|H']; [left; now left | now right].
Qed.

Lemma history_in_turn_app (queries : list string) (q : string) (h : list string) :
  history_from h (in_turn_from h (queries ++ [q]))
  = remember_query q (history_from h (in_turn_from h queries))
                     (history_from h (in_turn_from h queries)).
Proof.
  revert h. induction queries as [|x queries IH]; intros h.
  - reflexivity.
  - simpl. apply IH.
Qed.

Lemma history_in_turn_NoDup (queries : list string) (h : list string) :
  NoDup h -> NoDup (history_from h (in_turn_from h queries)).
Proof.
  revert h. induction queries as [|q queries IH]; intros h Hnd.
  - exact Hnd.
  - simpl. apply IH. now apply remember_query_keeps.
Qed.

(** Two runs of one query that overlap (both closures hold the empty
    history) put the query into the history twice. *)
Lemma overlapping_runs_repeat_query (q : string) :
  history_after [(q, []); (q, [])] = [q; q].
Proof. reflexivity. Qed.

(** Whatever queries succeed, in whatever order and however their runs
    overlap, the history never holds more than ten queries and holds only
    queries that were run.  When the runs do not overlap, so that every run
    tests the history the previous one has left, the history moreover holds
    no query twice and always holds the query that was run last. *)
Theorem history_bounded (runs : list (string * list string)) (queries : list string) :
  length (history_after runs) <= 10 /\
  (forall q, In q (history_after runs) -> In q (map fst runs)) /\
  NoDup (history_after (in_turn queries)) /\
  (forall q, In q (history_after (in_turn (queries ++ [q])))).
Proof.
  unfold history_after, in_turn.
  destruct (history_from_bounded runs []) as (H1 & H2); [simpl; lia|].
  split; [exact H1|]. split; [|split].
  - intros q Hq. destruct (H2 q Hq) as [H|[]]; auto.
  - apply history_in_turn_NoDup. constructor.
  - intros q. rewrite history_in_turn_app.
    apply remember_query_keeps, history_in_turn_NoDup. constructor.
Qed.

(** ** Deleting the selection *)

Lemma delete_each_counts (delete : Z -> bool) (ids calls : list Z) (ok ko : nat) :
  delete_each delete ids (calls, ok, ko)
  = (calls ++ ids,
     ok + length (filter delete ids),
     ko + length (filter (fun id => negb (delete id)) ids)).
Proof.
  revert calls ok ko. induction ids as [|id ids IH]; intros calls ok ko; simpl.
  - now rewrite app_nil_r, !Nat.add_0_r.
  - destruct (delete id); rewrite IH, <- app_assoc; simpl; repeat f_equal; lia.
Qed.

(** A confirmed bulk deletion calls [instrumentsApi.delete] once for every
    selected id, in order, and goes on after a failure; the two counters add
    up to the size of the selection; the selection is emptied; the success
    message is set exactly when no call failed, the error otherwise.  A
    declined confirmation does nothing. *)
Theorem bulk_delete_tries_every_id (delete : Z -> bool)
        (selectedInstruments : list Z) :
  handleBulkDelete false delete selectedInstruments = None /\
  exists r,
    handleBulkDelete true delete selectedInstruments = Some r /\
    deleted r = selectedInstruments /\
    successCount r = length (filter delete selectedInstruments) /\
    successCount r + errorCount r = length selectedInstruments /\
    selection r = [] /\
    (errorCount r = 0 -> successMessage r <> None /\ error r = None) /\
    (errorCount r <> 0 -> successMessage r = None /\ error r <> None).
Proof.
  split; [reflexivity|]. unfold handleBulkDelete.
  rewrite delete_each_counts. simpl. eexists. split; [reflexivity|]. simpl.
  repeat split; auto.
  - rewrite Nat.add_comm.
    induction selectedInstruments as [|id ids IH]; simpl; auto.
    destruct (delete id); simpl; lia.
  - rewrite H. simpl. discriminate.
  - now rewrite H.
  - destruct (Nat.eqb_spec
                (length (filter (fun id => negb (delete id)) selectedInstruments)) 0);
      [contradiction | reflexivity].
  - destruct (Nat.eqb_spec
                (length (filter (fun id => negb (delete id)) selectedInstruments)) 0);
      [contradiction | discriminate].
Qed.

(** ** Geographic results *)

(** Every result that a geographic search displays can be followed: its type
    is one of the three that [entityRouteMap] knows, so a click on it always
    navigates to a page of the application.  The "no result" error is set
    exactly when no raw result carries an instrument, a place or a group. *)
Theorem geographic_results_are_linked (rawResults : list GeoResult) :
  (forall r, In r (transformedResults rawResults) ->
     (exists route, lookup_route (resultType r) = Own route) /\
     (exists to, handleResultSelect r = NavigateTo to) /\
     labels r = match type r with Some kind => Some [kind] | None => None end) /\
  (geographic_error rawResults <> None <->
   forall g, In g rawResults ->
     (instruments g = None \/ instruments g = Some []) /\
     localite g = None /\
     (groupesEthniques g = None \/ groupesEthniques g = Some [])).
Proof.
  split.
  - intros r Hr. unfold transformedResults in Hr. apply in_flat_map in Hr.
    destruct Hr as (g & _ & Hr). unfold transform_one in Hr.
    assert (Hkind : exists kind id,
              r = result_of kind id /\
              (kind = "Instrument"%string \/ kind = "Localite"%string
               \/ kind = "GroupeEthnique"%string)).
    { apply in_app_or in Hr. destruct Hr as [Hr|Hr].
      - destruct (instruments g) as [l|]; [|contradiction].
        apply in_map_iff in Hr. destruct Hr as (id & <- & _). eauto.
      - apply in_app_or in Hr. destruct Hr as [Hr|Hr].
        + destruct (localite g) as [id|]; [|contradiction].
          destruct Hr as [<-|[]]. eauto 6.
        + destruct (groupesEthniques g) as [l|]; [|contradiction].
          apply in_map_iff in Hr. destruct Hr as (id & <- & _). eauto 6. }
    destruct Hkind as (kind & id & -> & Hk).
    split; [|split; [|reflexivity]].
    + destruct Hk as [->|[->| ->]]; eexists; reflexivity.
    + unfold handleResultSelect.
      destruct Hk as [->|[->| ->]]; simpl;
        destruct (truthy_number id); destruct id; eauto.
  - unfold geographic_error, transformedResults.
    induction rawResults as [|g raw IH]; simpl.
    + split; [intros _ g [] | intros _; discriminate].
    + destruct (transform_one g) as [|r rs] eqn:Eg; simpl.
      * rewrite IH. unfold transform_one in Eg.
        assert (Hg : (instruments g = None \/ instruments g = Some []) /\
                     localite g = None /\
                     (groupesEthniques g = None \/ groupesEthniques g = Some [])).
        { destruct (instruments g) as [[|? ?]|]; try discriminate;
            destruct (localite g); try discriminate;
            destruct (groupesEthniques g) as [[|? ?]|]; try discriminate; auto. }
        split.
        -- intros H g' [<-|Hin]; auto.
        -- intros H g' Hin. apply H. now right.
      * split; [congruence|]. intros H. exfalso.
        destruct (H g (or_introl eq_refl)) as ([Hi|Hi] & Hl & [Hg|Hg]);
          unfold transform_one in Eg; rewrite Hi, Hl, Hg in Eg; discriminate.
Qed.
